(** * Hand tracking core of the bird-catching rehab game

    A shallow embedding of [processTracking] (src/App.tsx, lines 342-457):
    the per-frame transform that associates the hand detections of one video
    frame with the persistent tracked hands, smooths the matched ones, lets
    the unmatched ones coast and fade, evicts the stale ones and creates a
    track for every detection nobody claimed.

    Numbers.  A JavaScript [number] is an IEEE 754 binary64 value, which is
    exactly Rocq's primitive [float]: coordinates, velocities and [alpha] are
    floats, and [+], [-], [*], [/], [Math.sqrt] and [<] are the primitive
    operations.  The three fields that only ever hold small integers
    ([id], [framesMissing], [framesDetected]) are modelled in [Z]; binary64
    represents every integer of magnitude below 2^53 exactly, so the two
    agree on every value the game can produce.  [Math.pow(v, 2)] is modelled
    as the correctly rounded product [v * v].

    The clock.  A new track receives [id: Date.now() + idx]: the clock is
    read once for every track that a tick creates, and not at all in a tick
    that creates none.  The readings are an input that the transform takes
    from its environment; they are the explicit first argument [now] of
    [processTracking], where [now n] is what the call of [Date.now()] returns
    that [n] calls of the same tick went before.

    The boundary.  Lines 343-354 leave the store untouched while the video or
    the tracker is not ready, and otherwise turn the landmarks that the hand
    model reports for the current video frame into the array [detections]
    (empty when the model has no new frame).  That array is the third
    argument of [processTracking]; the model starts where the array is
    complete, at line 357. *)

From Stdlib Require Import ZArith Floats Lia.
From stdpp Require Import base option list sorting sets gmap strings.

Set Warnings "-inexact-float".

(** ** JavaScript's [Math] helpers on binary64 *)

Module Math.
Local Open Scope float_scope.

Definition sqrt (v : float) : float := PrimFloat.sqrt v.

(** [Math.pow(v, 2)]. *)
Definition pow2 (v : float) : float := v * v.

(** [Math.min(a, b)]: NaN when an argument is NaN, and [-0] below [+0]. *)
Definition min (a b : float) : float :=
  if is_nan a || is_nan b then nan
  else if a <? b then a
  else if b <? a then b
  else if get_sign a then a else b.

(** [Math.max(a, b)]: NaN when an argument is NaN, and [+0] above [-0]. *)
Definition max (a b : float) : float :=
  if is_nan a || is_nan b then nan
  else if a <? b then b
  else if b <? a then a
  else if get_sign a then b else a.
End Math.

(** ** Data model (src/types.ts [HandData], src/App.tsx [TrackedHand]) *)

Inductive Side := Left | Right.

#[global] Instance Side_eq_dec : EqDecision Side.
Proof. solve_decision. Defined.

(** One element of [detections]: [{ x, y, side }]. *)
Module Det.
Record t := mk { x : float; y : float; side : Side }.
End Det.

(** [interface TrackedHand extends HandData]. *)
Module Hand.
Record t := mk {
  id : Z;
  x : float;
  y : float;
  vx : float;
  vy : float;
  side : Side;
  alpha : float;
  framesMissing : Z;
  framesDetected : Z
}.
End Hand.

(** ** Constants (src/App.tsx, lines 13-20) *)

Definition PERSISTENCE_FRAMES : Z := 20.
Definition MAX_MATCH_DIST : float := 350%float.
Definition GRACE_PERIOD : Z := 5.
Definition MIN_SMOOTHING : float := 0.15%float.
Definition MAX_SMOOTHING : float := 0.8%float.

(** ** [Array.prototype.forEach((element, index) => ...)] as a left fold

    The callback receives the running state, the element and its index. *)

Fixpoint forEach_from {A St : Type} (f : St → A → nat → St)
    (i : nat) (l : list A) (s : St) : St :=
  match l with
  | [] => s
  | a :: l' => forEach_from f (S i) l' (f s a i)
  end.

Definition forEach {A St : Type} (f : St → A → nat → St)
    (l : list A) (s : St) : St :=
  forEach_from f 0 l s.

(** ** The associator: lines 361-382 *)

Section Associator.
Local Open Scope float_scope.

(** Lines 363-364: the predicted position. *)
Definition predX (hand : Hand.t) : float := Hand.x hand + Hand.vx hand * 0.8.
Definition predY (hand : Hand.t) : float := Hand.y hand + Hand.vy hand * 0.8.

(** Lines 372-376: the distance of a detection from the prediction, scaled
    by [sideBonus]. *)
Definition weightedDist (hand : Hand.t) (det : Det.t) : float :=
  let d := Math.sqrt (Math.pow2 (Det.x det - predX hand)
                      + Math.pow2 (Det.y det - predY hand)) in
  let sideBonus := if decide (Hand.side hand = Det.side det) then 0.6 else 1.0 in
  d * sideBonus.

(** The running pair [(bestIdx, bestDist)] of the inner loop; [None] stands
    for the sentinel [bestIdx = -1]. *)
Definition Best : Type := option nat * float.

(** Lines 370-382: the body of the inner [detections.forEach]. *)
Definition scanDetection (usedDetections : gset nat) (hand : Hand.t)
    (best : Best) (det : Det.t) (idx : nat) : Best :=
  if decide (idx ∈ usedDetections) then best
  else
    let weighted := weightedDist hand det in
    if weighted <? snd best then (Some idx, weighted) else best.

(** Lines 366-382: [bestIdx] and [bestDist] after the inner loop. *)
Definition findBest (detections : list Det.t) (usedDetections : gset nat)
    (hand : Hand.t) : Best :=
  forEach (scanDetection usedDetections hand) detections (None, MAX_MATCH_DIST).

Definition bestIdx (detections : list Det.t) (usedDetections : gset nat)
    (hand : Hand.t) : option nat :=
  fst (findBest detections usedDetections hand).
End Associator.

(** ** The smoother: lines 389-411 *)

Section Smoother.
Local Open Scope float_scope.

(** Line 391. *)
Definition moveDist (hand : Hand.t) (det : Det.t) : float :=
  Math.sqrt (Math.pow2 (Det.x det - Hand.x hand)
             + Math.pow2 (Det.y det - Hand.y hand)).

(** Line 396. *)
Definition adaptiveAlpha (hand : Hand.t) (det : Det.t) : float :=
  MIN_SMOOTHING
  + (Math.min (moveDist hand det) 150 / 150) * (MAX_SMOOTHING - MIN_SMOOTHING).

(** Lines 398-411: the object pushed for a matched hand.  The spread
    [...hand] keeps [id]; every other field is written. *)
Definition smoothed (hand : Hand.t) (det : Det.t) : Hand.t :=
  let smoothX := Hand.x hand + (Det.x det - Hand.x hand) * adaptiveAlpha hand det in
  let smoothY := Hand.y hand + (Det.y det - Hand.y hand) * adaptiveAlpha hand det in
  {| Hand.id := Hand.id hand;
     Hand.x := smoothX;
     Hand.y := smoothY;
     Hand.vx := smoothX - Hand.x hand;
     Hand.vy := smoothY - Hand.y hand;
     Hand.framesMissing := 0;
     Hand.alpha := 1.0;
     Hand.framesDetected := Hand.framesDetected hand + 1;
     Hand.side := Det.side det |}.
End Smoother.

(** ** The missing branch: lines 412-436 *)

Section Coasting.
Local Open Scope float_scope.

(** Lines 421-424. *)
Definition fade (nextFramesMissing : Z) (alpha : float) : float :=
  if (GRACE_PERIOD <? nextFramesMissing)%Z then Math.max 0 (alpha - 0.1)
  else alpha.

(** Lines 414-435: the object pushed for an unmatched hand that persists.
    The spread [...hand] keeps [id] and [side]. *)
Definition coasted (hand : Hand.t) : Hand.t :=
  let damping := 0.9 in
  let nextVx := Hand.vx hand * damping in
  let nextVy := Hand.vy hand * damping in
  let nextFramesMissing := (Hand.framesMissing hand + 1)%Z in
  {| Hand.id := Hand.id hand;
     Hand.side := Hand.side hand;
     Hand.x := Hand.x hand + nextVx;
     Hand.y := Hand.y hand + nextVy;
     Hand.vx := nextVx;
     Hand.vy := nextVy;
     Hand.framesMissing := nextFramesMissing;
     Hand.framesDetected := Hand.framesDetected hand;
     Hand.alpha := fade nextFramesMissing (Hand.alpha hand) |}.
End Coasting.

(** ** Track creation: lines 442-452

    [stamp] is what [Date.now()] returns in line 443. *)

Definition created (stamp : Z) (det : Det.t) (idx : nat) : Hand.t :=
  {| Hand.id := stamp + Z.of_nat idx;
     Hand.x := Det.x det;
     Hand.y := Det.y det;
     Hand.vx := 0%float;
     Hand.vy := 0%float;
     Hand.side := Det.side det;
     Hand.alpha := 1.0%float;
     Hand.framesMissing := 0;
     Hand.framesDetected := 1 |}.

(** ** The tick: lines 357-456 *)

(** The two locals that both loops mutate. *)
Record Tracking := mkTracking {
  nextHands : list Hand.t;
  usedDetections : gset nat
}.

Definition push (hand : Hand.t) (st : Tracking) : Tracking :=
  {| nextHands := nextHands st ++ [hand]; usedDetections := usedDetections st |}.

Definition use (idx : nat) (st : Tracking) : Tracking :=
  {| nextHands := nextHands st; usedDetections := {[idx]} ∪ usedDetections st |}.

(** Lines 361-437: the body of [trackedHandsRef.current.forEach].  A hand
    that is neither matched nor young enough to persist pushes nothing.
    [detections[bestIdx]] of an index outside the array would be [undefined]
    and the read of [det.x] would throw; [bestIdx_lookup] below shows that
    the index is always inside, so that branch is never taken. *)
Definition updateHand (detections : list Det.t) (st : Tracking)
    (hand : Hand.t) : Tracking :=
  match bestIdx detections (usedDetections st) hand with
  | Some idx =>
      match detections !! idx with
      | Some det => push (smoothed hand det) (use idx st)
      | None => st
      end
  | None =>
      if (Hand.framesMissing hand <? PERSISTENCE_FRAMES)%Z
      then push (coasted hand) st
      else st
  end.

(** Lines 440-454: the body of the second [detections.forEach].  Beside the
    two locals the loop carries the number of times it has called
    [Date.now()]: a detection that is used reads no clock, a new hand reads
    it once. *)
Definition addHand (now : nat → Z) (st : Tracking * nat) (det : Det.t)
    (idx : nat) : Tracking * nat :=
  if decide (idx ∈ usedDetections st.1) then st
  else (push (created (now st.2) det idx) st.1, S st.2).

(** Lines 357-437: the state after the first loop. *)
Definition updateHands (detections : list Det.t) (hands : list Hand.t) : Tracking :=
  foldl (updateHand detections) (mkTracking [] ∅) hands.

(** Lines 357-456: the next value of [trackedHandsRef.current], from the
    clock readings [now], the current value [hands] and this frame's
    [detections]. *)
Definition processTracking (now : nat → Z) (hands : list Hand.t)
    (detections : list Det.t) : list Hand.t :=
  nextHands (forEach (addHand now) detections
                     (updateHands detections hands, 0)).1.

(** How often the tick calls [Date.now()]. *)
Definition clockReads (now : nat → Z) (hands : list Hand.t)
    (detections : list Det.t) : nat :=
  (forEach (addHand now) detections (updateHands detections hands, 0)).2.


(** ** Frames and runs

    One frame of the animation loop supplies the readings of the clock that
    its tick takes and the detections of the video frame; the store starts
    empty (line 45). *)

Record Frame := mkFrame { clock : nat → Z; seen : list Det.t }.

(** A clock that reads [t] whenever a tick asks, and a clock that reads [t]
    first and is one millisecond later at every further reading. *)
Definition reading (t : Z) : nat → Z := λ _, t.

Definition ticking (t : Z) : nat → Z := λ n, (t + Z.of_nat n)%Z.

Definition tick (hands : list Hand.t) (f : Frame) : list Hand.t :=
  processTracking (clock f) hands (seen f).

Definition run (hands : list Hand.t) (frames : list Frame) : list Hand.t :=
  foldl tick hands frames.

(** The assumption on the clock under which identifiers stay apart.  A tick
    with [n] detections takes at most [n] readings.  Within a tick the clock
    does not go back, and no reading is below [lo]; and from a tick in which
    something is detected to the ticks after it the clock advances by at
    least the number of its detections, counted from the last reading it can
    take. *)
Definition steady (lo : Z) (now : nat → Z) (n : nat) : Prop :=
  (∀ j, j < n → (lo ≤ now j)%Z)
  ∧ (∀ i j, i ≤ j → j < n → (now i ≤ now j)%Z).

Definition latest (lo : Z) (f : Frame) : Z :=
  match length (seen f) with
  | 0 => lo
  | S m => (clock f m + Z.of_nat (S m))%Z
  end.

Fixpoint clockAdvances (lo : Z) (frames : list Frame) : Prop :=
  match frames with
  | [] => True
  | f :: rest =>
      steady lo (clock f) (length (seen f))
      ∧ clockAdvances (latest lo f) rest
  end.

Definition ids (hands : list Hand.t) : list Z := Hand.id <$> hands.

(** ** Observing one tick

    What the first loop decides for a hand, given the detections already
    claimed when its turn comes. *)

Inductive Fate :=
  | Matched (idx : nat)
  | Missing
  | Evicted.

Definition fate (detections : list Det.t) (used : gset nat) (hand : Hand.t) : Fate :=
  match bestIdx detections used hand with
  | Some idx => Matched idx
  | None =>
      if (Hand.framesMissing hand <? PERSISTENCE_FRAMES)%Z then Missing else Evicted
  end.

Definition claim (f : Fate) (used : gset nat) : gset nat :=
  match f with
  | Matched idx => {[idx]} ∪ used
  | _ => used
  end.

Definition kept (f : Fate) : bool :=
  match f with
  | Evicted => false
  | _ => true
  end.

(** The object a hand turns into, if any. *)
Definition outcome (detections : list Det.t) (hand : Hand.t) (f : Fate)
    : option Hand.t :=
  match f with
  | Matched idx => smoothed hand <$> detections !! idx
  | Missing => Some (coasted hand)
  | Evicted => None
  end.

(** The fates of the hands of the store, in store order. *)
Fixpoint fates (detections : list Det.t) (used : gset nat)
    (hands : list Hand.t) : list Fate :=
  match hands with
  | [] => []
  | hand :: rest =>
      let f := fate detections used hand in
      f :: fates detections (claim f used) rest
  end.

(** [usedDetections] at the moment the first loop reaches position [k]. *)
Definition usedBefore (detections : list Det.t) (hands : list Hand.t)
    (k : nat) : gset nat :=
  usedDetections (updateHands detections (take k hands)).

(** The (position in the store, index of the detection) pairs of a tick. *)
Fixpoint pairsFrom (k : nat) (fs : list Fate) : list (nat * nat) :=
  match fs with
  | [] => []
  | Matched idx :: rest => (k, idx) :: pairsFrom (S k) rest
  | _ :: rest => pairsFrom (S k) rest
  end.

Definition matches (detections : list Det.t) (hands : list Hand.t)
    : list (nat * nat) :=
  pairsFrom 0 (fates detections ∅ hands).

(** The positions of the hands that stay in the store. *)
Fixpoint keptFrom (k : nat) (fs : list Fate) : list nat :=
  match fs with
  | [] => []
  | f :: rest => (if kept f then [k] else []) ++ keptFrom (S k) rest
  end.

Definition keptPositions (detections : list Det.t) (hands : list Hand.t)
    : list nat :=
  keptFrom 0 (fates detections ∅ hands).

(** The indices of the detections that no hand claimed. *)
Definition freeIndices (detections : list Det.t) (hands : list Hand.t)
    : list nat :=
  filter (λ idx, idx ∉ usedDetections (updateHands detections hands))
         (seq 0 (length detections)).

(** The hands the first loop pushes, in the order it pushes them, and the
    detections it has claimed when it ends. *)
Definition survivors (detections : list Det.t) (used : gset nat)
    (hands : list Hand.t) : list Hand.t :=
  omap (λ hf, outcome detections hf.1 hf.2)
       (zip hands (fates detections used hands)).

Definition claimedBy (fs : list Fate) (used : gset nat) : gset nat :=
  foldl (λ u f, claim f u) used fs.

(** The hands the second loop pushes for the detections from index [i] on,
    when it has read the clock [n] times before. *)
Fixpoint newcomersFrom (now : nat → Z) (used : gset nat) (i n : nat)
    (detections : list Det.t) : list Hand.t :=
  match detections with
  | [] => []
  | det :: rest =>
      if decide (i ∈ used) then newcomersFrom now used (S i) n rest
      else created (now n) det i :: newcomersFrom now used (S i) (S n) rest
  end.

(** The hand that position [k] of the store turns into. *)
Definition descendsFrom (detections : list Det.t) (hands : list Hand.t)
    (k : nat) (hand' : Hand.t) : Prop :=
  ∃ hand f, hands !! k = Some hand
            ∧ fates detections ∅ hands !! k = Some f
            ∧ outcome detections hand f = Some hand'.

(** What the inner loop knows after it has looked at the first [i]
    detections: no free detection seen so far is below [bestDist], and
    [bestIdx] is either the sentinel, with [bestDist] still at the gate, or a
    free detection below the gate whose weighted distance is [bestDist]. *)
Definition scanned (detections : list Det.t) (used : gset nat) (hand : Hand.t)
    (i : nat) (best : Best) : Prop :=
  (∀ j dj, (j < i)%nat → detections !! j = Some dj → j ∉ used →
     (weightedDist hand dj <? snd best)%float = false)
  ∧ match fst best with
    | None => snd best = MAX_MATCH_DIST
    | Some idx =>
        (idx ∉ used)
        ∧ ∃ det, detections !! idx = Some det
                 ∧ snd best = weightedDist hand det
                 ∧ (weightedDist hand det <? MAX_MATCH_DIST)%float = true
    end.

(** ** What a position of the next store holds *)

(** Position [p] of the next store holds a hand that was matched this tick. *)
Definition matchedAt (detections : list Det.t) (hands : list Hand.t)
    (p : nat) : Prop :=
  ∃ k idx, keptPositions detections hands !! p = Some k
           ∧ (k, idx) ∈ matches detections hands.

(** Position [p] of the next store is past the hands that stay: it holds a
    hand created this tick. *)
Definition createdAt (detections : list Det.t) (hands : list Hand.t)
    (p : nat) : Prop :=
  length (keptPositions detections hands) ≤ p.

(** ** The tick as its caller sees it

    The caller supplies the store and the detections; the clock is read by
    the transform, once for every hand it creates. *)
Definition ticksTo (hands : list Hand.t) (detections : list Det.t)
    (next : list Hand.t) : Prop :=
  ∃ now : nat → Z, next = processTracking now hands detections.

Definition shiftId (delta : Z) (hand : Hand.t) : Hand.t :=
  {| Hand.id := Hand.id hand + delta;
     Hand.x := Hand.x hand;
     Hand.y := Hand.y hand;
     Hand.vx := Hand.vx hand;
     Hand.vy := Hand.vy hand;
     Hand.side := Hand.side hand;
     Hand.alpha := Hand.alpha hand;
     Hand.framesMissing := Hand.framesMissing hand;
     Hand.framesDetected := Hand.framesDetected hand |}.

(** ** History kept beside the store

    For every hand of the store, in store order: the number of the tick that
    created it, and the number of ticks in a row, up to now, in which it went
    unmatched.  Both are read off the fates alone, not off the fields of the
    hands. *)

Record Note := mkNote { born : nat; misses : nat }.

Definition noteOf (notes : list Note) (fs : list Fate) (k : nat) : option Note :=
  match fs !! k, notes !! k with
  | Some (Matched _), Some a => Some {| born := born a; misses := 0 |}
  | Some Missing, Some a => Some {| born := born a; misses := S (misses a) |}
  | _, _ => None
  end.

Definition notesNext (n : nat) (detections : list Det.t) (hands : list Hand.t)
    (notes : list Note) : list Note :=
  omap (noteOf notes (fates detections ∅ hands)) (keptPositions detections hands)
  ++ replicate (length (freeIndices detections hands))
               {| born := n; misses := 0 |}.

(** The store and its notes after the frames, the first of which is tick
    number [n]. *)
Fixpoint chronicle (n : nat) (hands : list Hand.t) (notes : list Note)
    (frames : list Frame) : list Hand.t * list Note :=
  match frames with
  | [] => (hands, notes)
  | f :: rest =>
      chronicle (S n) (tick hands f) (notesNext n (seen f) hands notes) rest
  end.

(** The notes of the store that grew from the empty one over [frames]. *)
Definition history (frames : list Frame) : list Note :=
  snd (chronicle 0 [] [] frames).

(** The notes agree with the store before tick number [n]: [framesMissing]
    is the run of misses, which is at most [PERSISTENCE_FRAMES]; every hand
    was created before tick [n]; and creation ticks never decrease along the
    store. *)
Definition recorded (n : nat) (hands : list Hand.t) (notes : list Note) : Prop :=
  Forall2 (λ hand a, Hand.framesMissing hand = Z.of_nat (misses a)
                     ∧ misses a ≤ 20 ∧ born a < n) hands notes
  ∧ StronglySorted le (born <$> notes).

(** The least clock reading the next frame may take after [frames]. *)
Definition clockAfter (lo : Z) (frames : list Frame) : Z :=
  foldl latest lo frames.

(** What holds of every hand of a store that grew from the empty one. *)
Definition healthy (hand : Hand.t) : Prop :=
  (0 ≤ Hand.framesMissing hand ≤ PERSISTENCE_FRAMES)%Z
  ∧ (1 ≤ Hand.framesDetected hand)%Z.

(** ** The visibility levels a fading hand goes through *)

Definition fadeOnce (alpha : float) : float :=
  Math.max 0%float (alpha - 0.1)%float.

Definition alphaLevels : list float :=
  (λ n, Nat.iter n fadeOnce 1.0%float) <$> seq 0 12.

Definition inUnitInterval (v : float) : Prop :=
  (0 <=? v)%float = true ∧ (v <=? 1)%float = true.

(** ** Sample data for the concrete instances *)

Definition sampleDet : Det.t := Det.mk 100 100 Left.
Definition farDet : Det.t := Det.mk 900 600 Right.
Definition sampleHand : Hand.t := created 1000 sampleDet 0.

(** [n] frames without detections, 16 ms apart, the first at [from]. *)
Definition quietFrames (from : Z) (n : nat) : list Frame :=
  (λ i, mkFrame (reading (from + 16 * Z.of_nat i)) []) <$> seq 0 n.

(** A hand is created at 1000 ms and then missed in twenty frames. *)
Definition fadingFrames : list Frame :=
  mkFrame (reading 1000) [sampleDet] :: quietFrames 1016 20.

(** Two hands are created in one tick whose clock turns from 1000 ms to
    1001 ms between them; 16 ms later a third detection, far from both, is
    seen alone. *)
Definition busyFrames (t : Z) : list Frame :=
  [mkFrame (ticking 1000) [sampleDet; farDet];
   mkFrame (reading t) [Det.mk 100 700 Left]].

(** ** The reference definitions, as the specification words them *)

Module Reference.
Local Open Scope float_scope.

(** Euclidean distance from [(x1, y1)] to [(x2, y2)]. *)
Definition distance (x1 y1 x2 y2 : float) : float :=
  Math.sqrt (Math.pow2 (x1 - x2) + Math.pow2 (y1 - y2)).

(** Linear interpolation from [a] toward [b] by [t]. *)
Definition lerp (a b t : float) : float := a + (b - a) * t.

Definition adaptiveAlpha (moveDist : float) : float :=
  0.15 + (Math.min moveDist 150 / 150) * (0.8 - 0.15).

(** The matched update of the smoother and of the lifecycle manager. *)
Definition matchedUpdate (hand : Hand.t) (det : Det.t) : Hand.t :=
  let moveDist := distance (Det.x det) (Det.y det) (Hand.x hand) (Hand.y hand) in
  let newX := lerp (Hand.x hand) (Det.x det) (adaptiveAlpha moveDist) in
  let newY := lerp (Hand.y hand) (Det.y det) (adaptiveAlpha moveDist) in
  Hand.mk (Hand.id hand) newX newY
          (newX - Hand.x hand) (newY - Hand.y hand)
          (Det.side det) 1.0 0 (Hand.framesDetected hand + 1).

(** The missing-branch update. *)
Definition missingUpdate (hand : Hand.t) : Hand.t :=
  let vx := Hand.vx hand * 0.9 in
  let vy := Hand.vy hand * 0.9 in
  let framesMissing := (Hand.framesMissing hand + 1)%Z in
  Hand.mk (Hand.id hand) (Hand.x hand + vx) (Hand.y hand + vy) vx vy
          (Hand.side hand)
          (if decide (GRACE_PERIOD < framesMissing)%Z
           then Math.max 0 (Hand.alpha hand - 0.1)
           else Hand.alpha hand)
          framesMissing (Hand.framesDetected hand).

(** The weighted distance of the associator. *)
Definition weighted (hand : Hand.t) (det : Det.t) : float :=
  distance (Det.x det) (Det.y det)
           (Hand.x hand + Hand.vx hand * 0.8) (Hand.y hand + Hand.vy hand * 0.8)
  * (if decide (Det.side det = Hand.side hand) then 0.6 else 1.0).
End Reference.


(** * The rest of the program

    What follows embeds the code around the tracking core: the boundary to
    the hand model (src/services/handTrackingService.ts and src/App.tsx,
    lines 342-354), the game itself (src/App.tsx, lines 87-237) and the part
    of the audio service (class [AudioService]) that the game drives. *)

(** ** More of [Math] *)

Definition CANVAS_WIDTH : float := 1280%float.
Definition CANVAS_HEIGHT : float := 720%float.
Definition OBJECT_RADIUS : float := 40%float.
Definition STABILITY_THRESHOLD : Z := 3.
Definition Math_PI : float := 3.141592653589793%float.

(** The binary64 value of an integer; exact below 2^53. *)
Definition Z2F (z : Z) : float := SF2Prim (binary_normalize prec emax z 0 false).

(** The integer part, rounded down, of [±m * 2^e]. *)
Definition floorZ (s : bool) (m : positive) (e : Z) : Z :=
  let v := if s then Z.neg m else Z.pos m in
  if (0 <=? e)%Z then (v * 2 ^ e)%Z else (v / 2 ^ (- e))%Z.

(** [Math.floor(v)]: NaN, the infinities and the zeros are returned as they
    are. *)
Definition Math_floor (v : float) : float :=
  match Prim2SF v with
  | S754_finite s m e => Z2F (floorZ s m e)
  | _ => v
  end.

(** ** The perception boundary *)

(** A [NormalizedLandmark], of which the code reads [x] and [y]. *)
Module Landmark.
Record t := mk { x : float; y : float }.
End Landmark.

(** A [HandLandmarkerResult], as far as the code reads it: the landmark sets
    of the hands, and for each hand its handedness categories, each given by
    its [categoryName]. *)
Module Result.
Record t := mk {
  landmarks : list (list Landmark.t);
  handedness : list (list string)
}.
End Result.

(** The [HTMLVideoElement], as far as [detect] reads it. *)
Module Video.
Record t := mk { currentTime : float; readyState : Z }.
End Video.

(** [class HandTrackingService]: whether [handLandmarker] is set, and
    [lastVideoTime]. *)
Module Service.
Record t := mk { handLandmarker : bool; lastVideoTime : float }.
End Service.

(** The service as constructed (lines 4-5 of handTrackingService.ts). *)
Definition newService : Service.t := Service.mk false (-1)%float.

(** [initialize()]: the landmarker is set when the model loads, and the
    result says whether it did. *)
Definition initialize (loaded : bool) (svc : Service.t) : bool * Service.t :=
  if loaded then (true, Service.mk true (Service.lastVideoTime svc))
  else (false, svc).

(** [detect(video)], lines 31-38; [inference] is what
    [handLandmarker.detectForVideo] returns for the frame the video shows.
    [None] is [null]. *)
Definition detect (svc : Service.t) (video : Video.t) (inference : Result.t)
    : option Result.t * Service.t :=
  if negb (Service.handLandmarker svc) then (None, svc)
  else if negb (Video.currentTime video =? Service.lastVideoTime svc)%float
          && (2 <=? Video.readyState video)%Z
  then (Some inference,
        Service.mk (Service.handLandmarker svc) (Video.currentTime video))
  else (None, svc).

(** Calls of [detect] one after the other, each on what the video shows at
    the time and with what the model would return for it: the results, and
    the service after the last call. *)
Fixpoint detectAll (svc : Service.t) (calls : list (Video.t * Result.t))
    : list (option Result.t) * Service.t :=
  match calls with
  | [] => ([], svc)
  | call :: rest =>
      let '(res, svc) := detect svc call.1 call.2 in
      let '(results, svc) := detectAll svc rest in
      (res :: results, svc)
  end.

(** Lines 348-352 of App.tsx: the detection made of one landmark set.  [None]
    is the [TypeError] of reading [x] of a missing tenth landmark, or
    [categoryName] of a missing first category ([?.] covers only a missing
    entry of [handedness]). *)
Definition toDetection (res : Result.t) (landmarkSet : list Landmark.t)
    (i : nat) : option Det.t :=
  match landmarkSet !! 9 with
  | None => None
  | Some landmark =>
      let x := ((1 - Landmark.x landmark) * CANVAS_WIDTH)%float in
      let y := (Landmark.y landmark * CANVAS_HEIGHT)%float in
      match Result.handedness res !! i with
      | None => Some (Det.mk x y Left)
      | Some [] => None
      | Some (categoryName :: _) =>
          Some (Det.mk x y (if decide (categoryName = "Left"%string)
                            then Right else Left))
      end
  end.

(** Lines 345-354: the array [detections]; [None] when a callback throws. *)
Definition toDetections (res : option Result.t) : option (list Det.t) :=
  match res with
  | None => Some []
  | Some r =>
      forEach (λ acc landmarkSet i,
                 match acc with
                 | None => None
                 | Some detections =>
                     match toDetection r landmarkSet i with
                     | None => None
                     | Some det => Some (detections ++ [det])
                     end
                 end)
              (Result.landmarks r) (Some [])
  end.

(** Lines 342-457, the whole callback: the service after the call, and the
    next store, or [None] when the callback throws (the store is then left
    as it was).  [videoMounted] is [videoRef.current] being set. *)
Definition processTrackingFrame (videoMounted trackerReady : bool)
    (svc : Service.t) (video : Video.t) (inference : Result.t) (now : nat → Z)
    (hands : list Hand.t) : Service.t * option (list Hand.t) :=
  if negb videoMounted || negb trackerReady then (svc, Some hands)
  else
    let '(res, svc') := detect svc video inference in
    (svc', processTracking now hands <$> toDetections res).

(** ** The game: data (src/types.ts and the refs and state of [App]) *)

Inductive GameObjectType := BIRD | BOMB.

(** [interface GameObject].  An [id] is [Math.random().toString(36)]; it is
    kept as the number drawn. *)
Module Obj.
Record t := mk {
  id : float;
  type : GameObjectType;
  x : float;
  y : float;
  radius : float;
  speedY : float;
  speedX : float;
  color : string;
  caught : bool;
  emoji : option string;
  flapPhase : float
}.
End Obj.

(** [interface Particle]. *)
Module Particle.
Record t := mk {
  id : float;
  x : float;
  y : float;
  vx : float;
  vy : float;
  life : float;
  color : string;
  size : float
}.
End Particle.

(** [interface FloatingText]. *)
Module FloatingText.
Record t := mk {
  id : float;
  x : float;
  y : float;
  text : string;
  life : float;
  color : string
}.
End FloatingText.

(** [interface Cloud]. *)
Module Cloud.
Record t := mk {
  x : float;
  y : float;
  speed : float;
  scale : float;
  opacity : float
}.
End Cloud.

(** [GameState & { isPaused: boolean }], the React state the page shows. *)
Module GameState.
Record t := mk {
  score : Z;
  isPlaying : bool;
  gameOver : bool;
  lives : Z;
  highScore : Z;
  isPaused : bool
}.
End GameState.

(** What a frame asks of the loudspeaker and of the page. *)
Inductive Effect := BirdSound | BombSound | Shake.

(** The state of the component and of what it drives: the refs (lines 36-49),
    the React state the game logic reads or writes (lines 53-58), the flag
    [isMusicPlaying] of the audio service (written by [startMusic] and
    [stopMusic] only), the entry [SKY_CATCH_HIGHSCORE] of [localStorage] (the
    integer whose decimal form is stored), the number of values
    [Math.random()] has returned, and the effects asked for so far.  The
    scores, the lives and the frame count only ever hold integers and are in
    [Z].  An update of the React state ([setGameState], [setHighScore],
    [setInitialLives]) is applied when it is asked for. *)
Module App.
Record t := mk {
  frameCount : Z;
  objects : list Obj.t;
  particles : list Particle.t;
  floatingTexts : list FloatingText.t;
  clouds : list Cloud.t;
  score : Z;
  lives : Z;
  isGameOver : bool;
  isPlaying : bool;
  isPaused : bool;
  highScore : Z;
  initialLives : Z;
  gameState : GameState.t;
  isMusicPlaying : bool;
  savedHighScore : option Z;
  draws : nat;
  effects : list Effect
}.


Definition set_frameCount (v : Z) (g : t) : t :=
  mk v (objects g) (particles g) (floatingTexts g) (clouds g) (score g)
     (lives g) (isGameOver g) (isPlaying g) (isPaused g) (highScore g)
     (initialLives g) (gameState g) (isMusicPlaying g) (savedHighScore g)
     (draws g) (effects g).

Definition set_objects (v : list Obj.t) (g : t) : t :=
  mk (frameCount g) v (particles g) (floatingTexts g) (clouds g) (score g)
     (lives g) (isGameOver g) (isPlaying g) (isPaused g) (highScore g)
     (initialLives g) (gameState g) (isMusicPlaying g) (savedHighScore g)
     (draws g) (effects g).

Definition set_particles (v : list Particle.t) (g : t) : t :=
  mk (frameCount g) (objects g) v (floatingTexts g) (clouds g) (score g)
     (lives g) (isGameOver g) (isPlaying g) (isPaused g) (highScore g)
     (initialLives g) (gameState g) (isMusicPlaying g) (savedHighScore g)
     (draws g) (effects g).

Definition set_floatingTexts (v : list FloatingText.t) (g : t) : t :=
  mk (frameCount g) (objects g) (particles g) v (clouds g) (score g)
     (lives g) (isGameOver g) (isPlaying g) (isPaused g) (highScore g)
     (initialLives g) (gameState g) (isMusicPlaying g) (savedHighScore g)
     (draws g) (effects g).

Definition set_clouds (v : list Cloud.t) (g : t) : t :=
  mk (frameCount g) (objects g) (particles g) (floatingTexts g) v (score g)
     (lives g) (isGameOver g) (isPlaying g) (isPaused g) (highScore g)
     (initialLives g) (gameState g) (isMusicPlaying g) (savedHighScore g)
     (draws g) (effects g).

Definition set_score (v : Z) (g : t) : t :=
  mk (frameCount g) (objects g) (particles g) (floatingTexts g) (clouds g) v
     (lives g) (isGameOver g) (isPlaying g) (isPaused g) (highScore g)
     (initialLives g) (gameState g) (isMusicPlaying g) (savedHighScore g)
     (draws g) (effects g).

Definition set_lives (v : Z) (g : t) : t :=
  mk (frameCount g) (objects g) (particles g) (floatingTexts g) (clouds g)
     (score g) v (isGameOver g) (isPlaying g) (isPaused g) (highScore g)
     (initialLives g) (gameState g) (isMusicPlaying g) (savedHighScore g)
     (draws g) (effects g).

Definition set_isGameOver (v : bool) (g : t) : t :=
  mk (frameCount g) (objects g) (particles g) (floatingTexts g) (clouds g)
     (score g) (lives g) v (isPlaying g) (isPaused g) (highScore g)
     (initialLives g) (gameState g) (isMusicPlaying g) (savedHighScore g)
     (draws g) (effects g).

Definition set_isPlaying (v : bool) (g : t) : t :=
  mk (frameCount g) (objects g) (particles g) (floatingTexts g) (clouds g)
     (score g) (lives g) (isGameOver g) v (isPaused g) (highScore g)
     (initialLives g) (gameState g) (isMusicPlaying g) (savedHighScore g)
     (draws g) (effects g).

Definition set_isPaused (v : bool) (g : t) : t :=
  mk (frameCount g) (objects g) (particles g) (floatingTexts g) (clouds g)
     (score g) (lives g) (isGameOver g) (isPlaying g) v (highScore g)
     (initialLives g) (gameState g) (isMusicPlaying g) (savedHighScore g)
     (draws g) (effects g).

Definition set_highScore (v : Z) (g : t) : t :=
  mk (frameCount g) (objects g) (particles g) (floatingTexts g) (clouds g)
     (score g) (lives g) (isGameOver g) (isPlaying g) (isPaused g) v
     (initialLives g) (gameState g) (isMusicPlaying g) (savedHighScore g)
     (draws g) (effects g).

Definition set_initialLives (v : Z) (g : t) : t :=
  mk (frameCount g) (objects g) (particles g) (floatingTexts g) (clouds g)
     (score g) (lives g) (isGameOver g) (isPlaying g) (isPaused g)
     (highScore g) v (gameState g) (isMusicPlaying g) (savedHighScore g)
     (draws g) (effects g).

Definition set_gameState (v : GameState.t) (g : t) : t :=
  mk (frameCount g) (objects g) (particles g) (floatingTexts g) (clouds g)
     (score g) (lives g) (isGameOver g) (isPlaying g) (isPaused g)
     (highScore g) (initialLives g) v (isMusicPlaying g) (savedHighScore g)
     (draws g) (effects g).

Definition set_isMusicPlaying (v : bool) (g : t) : t :=
  mk (frameCount g) (objects g) (particles g) (floatingTexts g) (clouds g)
     (score g) (lives g) (isGameOver g) (isPlaying g) (isPaused g)
     (highScore g) (initialLives g) (gameState g) v (savedHighScore g)
     (draws g) (effects g).

Definition set_savedHighScore (v : option Z) (g : t) : t :=
  mk (frameCount g) (objects g) (particles g) (floatingTexts g) (clouds g)
     (score g) (lives g) (isGameOver g) (isPlaying g) (isPaused g)
     (highScore g) (initialLives g) (gameState g) (isMusicPlaying g) v
     (draws g) (effects g).

Definition set_draws (v : nat) (g : t) : t :=
  mk (frameCount g) (objects g) (particles g) (floatingTexts g) (clouds g)
     (score g) (lives g) (isGameOver g) (isPlaying g) (isPaused g)
     (highScore g) (initialLives g) (gameState g) (isMusicPlaying g)
     (savedHighScore g) v (effects g).

Definition set_effects (v : list Effect) (g : t) : t :=
  mk (frameCount g) (objects g) (particles g) (floatingTexts g) (clouds g)
     (score g) (lives g) (isGameOver g) (isPlaying g) (isPaused g)
     (highScore g) (initialLives g) (gameState g) (isMusicPlaying g)
     (savedHighScore g) (draws g) v.
End App.

(** The component before it is mounted (lines 36-60); [saved] is what
    [localStorage] holds. *)
Definition newApp (saved : option Z) : App.t :=
  {| App.frameCount := 0;
     App.objects := [];
     App.particles := [];
     App.floatingTexts := [];
     App.clouds := [];
     App.score := 0;
     App.lives := 5;
     App.isGameOver := false;
     App.isPlaying := false;
     App.isPaused := false;
     App.highScore := 0;
     App.initialLives := 5;
     App.gameState := GameState.mk 0 false false 5 0 false;
     App.isMusicPlaying := false;
     App.savedHighScore := saved;
     App.draws := 0;
     App.effects := [] |}.

Definition BIRD_EMOJIS : list string := ["🦅"; "🕊️"; "🐦"; "🦉"; "🦜"]%string.

(** ** The audio service, as far as the game state goes

    [startMusic] and [stopMusic] are the only writers of [isMusicPlaying]; the
    scheduling of notes that the flag gates is left out. *)

Definition startMusic (g : App.t) : App.t :=
  if App.isMusicPlaying g then g else App.set_isMusicPlaying true g.

Definition stopMusic (g : App.t) : App.t := App.set_isMusicPlaying false g.

Definition emit (e : Effect) (g : App.t) : App.t :=
  App.set_effects (App.effects g ++ [e]) g.

(** [audioService.playBirdSound()], [audioService.playBombSound()] and
    [triggerShake()] (lines 101-105) touch nothing the game reads; they are
    recorded. *)
Definition playBirdSound : App.t → App.t := emit BirdSound.
Definition playBombSound : App.t → App.t := emit BombSound.
Definition triggerShake : App.t → App.t := emit Shake.

(** ** Number to array index, and [n % d === 0] *)

(** The element position that the number [v] designates in an array, if
    any: a non-negative integer. *)
Definition arrayIndex (v : float) : option nat :=
  match Prim2SF v with
  | S754_zero _ => Some 0
  | S754_finite false m e =>
      if (0 <=? e)%Z then Some (Z.to_nat (Z.pos m * 2 ^ e))
      else if (Z.pos m mod 2 ^ (- e) =? 0)%Z
           then Some (Z.to_nat (Z.pos m / 2 ^ (- e)))
           else None
  | _ => None
  end.

(** [n % d === 0] for an integer [n]: the remainder is exact, it is [n] for an
    infinite [d] and NaN for a zero or NaN [d]. *)
Definition remainderIsZero (n : Z) (d : float) : bool :=
  match Prim2SF d with
  | S754_finite _ m e =>
      if (0 <=? e)%Z then (Z.rem n (Z.pos m * 2 ^ e) =? 0)%Z
      else (Z.rem (n * 2 ^ (- e)) (Z.pos m) =? 0)%Z
  | S754_infinity _ => (n =? 0)%Z
  | _ => false
  end.

(** ** The game: operations (src/App.tsx, lines 87-237)

    [random n] is the value of the [n]-th call of [Math.random()]; [cos] and
    [sin] are [Math.cos] and [Math.sin], which the binary64 primitives do not
    provide. *)

Section Game.
Local Open Scope float_scope.
Variable random : nat → float.
Variables cos sin : float → float.

(** [Math.random()]. *)
Definition draw (g : App.t) : float * App.t :=
  (random (App.draws g), App.set_draws (S (App.draws g)) g).

(** Lines 89-97: one turn of the loop of [initClouds]. *)
Definition addCloud (st : list Cloud.t * App.t) : list Cloud.t * App.t :=
  let '(clouds, g) := st in
  let '(r1, g) := draw g in
  let '(r2, g) := draw g in
  let '(r3, g) := draw g in
  let '(r4, g) := draw g in
  let '(r5, g) := draw g in
  (clouds ++ [Cloud.mk (r1 * CANVAS_WIDTH) (r2 * (CANVAS_HEIGHT / 2))
                       (0.2 + r3 * 0.4) (0.5 + r4 * 1.0) (0.4 + r5 * 0.4)],
   g).

(** Lines 87-99. *)
Definition initClouds (g : App.t) : App.t :=
  let '(clouds, g) := Nat.iter 8 addCloud ([], g) in
  App.set_clouds clouds g.

(** Lines 109-114: one turn of the loop of [createExplosion]. *)
Definition addParticle (x y : float) (color : string) (g : App.t) : App.t :=
  let '(r1, g) := draw g in
  let angle := r1 * Math_PI * 2 in
  let '(r2, g) := draw g in
  let speed := r2 * 5 + 3 in
  let '(r3, g) := draw g in
  let '(r4, g) := draw g in
  App.set_particles
    (App.particles g
     ++ [Particle.mk r3 x y (cos angle * speed) (sin angle * speed) 1.0 color
                     (r4 * 5 + 2)]) g.

(** Lines 107-116. *)
Definition createExplosion (x y : float) (color : string) (g : App.t) : App.t :=
  Nat.iter 15 (addParticle x y color) g.

(** Lines 118-120. *)
Definition createFloatingText (x y : float) (text color : string) (g : App.t)
    : App.t :=
  let '(r, g) := draw g in
  App.set_floatingTexts
    (App.floatingTexts g ++ [FloatingText.mk r x y text 1.0 color]) g.

(** Lines 62-66 of the mount effect: the saved high score, if any, becomes
    the high score, and the clouds are made. *)
Definition mount (g : App.t) : App.t :=
  let g := match App.savedHighScore g with
           | Some saved => App.set_highScore saved g
           | None => g
           end in
  initClouds g.

(** Lines 122-135. *)
Definition endGame (g : App.t) : App.t :=
  let highScore := App.highScore g in
  let g := App.set_isGameOver true g in
  let g := App.set_isPlaying false g in
  let g := App.set_isPaused false g in
  let g := stopMusic g in
  let g := if (highScore <? App.score g)%Z
           then App.set_savedHighScore (Some (App.score g))
                  (App.set_highScore (App.score g) g)
           else g in
  let prev := App.gameState g in
  App.set_gameState
    (GameState.mk (App.score g) false true (GameState.lives prev)
                  (Z.max highScore (App.score g)) false) g.

(** Lines 137-144. *)
Definition startGame (g : App.t) : App.t :=
  let g := App.set_score 0 g in
  let g := App.set_lives (App.initialLives g) g in
  let g := App.set_objects [] g in
  let g := App.set_particles [] g in
  let g := App.set_floatingTexts [] g in
  let g := App.set_isGameOver false g in
  let g := App.set_isPlaying true g in
  let g := App.set_isPaused false g in
  let g := App.set_gameState
             (GameState.mk 0 true false (App.initialLives g) (App.highScore g)
                           false) g in
  let g := startMusic g in
  initClouds g.

(** Lines 146-152. *)
Definition togglePause (g : App.t) : App.t :=
  if negb (App.isPlaying g) || App.isGameOver g then g
  else
    let g := App.set_isPaused (negb (App.isPaused g)) g in
    let prev := App.gameState g in
    let g := App.set_gameState
               (GameState.mk (GameState.score prev) (GameState.isPlaying prev)
                             (GameState.gameOver prev) (GameState.lives prev)
                             (GameState.highScore prev) (App.isPaused g)) g in
    if App.isPaused g then stopMusic g else startMusic g.

(** Lines 154-158. *)
Definition exitGame (g : App.t) : App.t :=
  let g := App.set_isPlaying false g in
  let g := App.set_isPaused false g in
  let g := App.set_isGameOver false g in
  let g := stopMusic g in
  let prev := App.gameState g in
  App.set_gameState
    (GameState.mk (GameState.score prev) false false (GameState.lives prev)
                  (GameState.highScore prev) false) g.

(** Line 164. *)
Definition spawnRate (spawnFreq : float) (g : App.t) : float :=
  Math.max 15 (Math_floor (80 / spawnFreq - Z2F (App.score g) / 50)).

(** Lines 167-193: a new bird or bomb. *)
Definition spawnObject (speedFactor : float) (g : App.t) : App.t :=
  let '(r, g) := draw g in
  let isBomb := r <? 0.18 in
  let radius := OBJECT_RADIUS in
  let diff := speedFactor * (1 + Z2F (App.score g) / 1500) in
  let '(x, y, speedX, speedY, g) :=
    if isBomb then
      let '(r1, g) := draw g in
      let '(r2, g) := draw g in
      let '(r3, g) := draw g in
      (r1 * (CANVAS_WIDTH - radius * 2) + radius, - radius,
       (r2 - 0.5) * 2 * diff, - (2 + r3 * 2) * diff, g)
    else
      let '(side, g) := draw g in
      if side <? 0.3 then
        let '(r1, g) := draw g in
        let '(r2, g) := draw g in
        let '(r3, g) := draw g in
        (r1 * (CANVAS_WIDTH - radius * 2) + radius, CANVAS_HEIGHT + radius,
         (r2 - 0.5) * 3 * diff, (1.5 + r3 * 2) * diff, g)
      else
        let '(r1, g) := draw g in
        let isLeft := r1 <? 0.5 in
        let '(r2, g) := draw g in
        let '(r3, g) := draw g in
        let '(r4, g) := draw g in
        (if isLeft then - radius else CANVAS_WIDTH + radius,
         r2 * (CANVAS_HEIGHT * 0.7),
         (if isLeft then 1 else -1) * (1.5 + r3 * 3) * diff,
         (r4 - 0.5) * 1.5 * diff, g) in
  let '(id, g) := draw g in
  let '(emoji, g) :=
    if isBomb then (Some "💣"%string, g)
    else let '(r5, g) := draw g in
         (arrayIndex (Math_floor (r5 * 5)) ≫= (BIRD_EMOJIS !!.), g) in
  let '(r6, g) := draw g in
  App.set_objects
    (App.objects g
     ++ [Obj.mk id (if isBomb then BOMB else BIRD) x y radius speedY speedX
                ""%string false emoji (r6 * Math_PI * 2)]) g.

(** Lines 197-203: one cloud drifts, and starts again on the left at a new
    height once it is past the right edge. *)
Definition moveCloud (st : list Cloud.t * App.t) (cloud : Cloud.t)
    : list Cloud.t * App.t :=
  let '(moved, g) := st in
  let x := Cloud.x cloud + Cloud.speed cloud in
  if CANVAS_WIDTH + 100 <? x then
    let '(r, g) := draw g in
    (moved ++ [Cloud.mk (-100) (r * (CANVAS_HEIGHT / 2)) (Cloud.speed cloud)
                        (Cloud.scale cloud) (Cloud.opacity cloud)], g)
  else
    (moved ++ [Cloud.mk x (Cloud.y cloud) (Cloud.speed cloud)
                        (Cloud.scale cloud) (Cloud.opacity cloud)], g).

Definition moveClouds (g : App.t) : App.t :=
  let '(moved, g) := foldl moveCloud ([], g) (App.clouds g) in
  App.set_clouds moved g.

(** Lines 208-225, the loop over the hands: whether some hand catches the
    object.  A hand below the stability threshold is passed over; the first
    stable hand within reach ends the loop. *)
Fixpoint reached (hands : list Hand.t) (obj : Obj.t) : bool :=
  match hands with
  | [] => false
  | hand :: rest =>
      if (Hand.framesDetected hand <? STABILITY_THRESHOLD)%Z
      then reached rest obj
      else
        let dx := Hand.x hand - Obj.x obj in
        let dy := Hand.y hand - Obj.y obj in
        if Math.sqrt (dx * dx + dy * dy) <? Obj.radius obj + 60
        then true
        else reached rest obj
  end.

Definition setCaught (obj : Obj.t) : Obj.t :=
  Obj.mk (Obj.id obj) (Obj.type obj) (Obj.x obj) (Obj.y obj) (Obj.radius obj)
         (Obj.speedY obj) (Obj.speedX obj) (Obj.color obj) true
         (Obj.emoji obj) (Obj.flapPhase obj).

Definition advance (obj : Obj.t) : Obj.t :=
  Obj.mk (Obj.id obj) (Obj.type obj) (Obj.x obj + Obj.speedX obj)
         (Obj.y obj - Obj.speedY obj) (Obj.radius obj)
         (Obj.speedY obj) (Obj.speedX obj) (Obj.color obj) (Obj.caught obj)
         (Obj.emoji obj) (Obj.flapPhase obj).

(** Lines 205-227: the body of [objectsRef.current.forEach]. *)
Definition stepObject (hands : list Hand.t) (st : list Obj.t * App.t)
    (obj : Obj.t) : list Obj.t * App.t :=
  let '(moved, g) := st in
  let obj := advance obj in
  if Obj.caught obj then (moved ++ [obj], g)
  else if reached hands obj then
    let obj := setCaught obj in
    match Obj.type obj with
    | BIRD =>
        let g := App.set_score (App.score g + 10) g in
        let g := playBirdSound g in
        let g := createExplosion (Obj.x obj) (Obj.y obj) "#FFEB3B" g in
        let g := createFloatingText (Obj.x obj) (Obj.y obj) "+10" "#FFD700" g in
        (moved ++ [obj], g)
    | BOMB =>
        let g := App.set_lives (App.lives g - 1) g in
        let g := playBombSound g in
        let g := createExplosion (Obj.x obj) (Obj.y obj) "#FF5252" g in
        let g := triggerShake g in
        (moved ++ [obj], g)
    end
  else (moved ++ [obj], g).

(** Line 229: the objects that stay. *)
Definition inPlay (obj : Obj.t) : bool :=
  negb (Obj.caught obj)
  && (-500 <? Obj.y obj) && (Obj.y obj <? CANVAS_HEIGHT + 500)
  && (-500 <? Obj.x obj) && (Obj.x obj <? CANVAS_WIDTH + 500).

(** Line 230. *)
Definition moveParticle (p : Particle.t) : Particle.t :=
  Particle.mk (Particle.id p) (Particle.x p + Particle.vx p)
              (Particle.y p + Particle.vy p) (Particle.vx p)
              (Particle.vy p + 0.12) (Particle.life p - 0.025)
              (Particle.color p) (Particle.size p).

(** Line 232. *)
Definition moveText (t : FloatingText.t) : FloatingText.t :=
  FloatingText.mk (FloatingText.id t) (FloatingText.x t)
                  (FloatingText.y t - 1.0) (FloatingText.text t)
                  (FloatingText.life t - 0.015) (FloatingText.color t).

(** Lines 160-237. *)
Definition updateGameLogic (hands : list Hand.t) (speedFactor spawnFreq : float)
    (g : App.t) : App.t :=
  if negb (App.isPlaying g) || App.isGameOver g || App.isPaused g then g
  else
    let g := App.set_frameCount (App.frameCount g + 1) g in
    let g := if remainderIsZero (App.frameCount g) (spawnRate spawnFreq g)
             then spawnObject speedFactor g else g in
    let g := moveClouds g in
    let '(objects, g) := foldl (stepObject hands) ([], g) (App.objects g) in
    let g := App.set_objects (filter (λ obj, inPlay obj = true) objects) g in
    let g := App.set_particles
               (filter (λ p, (0 <? Particle.life p) = true)
                       (moveParticle <$> App.particles g)) g in
    let g := App.set_floatingTexts
               (filter (λ t, (0 <? FloatingText.life t) = true)
                       (moveText <$> App.floatingTexts g)) g in
    if (App.lives g <=? 0)%Z then endGame g
    else
      let prev := App.gameState g in
      App.set_gameState
        (GameState.mk (App.score g) (GameState.isPlaying prev)
                      (GameState.gameOver prev) (App.lives g)
                      (GameState.highScore prev) (GameState.isPaused prev)) g.

(** ** What can happen to the component

    The buttons (lines 490-521), a frame of the loop (line 464), the cleanup
    of the loop effect (line 471) and the slider of the starting lives, whose
    range is 1 to 10 (line 517). *)

Inductive Action :=
  | StartGame
  | TogglePause
  | ExitGame
  | GameFrame (hands : list Hand.t) (speedFactor spawnFreq : float)
  | Cleanup
  | SetInitialLives (v : Z).

Definition act (g : App.t) (a : Action) : App.t :=
  match a with
  | StartGame => startGame g
  | TogglePause => togglePause g
  | ExitGame => exitGame g
  | GameFrame hands speedFactor spawnFreq =>
      updateGameLogic hands speedFactor spawnFreq g
  | Cleanup => stopMusic g
  | SetInitialLives v => App.set_initialLives v g
  end.

(** The component after it is mounted and the actions have happened. *)
Definition play (saved : option Z) (actions : list Action) : App.t :=
  foldl act (mount (newApp saved)) actions.

(** The slider gives 1 to 10. *)
Definition sliderInRange (a : Action) : Prop :=
  match a with
  | SetInitialLives v => (1 ≤ v ≤ 10)%Z
  | _ => True
  end.
End Game.

(** ** Observing the game *)

(** The part of the state that only the buttons and the end of a game
    write. *)
Definition control (g : App.t)
    : bool * bool * bool * Z * Z * GameState.t * bool * option Z :=
  (App.isGameOver g, App.isPlaying g, App.isPaused g, App.highScore g,
   App.initialLives g, App.gameState g, App.isMusicPlaying g,
   App.savedHighScore g).

#[global] Instance Effect_eq_dec : EqDecision Effect.
Proof. solve_decision. Defined.

(** How often an effect was asked for. *)
Definition times (e : Effect) (es : list Effect) : Z :=
  Z.of_nat (length (filter (λ e', e' = e) es)).

(** The flags never contradict each other, and the music plays only while
    the game is played and not paused. *)
Definition coherent (g : App.t) : Prop :=
  (App.isPaused g = true → App.isPlaying g = true)
  ∧ (App.isPlaying g = true → App.isGameOver g = false)
  ∧ (App.isMusicPlaying g = true →
     App.isPlaying g = true ∧ App.isPaused g = false).

(** The React state that the page shows agrees with the refs. *)
Definition mirrored (g : App.t) : Prop :=
  GameState.isPlaying (App.gameState g) = App.isPlaying g
  ∧ GameState.gameOver (App.gameState g) = App.isGameOver g
  ∧ GameState.isPaused (App.gameState g) = App.isPaused g
  ∧ GameState.score (App.gameState g) = App.score g
  ∧ (App.isPlaying g = true → GameState.lives (App.gameState g) = App.lives g).

(** The [life] of a particle after [k] frames, and of a floating text. *)
Definition particleLife (k : nat) : float :=
  Nat.iter k (λ life, life - 0.025)%float 1.0%float.

Definition textLife (k : nat) : float :=
  Nat.iter k (λ life, life - 0.015)%float 1.0%float.

(** Every object is in play and of the one size; the sky has its eight
    clouds; every particle has been through 1 to 39 frames and every
    floating text through 1 to 66. *)
Definition tidy (g : App.t) : Prop :=
  Forall (λ obj, inPlay obj = true ∧ Obj.radius obj = OBJECT_RADIUS)
         (App.objects g)
  ∧ length (App.clouds g) = 8
  ∧ Forall (λ p, ∃ k, 1 ≤ k ≤ 39 ∧ Particle.life p = particleLife k)
           (App.particles g)
  ∧ Forall (λ t, ∃ k, 1 ≤ k ≤ 66 ∧ FloatingText.life t = textLife k)
           (App.floatingTexts g).

(** The score and the lives stay within what the game can give. *)
Definition fair (g : App.t) : Prop :=
  (0 ≤ App.score g)%Z ∧ (App.score g mod 10 = 0)%Z
  ∧ (App.lives g ≤ 10)%Z ∧ (1 ≤ App.initialLives g ≤ 10)%Z
  ∧ (App.isPlaying g = true → 1 ≤ App.lives g)%Z
  ∧ (App.isGameOver g = true → App.lives g ≤ 0)%Z.

(** The high score in memory is the one in [localStorage], and a finished
    game never beats it. *)
Definition remembered (g : App.t) : Prop :=
  App.highScore g = default 0%Z (App.savedHighScore g)
  ∧ (App.isGameOver g = true → App.score g ≤ App.highScore g)%Z.

(** From [g] to [g'] the score grew by 10 for every bird sound asked for, the
    lives shrank by one for every bomb sound, and the page was shaken once
    for every bomb sound. *)
Definition tallied (g g' : App.t) : Prop :=
  ∃ es, App.effects g' = App.effects g ++ es
        ∧ App.score g' = (App.score g + 10 * times BirdSound es)%Z
        ∧ App.lives g' = (App.lives g - times BombSound es)%Z
        ∧ times Shake es = times BombSound es.

(** [g] after catches: the particles [ps] and the floating texts [ts] added,
    the effects [es] asked for and tallied, and [n] more draws. *)
Definition played (g : App.t) (ps : list Particle.t) (ts : list FloatingText.t)
    (es : list Effect) (n : nat) : App.t :=
  {| App.frameCount := App.frameCount g;
     App.objects := App.objects g;
     App.particles := App.particles g ++ ps;
     App.floatingTexts := App.floatingTexts g ++ ts;
     App.clouds := App.clouds g;
     App.score := App.score g + 10 * times BirdSound es;
     App.lives := App.lives g - times BombSound es;
     App.isGameOver := App.isGameOver g;
     App.isPlaying := App.isPlaying g;
     App.isPaused := App.isPaused g;
     App.highScore := App.highScore g;
     App.initialLives := App.initialLives g;
     App.gameState := App.gameState g;
     App.isMusicPlaying := App.isMusicPlaying g;
     App.savedHighScore := App.savedHighScore g;
     App.draws := App.draws g + n;
     App.effects := App.effects g ++ es |}.

(** What the bookkeeping of catches has the right form: full lives of the
    new particles and texts, one shake per bomb sound. *)
Definition wellPlayed (ps : list Particle.t) (ts : list FloatingText.t)
    (es : list Effect) : Prop :=
  Forall (λ p, Particle.life p = 1.0%float) ps
  ∧ Forall (λ t, FloatingText.life t = 1.0%float) ts
  ∧ times Shake es = times BombSound es.

(** ** A sample game *)

(** An oracle for [Math.random()], and polynomials in the place of
    [Math.cos] and [Math.sin]. *)
Definition sampleRandom (n : nat) : float :=
  if Nat.even n then 0.1%float else 0.7%float.

Definition sampleCos (x : float) : float := (1 - x * x / 2)%float.

Definition sampleSin (x : float) : float := (x - x * x * x / 6)%float.

(** A hand seen for the second time, at the top left. *)
Definition newHand : Hand.t := Hand.mk 1 128 (-40) 0 0 Left 1 0 2.

(** Lines 211-213: the test of one hand against one object. *)
Definition withinReach (hand : Hand.t) (obj : Obj.t) : bool :=
  let dx := (Hand.x hand - Obj.x obj)%float in
  let dy := (Hand.y hand - Obj.y obj)%float in
  (Math.sqrt (dx * dx + dy * dy) <? Obj.radius obj + 60)%float.

(** The same hand a frame later, and a bird under it. *)
Definition steadyHand : Hand.t := Hand.mk 1 128 (-40) 0 0 Left 1 0 3.

Definition sampleBird : Obj.t :=
  Obj.mk 0.5 BIRD 128 (-40) OBJECT_RADIUS 0 0 "" false (Some "🐦"%string) 0.

(** * Properties *)

(** ** The order of binary64 values

    [<] on floats is a strict partial order (NaN is unordered); the facts are
    read off the specification of the comparison on [spec_float]. *)

Section FloatOrder.
Local Open Scope float_scope.

Lemma SFltb_trans a b c :
  SFltb a b = true → SFltb b c = true → SFltb a c = true.
Proof.
  unfold SFltb, SFcompare.
  destruct a as [ [] | [] | | [] m1 e1]; destruct b as [ [] | [] | | [] m2 e2];
    destruct c as [ [] | [] | | [] m3 e3]; simpl; try congruence.
  all: destruct (Z.compare_spec e1 e2); try congruence;
    destruct (Z.compare_spec e2 e3); try congruence;
    destruct (Z.compare_spec e1 e3); try congruence; try lia; subst.
  all: fold (Pos.compare m1 m2); fold (Pos.compare m2 m3);
    fold (Pos.compare m1 m3).
  all: destruct (Pos.compare_spec m1 m2); simpl; try congruence;
    destruct (Pos.compare_spec m2 m3); simpl; try congruence;
    destruct (Pos.compare_spec m1 m3); simpl; try congruence; lia.
Qed.

Lemma SFltb_irrefl a : SFltb a a = false.
Proof.
  unfold SFltb, SFcompare.
  destruct a as [ [] | [] | | [] m e]; simpl; try congruence.
  all: rewrite Z.compare_refl; fold (Pos.compare m m);
    rewrite Pos.compare_refl; reflexivity.
Qed.

Lemma float_ltb_trans a b c :
  (a <? b) = true → (b <? c) = true → (a <? c) = true.
Proof. rewrite !ltb_spec. apply SFltb_trans. Qed.

Lemma float_ltb_irrefl a : (a <? a) = false.
Proof. rewrite ltb_spec. apply SFltb_irrefl. Qed.

(** Whatever is not below [b] is not below anything below [b]. *)
Lemma float_not_ltb_below a b c :
  (a <? b) = false → (c <? b) = true → (a <? c) = false.
Proof.
  intros Hab Hcb. destruct (a <? c) eqn:Hac; [|done].
  by rewrite (float_ltb_trans _ _ _ Hac Hcb) in Hab.
Qed.
End FloatOrder.

(** ** Loops *)

Lemma forEach_from_invariant {A St : Type} (P : nat → St → Prop)
    (f : St → A → nat → St) (l1 l2 : list A) (s : St) :
  P (length l1) s →
  (∀ i a s', (l1 ++ l2) !! i = Some a → P i s' → P (S i) (f s' a i)) →
  P (length (l1 ++ l2)) (forEach_from f (length l1) l2 s).
Proof.
  revert l1 s. induction l2 as [|a l2 IH]; intros l1 s Hs Hstep; simpl.
  - by rewrite app_nil_r.
  - replace (l1 ++ a :: l2) with ((l1 ++ [a]) ++ l2) in * by by rewrite <-app_assoc.
    replace (S (length l1)) with (length (l1 ++ [a]))
      by (rewrite length_app; simpl; lia).
    apply IH; [|done].
    rewrite length_app; simpl. rewrite Nat.add_1_r.
    apply Hstep; [|done].
    rewrite lookup_app_l; [|rewrite length_app; simpl; lia].
    by rewrite lookup_app_r, Nat.sub_diag.
Qed.

(** An invariant of the loop body holds when [forEach] returns. *)
Lemma forEach_invariant {A St : Type} (P : nat → St → Prop)
    (f : St → A → nat → St) (l : list A) (s : St) :
  P 0 s →
  (∀ i a s', l !! i = Some a → P i s' → P (S i) (f s' a i)) →
  P (length l) (forEach f l s).
Proof. intros. by apply (forEach_from_invariant P f [] l). Qed.

(** ** The associator *)

Section AssociatorFacts.
Local Open Scope float_scope.
Context (detections : list Det.t) (used : gset nat) (hand : Hand.t).

Lemma scanned_start : scanned detections used hand 0 (None, MAX_MATCH_DIST).
Proof. split; [intros; lia | done]. Qed.

Lemma scanned_step i det best :
  detections !! i = Some det → scanned detections used hand i best →
  scanned detections used hand (S i) (scanDetection used hand best det i).
Proof.
  intros Hdet [Hmin Hbest]. unfold scanDetection.
  destruct (decide (i ∈ used)) as [Hin|Hout].
  { split; [|done]. intros j dj Hj Hdj Hfree.
    destruct (decide (j = i)) as [->|]; [done|]. apply (Hmin j); [lia|done..]. }
  simpl. destruct (weightedDist hand det <? snd best) eqn:Hlt.
  - split; simpl.
    + intros j dj Hj Hdj Hfree. destruct (decide (j = i)) as [->|].
      * simplify_eq. apply float_ltb_irrefl.
      * apply float_not_ltb_below with (snd best); [|done].
        apply (Hmin j); [lia|done..].
    + split; [done|]. exists det. split_and!; [done..|].
      destruct (fst best) as [idx|].
      * destruct Hbest as (_ & d' & _ & Hsnd & Hd').
        rewrite Hsnd in Hlt. by apply float_ltb_trans with (weightedDist hand d').
      * by rewrite Hbest in Hlt.
  - split; [|done]. intros j dj Hj Hdj Hfree.
    destruct (decide (j = i)) as [->|]; [by simplify_eq|].
    apply (Hmin j); [lia|done..].
Qed.

Lemma findBest_scanned :
  scanned detections used hand (length detections)
          (findBest detections used hand).
Proof.
  unfold findBest. apply forEach_invariant; [apply scanned_start|].
  intros. by apply scanned_step.
Qed.
End AssociatorFacts.

(** ** Runs *)

Lemma run_app hands frames1 frames2 :
  run hands (frames1 ++ frames2) = run (run hands frames1) frames2.
Proof. unfold run. by rewrite foldl_app. Qed.

Lemma run_snoc hands frames f :
  run hands (frames ++ [f]) = tick (run hands frames) f.
Proof. unfold run. by rewrite foldl_app. Qed.

(** ** What the inner loop ends on *)

Lemma bestIdx_scanned detections used hand idx :
  bestIdx detections used hand = Some idx →
  (idx ∉ used)
  ∧ ∃ det, detections !! idx = Some det
           ∧ snd (findBest detections used hand) = weightedDist hand det
           ∧ (weightedDist hand det <? MAX_MATCH_DIST)%float = true.
Proof.
  unfold bestIdx. intros Hidx.
  destruct (findBest_scanned detections used hand) as [_ Hbest].
  by rewrite Hidx in Hbest.
Qed.

(** [detections[bestIdx]] is always an element of the array. *)
Lemma bestIdx_lookup detections used hand idx :
  bestIdx detections used hand = Some idx → is_Some (detections !! idx).
Proof. intros (_ & det & -> & _)%bestIdx_scanned. by eexists. Qed.

(** ** One hand, then all of them *)

Lemma updateHand_fate detections st hand :
  updateHand detections st hand =
  let f := fate detections (usedDetections st) hand in
  {| nextHands := nextHands st ++ option_list (outcome detections hand f);
     usedDetections := claim f (usedDetections st) |}.
Proof.
  unfold updateHand, fate.
  destruct (bestIdx detections (usedDetections st) hand) as [idx|] eqn:Hbest.
  - destruct (bestIdx_lookup _ _ _ _ Hbest) as [det Hdet]. simpl.
    by rewrite Hdet.
  - destruct (Hand.framesMissing hand <? PERSISTENCE_FRAMES)%Z; simpl.
    + done.
    + rewrite app_nil_r. by destruct st.
Qed.

Lemma updateHands_from detections st hands :
  foldl (updateHand detections) st hands =
  {| nextHands := nextHands st ++ survivors detections (usedDetections st) hands;
     usedDetections :=
       claimedBy (fates detections (usedDetections st) hands) (usedDetections st) |}.
Proof.
  revert st. induction hands as [|hand rest IH]; intros st.
  - unfold survivors, claimedBy. simpl. rewrite app_nil_r. by destruct st.
  - simpl. rewrite IH, updateHand_fate. simpl.
    unfold survivors, claimedBy. simpl.
    by destruct (outcome _ _ _); simpl; rewrite <-app_assoc.
Qed.

Lemma updateHands_survivors detections hands :
  nextHands (updateHands detections hands) = survivors detections ∅ hands.
Proof. unfold updateHands. by rewrite updateHands_from. Qed.

Lemma updateHands_claimed detections hands :
  usedDetections (updateHands detections hands) =
  claimedBy (fates detections ∅ hands) ∅.
Proof. unfold updateHands. by rewrite updateHands_from. Qed.

Lemma addHands_from now i detections st n :
  forEach_from (addHand now) i detections (st, n) =
  ({| nextHands :=
        nextHands st ++ newcomersFrom now (usedDetections st) i n detections;
      usedDetections := usedDetections st |},
   n + length (newcomersFrom now (usedDetections st) i n detections)).
Proof.
  revert i st n. induction detections as [|det rest IH]; intros i st n; simpl.
  - rewrite app_nil_r, Nat.add_0_r. by destruct st.
  - change (addHand now (st, n) det i)
      with (if decide (i ∈ usedDetections st) then (st, n)
            else (push (created (now n) det i) st, S n)).
    destruct (decide (i ∈ usedDetections st)); rewrite IH; simpl; [done|].
    rewrite <-app_assoc. simpl. f_equal. lia.
Qed.

(** The next store is what the first loop pushes followed by what the second
    loop pushes. *)
Lemma processTracking_split now hands detections :
  processTracking now hands detections =
  survivors detections ∅ hands
  ++ newcomersFrom now (usedDetections (updateHands detections hands)) 0 0
       detections.
Proof.
  unfold processTracking, forEach. rewrite addHands_from. simpl.
  by rewrite updateHands_survivors.
Qed.

(** The clock is read once for every hand the second loop pushes. *)
Lemma clockReads_split now hands detections :
  clockReads now hands detections =
  length (newcomersFrom now (usedDetections (updateHands detections hands)) 0 0
            detections).
Proof. unfold clockReads, forEach. by rewrite addHands_from. Qed.

(** ** Fates *)

Lemma length_fates detections used hands :
  length (fates detections used hands) = length hands.
Proof.
  revert used. induction hands as [|hand rest IH]; intros used; simpl; [done|].
  by rewrite IH.
Qed.

Lemma fates_take detections used hands k :
  fates detections used (take k hands) = take k (fates detections used hands).
Proof.
  revert used k. induction hands as [|hand rest IH]; intros used [|k]; simpl;
    try done.
  by rewrite IH.
Qed.

Lemma fates_app detections used hands1 hands2 :
  fates detections used (hands1 ++ hands2) =
  fates detections used hands1
  ++ fates detections (claimedBy (fates detections used hands1) used) hands2.
Proof.
  revert used. induction hands1 as [|hand rest IH]; intros used; simpl; [done|].
  by rewrite IH.
Qed.

Lemma claim_subseteq f used : used ⊆ claim f used.
Proof. destruct f; simpl; set_solver. Qed.

Lemma claimedBy_subseteq fs used : used ⊆ claimedBy fs used.
Proof.
  revert used. induction fs as [|f fs IH]; intros used; [done|].
  unfold claimedBy in *. simpl. etrans; [apply (claim_subseteq f)|apply IH].
Qed.

Lemma claimedBy_matched fs used idx :
  Matched idx ∈ fs → idx ∈ claimedBy fs used.
Proof.
  revert used. induction fs as [|f fs IH]; intros used Hin.
  - by apply elem_of_nil in Hin.
  - apply elem_of_cons in Hin as [<-|Hin]; unfold claimedBy in *; simpl.
    + apply (claimedBy_subseteq fs). set_solver.
    + by apply IH.
Qed.

Lemma usedBefore_claimed detections hands k :
  usedBefore detections hands k =
  claimedBy (take k (fates detections ∅ hands)) ∅.
Proof. unfold usedBefore. by rewrite updateHands_claimed, fates_take. Qed.

Lemma usedBefore_0 detections hands : usedBefore detections hands 0 = ∅.
Proof. unfold usedBefore. by rewrite take_0. Qed.

(** The fate of the hand at position [k] is decided against the detections
    claimed by the hands before it. *)
Lemma fates_lookup detections hands k hand :
  hands !! k = Some hand →
  fates detections ∅ hands !! k =
  Some (fate detections (usedBefore detections hands k) hand).
Proof.
  intros Hk. rewrite usedBefore_claimed.
  rewrite <-(take_drop_middle hands k hand Hk) at 1.
  rewrite fates_app. rewrite lookup_app_r; rewrite length_fates, length_take;
    apply lookup_lt_Some in Hk as Hlt; [|lia].
  replace (k - k `min` length hands) with 0 by lia. simpl.
  by rewrite fates_take.
Qed.

Lemma fate_matched detections used hand idx :
  fate detections used hand = Matched idx ↔
  bestIdx detections used hand = Some idx.
Proof.
  unfold fate. destruct (bestIdx detections used hand).
  - split; congruence.
  - by destruct (Hand.framesMissing hand <? PERSISTENCE_FRAMES)%Z.
Qed.

Lemma fate_matched_free detections used hand idx :
  fate detections used hand = Matched idx →
  (idx ∉ used) ∧ is_Some (detections !! idx).
Proof.
  intros Hf%fate_matched. split.
  - by apply bestIdx_scanned in Hf as [? _].
  - by apply bestIdx_lookup in Hf.
Qed.

(** ** The pairs of a tick *)

Lemma elem_of_pairsFrom k0 fs k idx :
  (k, idx) ∈ pairsFrom k0 fs ↔ k0 ≤ k ∧ fs !! (k - k0) = Some (Matched idx).
Proof.
  revert k0. induction fs as [|f fs IH]; intros k0; simpl.
  - rewrite elem_of_nil. split; [done|]. by intros [_ ?].
  - assert ((k, idx) ∈ pairsFrom (S k0) fs ↔
            k0 < k ∧ (f :: fs) !! (k - k0) = Some (Matched idx)) as Htail.
    { rewrite IH. split.
      - intros [? Hl]. split; [lia|].
        by replace (k - k0) with (S (k - S k0)) by lia.
      - intros [? Hl]. split; [lia|].
        by replace (k - k0) with (S (k - S k0)) in Hl by lia. }
    destruct f as [idx'| |]; rewrite ?elem_of_cons, Htail.
    + split.
      * intros [[= -> ->]|[? ?]]; [|split; [lia|done]].
        split; [lia|]. by rewrite Nat.sub_diag.
      * intros [Hle Hl]. destruct (decide (k = k0)) as [->|]; [|right; split; [lia|done]].
        rewrite Nat.sub_diag in Hl. simpl in Hl. left. congruence.
    + split; [intros [? ?]; split; [lia|done]|].
      intros [Hle Hl]. destruct (decide (k = k0)) as [->|]; [|split; [lia|done]].
      by rewrite Nat.sub_diag in Hl.
    + split; [intros [? ?]; split; [lia|done]|].
      intros [Hle Hl]. destruct (decide (k = k0)) as [->|]; [|split; [lia|done]].
      by rewrite Nat.sub_diag in Hl.
Qed.

Lemma pairsFrom_free detections used hands k0 k idx :
  (k, idx) ∈ pairsFrom k0 (fates detections used hands) → idx ∉ used.
Proof.
  revert used k0. induction hands as [|hand rest IH]; intros used k0; simpl.
  - by rewrite elem_of_nil.
  - destruct (fate detections used hand) as [idx'| |] eqn:Hf; simpl.
    + rewrite elem_of_cons. intros [[= -> ->]|Hin].
      * by apply fate_matched_free in Hf as [? _].
      * apply IH in Hin. set_solver.
    + apply IH.
    + apply IH.
Qed.

Lemma pairsFrom_NoDup detections used hands k0 :
  NoDup ((pairsFrom k0 (fates detections used hands)).*2).
Proof.
  revert used k0. induction hands as [|hand rest IH]; intros used k0; simpl.
  - constructor.
  - destruct (fate detections used hand) as [idx| |] eqn:Hf; simpl; [|apply IH..].
    constructor; [|apply IH].
    intros ([k idx'] & [= <-] & Hin)%list_elem_of_fmap.
    apply pairsFrom_free in Hin. set_solver.
Qed.

(** A pair of [matches] is a hand whose inner loop ended on that detection. *)
Lemma elem_of_matches detections hands k idx :
  (k, idx) ∈ matches detections hands ↔
  ∃ hand, hands !! k = Some hand
          ∧ bestIdx detections (usedBefore detections hands k) hand = Some idx.
Proof.
  unfold matches. rewrite elem_of_pairsFrom, Nat.sub_0_r. split.
  - intros [_ Hl].
    destruct (hands !! k) as [hand|] eqn:Hk.
    + exists hand. split; [done|].
      rewrite (fates_lookup _ _ _ _ Hk) in Hl. apply fate_matched. congruence.
    + apply lookup_ge_None in Hk. apply lookup_lt_Some in Hl.
      rewrite length_fates in Hl. lia.
  - intros (hand & Hk & Hbest). split; [lia|].
    rewrite (fates_lookup _ _ _ _ Hk). f_equal. by apply fate_matched.
Qed.

Lemma matches_claimed_later detections hands k idx k' :
  (k, idx) ∈ matches detections hands → k < k' →
  idx ∈ usedBefore detections hands k'.
Proof.
  unfold matches. rewrite elem_of_pairsFrom, Nat.sub_0_r. intros [_ Hl] Hlt.
  rewrite usedBefore_claimed. apply claimedBy_matched.
  apply list_elem_of_lookup. exists k. by rewrite lookup_take_lt.
Qed.

(** ** Who stays, and where *)

Lemma keptFrom_bounds k0 fs :
  Forall (λ k, k0 ≤ k < k0 + length fs) (keptFrom k0 fs).
Proof.
  revert k0. induction fs as [|f fs IH]; intros k0; simpl; [constructor|].
  apply Forall_app. split.
  - destruct (kept f); repeat constructor; lia.
  - eapply Forall_impl; [apply IH|]. simpl. intros; lia.
Qed.

Lemma keptFrom_sorted k0 fs : StronglySorted lt (keptFrom k0 fs).
Proof.
  revert k0. induction fs as [|f fs IH]; intros k0; simpl; [constructor|].
  destruct (kept f); simpl; [|apply IH].
  constructor; [apply IH|].
  eapply Forall_impl; [apply keptFrom_bounds|]. simpl. intros; lia.
Qed.

Lemma survivors_kept_from detections used hands k0 :
  Forall2 (λ k hand', ∃ hand f,
             k0 ≤ k
             ∧ hands !! (k - k0) = Some hand
             ∧ fates detections used hands !! (k - k0) = Some f
             ∧ outcome detections hand f = Some hand')
          (keptFrom k0 (fates detections used hands))
          (survivors detections used hands).
Proof.
  revert used k0. induction hands as [|hand rest IH]; intros used k0.
  - constructor.
  - unfold survivors. simpl. fold (survivors detections
      (claim (fate detections used hand) used) rest).
    assert (Forall2 (λ k hand', ∃ hand0 f,
                k0 ≤ k
                ∧ (hand :: rest) !! (k - k0) = Some hand0
                ∧ (fate detections used hand
                   :: fates detections (claim (fate detections used hand) used) rest)
                   !! (k - k0) = Some f
                ∧ outcome detections hand0 f = Some hand')
              (keptFrom (S k0)
                 (fates detections (claim (fate detections used hand) used) rest))
              (survivors detections (claim (fate detections used hand) used) rest))
      as Htail.
    { eapply Forall2_impl; [apply IH|]. simpl.
      intros k hand' (hand0 & f & Hle & Hh & Hf & Hout).
      exists hand0, f. replace (k - k0) with (S (k - S k0)) by lia.
      split; [lia|done]. }
    destruct (fate detections used hand) as [idx| |] eqn:Hf; simpl.
    + destruct (fate_matched_free _ _ _ _ Hf) as [_ [det Hdet]].
      rewrite Hdet. simpl. constructor; [|done].
      exists hand, (Matched idx). rewrite Nat.sub_diag. simpl.
      rewrite Hdet. by split_and!.
    + constructor; [|done].
      exists hand, Missing. rewrite Nat.sub_diag. by split_and!.
    + done.
Qed.

Lemma survivors_kept detections hands :
  Forall2 (descendsFrom detections hands)
          (keptPositions detections hands) (survivors detections ∅ hands).
Proof.
  eapply Forall2_impl; [apply (survivors_kept_from detections ∅ hands 0)|].
  simpl. intros k hand' (hand & f & _ & Hh & Hf & Hout).
  rewrite Nat.sub_0_r in Hh, Hf. by exists hand, f.
Qed.

Lemma length_survivors detections hands :
  length (survivors detections ∅ hands) = length (keptPositions detections hands).
Proof. symmetry. eapply Forall2_length, survivors_kept. Qed.

(** A hand keeps its identifier whatever happens to it. *)
Lemma outcome_id detections hand f hand' :
  outcome detections hand f = Some hand' → Hand.id hand' = Hand.id hand.
Proof.
  destruct f as [idx| |]; simpl; [|by intros [= <-]|done].
  destruct (detections !! idx); simpl; [|done]. by intros [= <-].
Qed.

Lemma survivors_ids_sublist detections used hands :
  ids (survivors detections used hands) `sublist_of` ids hands.
Proof.
  revert used. induction hands as [|hand rest IH]; intros used.
  - constructor.
  - unfold survivors. simpl. fold (survivors detections
      (claim (fate detections used hand) used) rest).
    destruct (outcome detections hand (fate detections used hand)) as [hand'|] eqn:Hout.
    + unfold ids. simpl. rewrite (outcome_id _ _ _ _ Hout).
      apply sublist_skip, IH.
    + unfold ids. simpl. apply sublist_cons, IH.
Qed.

(** ** Newcomers *)

(** The second loop pushes one hand for every free index, in order; the
    [j]-th of them carries the [j]-th reading of the clock. *)
Lemma newcomersFrom_lookup now used n (l1 l2 : list Det.t) j idx :
  filter (λ idx, idx ∉ used) (seq (length l1) (length l2)) !! j = Some idx →
  ∃ det, (l1 ++ l2) !! idx = Some det
         ∧ newcomersFrom now used (length l1) n l2 !! j
           = Some (created (now (n + j)) det idx).
Proof.
  revert l1 n j. induction l2 as [|det rest IH]; intros l1 n j; simpl; [done|].
  rewrite filter_cons. destruct (decide (length l1 ∈ used)).
  - rewrite decide_False by tauto. intros Hj.
    specialize (IH (l1 ++ [det]) n j).
    rewrite length_app, Nat.add_1_r, <-app_assoc in IH. by apply IH.
  - rewrite decide_True by done. destruct j as [|j]; simpl.
    + intros [= <-]. exists det. rewrite Nat.add_0_r. split; [|done].
      by rewrite lookup_app_r, Nat.sub_diag.
    + intros Hj. specialize (IH (l1 ++ [det]) (S n) j).
      rewrite length_app, Nat.add_1_r, <-app_assoc in IH.
      replace (n + S j) with (S n + j) by lia. by apply IH.
Qed.

Lemma length_newcomersFrom now used n (l1 l2 : list Det.t) :
  length (newcomersFrom now used (length l1) n l2)
  = length (filter (λ idx, idx ∉ used) (seq (length l1) (length l2))).
Proof.
  revert l1 n. induction l2 as [|det rest IH]; intros l1 n; simpl; [done|].
  rewrite filter_cons. destruct (decide (length l1 ∈ used)).
  - rewrite decide_False by tauto.
    specialize (IH (l1 ++ [det]) n). by rewrite length_app, Nat.add_1_r in IH.
  - rewrite decide_True by done. simpl.
    specialize (IH (l1 ++ [det]) (S n)).
    rewrite length_app, Nat.add_1_r in IH. by rewrite IH.
Qed.

Lemma newcomers_lookup now detections hands j idx :
  freeIndices detections hands !! j = Some idx →
  ∃ det, detections !! idx = Some det
         ∧ newcomersFrom now (usedDetections (updateHands detections hands))
             0 0 detections !! j
           = Some (created (now j) det idx).
Proof. apply (newcomersFrom_lookup now _ 0 [] detections). Qed.

Lemma length_newcomers now detections hands :
  length (newcomersFrom now (usedDetections (updateHands detections hands))
            0 0 detections)
  = length (freeIndices detections hands).
Proof. apply (length_newcomersFrom now _ 0 [] detections). Qed.

Lemma newcomers_free now detections hands :
  Forall2 (λ idx hand', ∃ j det, detections !! idx = Some det
                                 ∧ hand' = created (now j) det idx)
          (freeIndices detections hands)
          (newcomersFrom now (usedDetections (updateHands detections hands))
                         0 0 detections).
Proof.
  apply Forall2_same_length_lookup. split.
  - by rewrite length_newcomers.
  - intros j idx hand' Hidx Hhand.
    destruct (newcomers_lookup now detections hands j idx Hidx)
      as (det & Hdet & Hnew).
    rewrite Hnew in Hhand. injection Hhand as <-. by exists j, det.
Qed.

(** The tick reads the clock once for every detection that no hand claimed. *)
Lemma clockReads_free now hands detections :
  clockReads now hands detections = length (freeIndices detections hands).
Proof. by rewrite clockReads_split, length_newcomers. Qed.

Lemma processTracking_lookup_newcomer now hands detections j idx :
  freeIndices detections hands !! j = Some idx →
  ∃ det, detections !! idx = Some det
         ∧ processTracking now hands detections
             !! (length (keptPositions detections hands) + j)
           = Some (created (now j) det idx).
Proof.
  intros (det & Hdet & Hnew)%(newcomers_lookup now). exists det.
  split; [done|]. rewrite processTracking_split, <-length_survivors.
  by rewrite lookup_app_r, Nat.add_comm, Nat.add_sub by lia.
Qed.

Lemma freeIndices_sorted detections hands :
  StronglySorted lt (freeIndices detections hands).
Proof.
  unfold freeIndices. generalize 0 as i.
  induction (length detections) as [|n IH]; intros i; simpl; [constructor|].
  rewrite filter_cons. destruct (decide _); [|apply IH].
  constructor; [apply IH|].
  apply Forall_forall. intros j [_ Hj%elem_of_seq]%list_elem_of_filter. lia.
Qed.

(** ** The associator picks the nearest free detection under the gate *)

Lemma weightedDist_reference hand det :
  weightedDist hand det = Reference.weighted hand det.
Proof.
  unfold weightedDist, Reference.weighted, Reference.distance, predX, predY.
  destruct (decide (Hand.side hand = Det.side det)) as [Heq|Hne].
  - by rewrite decide_True.
  - by rewrite decide_False by congruence.
Qed.

Lemma updateHands_snoc detections hands hand :
  updateHands detections (hands ++ [hand]) =
  updateHand detections (updateHands detections hands) hand.
Proof. unfold updateHands. by rewrite foldl_app. Qed.

(** C5.  The first loop takes the hands in store order, each against the
    state its predecessors left.  For a hand, the weighted distance of a
    detection is the Euclidean distance from the detection to the predicted
    position [(x + vx * 0.8, y + vy * 0.8)], times 0.6 when the two side
    labels agree and 1.0 otherwise.  Either the hand is matched: to a free
    detection whose weighted distance is strictly below [MAX_MATCH_DIST] and
    that no free detection undercuts; this is the case exactly when some free
    detection is strictly below the gate.  Or no free detection is below the
    gate and the hand is left unmatched: it follows the missing branch or is
    dropped, and claims nothing. *)
Theorem associator_nearest_free_under_gate
    (detections : list Det.t) (st : Tracking) (hand : Hand.t) :
  let used := usedDetections st in
  let free j := j ∉ used in
  (∀ hands, updateHands detections (hands ++ [hand]) =
            updateHand detections (updateHands detections hands) hand)
  ∧ (∀ det, weightedDist hand det = Reference.weighted hand det)
  ∧ (is_Some (bestIdx detections used hand) ↔
     ∃ j dj, detections !! j = Some dj ∧ free j
             ∧ (Reference.weighted hand dj <? MAX_MATCH_DIST)%float = true)
  ∧ match bestIdx detections used hand with
    | Some idx =>
        ∃ det, detections !! idx = Some det ∧ free idx
          ∧ (Reference.weighted hand det <? MAX_MATCH_DIST)%float = true
          ∧ (∀ j dj, detections !! j = Some dj → free j →
               (Reference.weighted hand dj <? Reference.weighted hand det)%float
               = false)
          ∧ updateHand detections st hand = push (smoothed hand det) (use idx st)
    | None =>
        (∀ j dj, detections !! j = Some dj → free j →
           (Reference.weighted hand dj <? MAX_MATCH_DIST)%float = false)
        ∧ updateHand detections st hand =
          (if (Hand.framesMissing hand <? PERSISTENCE_FRAMES)%Z
           then push (coasted hand) st else st)
    end.
Proof.
  intros used free.
  split; [intros; apply updateHands_snoc|].
  split; [apply weightedDist_reference|].
  pose proof (findBest_scanned detections used hand) as [Hmin Hbest].
  assert (∀ j dj, detections !! j = Some dj → free j →
            (weightedDist hand dj <? snd (findBest detections used hand))%float
            = false) as Hmin'.
  { intros j dj Hj Hfree. apply (Hmin j); [|done..]. by eapply lookup_lt_Some. }
  unfold updateHand. fold used. unfold bestIdx in *.
  destruct (fst (findBest detections used hand)) as [idx|] eqn:Hidx.
  - destruct Hbest as (Hfree & det & Hdet & Hsnd & Hgate).
    rewrite Hsnd in Hmin'. split.
    + split; [|by eexists]. intros _. exists idx, det.
      by rewrite <-weightedDist_reference.
    + exists det. rewrite Hdet. rewrite <-!weightedDist_reference.
      split_and!; try done.
      intros j dj Hj Hfj. rewrite <-weightedDist_reference. by eapply Hmin'.
  - rewrite Hbest in Hmin'. split.
    + split; [by intros [? ?]|]. intros (j & dj & Hj & Hfj & Hlt).
      rewrite <-weightedDist_reference, (Hmin' j dj) in Hlt by done. done.
    + split; [|done]. intros j dj Hj Hfj.
      rewrite <-weightedDist_reference. by eapply Hmin'.
Qed.

(** ** No detection is matched twice *)

Lemma scanDetection_used used hand best det idx :
  idx ∈ used → scanDetection used hand best det idx = best.
Proof. intros Hin. unfold scanDetection. by rewrite decide_True. Qed.

Lemma matches_not_free detections hands k idx :
  (k, idx) ∈ matches detections hands → idx ∉ freeIndices detections hands.
Proof.
  intros Hm. pose proof Hm as (hand & Hk%lookup_lt_Some & _)%elem_of_matches.
  apply (matches_claimed_later _ _ _ _ (length hands)) in Hm; [|done].
  unfold usedBefore in Hm. rewrite firstn_all in Hm.
  unfold freeIndices. by intros [? _]%list_elem_of_filter.
Qed.

(** C6.  The pairs (position of the hand in the store, index of the
    detection) of one tick never repeat a detection.  A pair is a hand whose
    inner loop, run against the detections claimed before its turn, ended on
    that detection; once a detection is paired it is in [usedDetections] for
    every hand processed later, the inner loop passes over a used index
    without looking at it, and never ends on one; and a paired detection
    makes no new hand. *)
Theorem no_detection_matched_twice
    (detections : list Det.t) (hands : list Hand.t) :
  NoDup (matches detections hands).*2
  ∧ (∀ k idx, (k, idx) ∈ matches detections hands ↔
       ∃ hand, hands !! k = Some hand
               ∧ bestIdx detections (usedBefore detections hands k) hand = Some idx)
  ∧ (∀ k1 k2 idx, (k1, idx) ∈ matches detections hands →
       (k2, idx) ∈ matches detections hands → k1 = k2)
  ∧ (∀ k idx k', (k, idx) ∈ matches detections hands → k < k' →
       idx ∈ usedBefore detections hands k')
  ∧ (∀ used hand best det idx, idx ∈ used →
       scanDetection used hand best det idx = best)
  ∧ (∀ used hand idx, bestIdx detections used hand = Some idx → idx ∉ used)
  ∧ (∀ k idx, (k, idx) ∈ matches detections hands →
       idx ∉ freeIndices detections hands).
Proof.
  split_and!; [..|apply matches_not_free].
  - apply pairsFrom_NoDup.
  - apply elem_of_matches.
  - intros k1 k2 idx H1 H2.
    destruct (Nat.lt_total k1 k2) as [Hlt|[?|Hlt]]; [|done|].
    + pose proof (matches_claimed_later _ _ _ _ _ H1 Hlt) as Hin.
      apply elem_of_matches in H2 as (hand & _ & Hbest).
      by apply bestIdx_scanned in Hbest as [? _].
    + pose proof (matches_claimed_later _ _ _ _ _ H2 Hlt) as Hin.
      apply elem_of_matches in H1 as (hand & _ & Hbest).
      by apply bestIdx_scanned in Hbest as [? _].
  - apply matches_claimed_later.
  - apply scanDetection_used.
  - intros used hand idx Hbest. by apply bestIdx_scanned in Hbest as [? _].
Qed.

(** ** From a position of the store to a position of the next store *)

Lemma elem_of_keptFrom k0 fs k :
  k ∈ keptFrom k0 fs ↔ k0 ≤ k ∧ ∃ f, fs !! (k - k0) = Some f ∧ kept f = true.
Proof.
  revert k0. induction fs as [|f fs IH]; intros k0; simpl.
  - rewrite elem_of_nil. split; [done|]. by intros [_ (? & ? & _)].
  - rewrite elem_of_app, IH. split.
    + intros [Hhead|[Hle (f' & Hl & Hk)]].
      * destruct (kept f) eqn:Hkept; [|by apply elem_of_nil in Hhead].
        apply list_elem_of_singleton in Hhead as ->.
        split; [lia|]. exists f. by rewrite Nat.sub_diag.
      * split; [lia|]. exists f'.
        by replace (k - k0) with (S (k - S k0)) by lia.
    + intros [Hle (f' & Hl & Hk)]. destruct (decide (k = k0)) as [->|].
      * left. rewrite Nat.sub_diag in Hl. simpl in Hl. simplify_eq.
        rewrite Hk. apply list_elem_of_singleton. done.
      * right. split; [lia|]. exists f'.
        by replace (k - k0) with (S (k - S k0)) in Hl by lia.
Qed.

Lemma kept_survives detections hands k hand f :
  hands !! k = Some hand →
  fates detections ∅ hands !! k = Some f →
  kept f = true →
  ∃ p hand', keptPositions detections hands !! p = Some k
             ∧ survivors detections ∅ hands !! p = Some hand'
             ∧ outcome detections hand f = Some hand'.
Proof.
  intros Hk Hf Hkept.
  assert (k ∈ keptPositions detections hands) as [p Hp]%list_elem_of_lookup.
  { apply elem_of_keptFrom. split; [lia|]. exists f. by rewrite Nat.sub_0_r. }
  destruct (Forall2_lookup_l _ _ _ _ _ (survivors_kept detections hands) Hp)
    as (hand' & Hs & hand0 & f0 & Hk0 & Hf0 & Hout).
  exists p, hand'. by simplify_eq.
Qed.

Lemma processTracking_lookup_survivor now hands detections p hand' :
  survivors detections ∅ hands !! p = Some hand' →
  processTracking now hands detections !! p = Some hand'.
Proof. intros Hp. rewrite processTracking_split. by apply lookup_app_l_Some. Qed.

Lemma usedBefore_state detections hands k :
  usedBefore detections hands k =
  usedDetections (updateHands detections (take k hands)).
Proof. done. Qed.

(** ** The matched update *)

Lemma smoothed_reference hand det :
  smoothed hand det = Reference.matchedUpdate hand det.
Proof. done. Qed.

(** C3.  A hand matched to a detection in a tick turns into the reference
    update of that hand and detection: with [moveDist] the Euclidean distance
    from the detection to the position before the update and
    [adaptiveAlpha = 0.15 + (min(moveDist, 150) / 150) * (0.8 - 0.15)], the
    position moves from the old one toward the detection by [adaptiveAlpha],
    the velocity is the new position minus the old one, [side] is the
    detection's, [framesMissing] is 0, [alpha] is 1.0 and [framesDetected]
    grows by one.  That is the object the loop body pushes, and it is in the
    next store at the place of the hand among the hands that stay. *)
Theorem matched_update_is_reference
    (now : nat → Z) (detections : list Det.t) (hands : list Hand.t)
    (k idx : nat) :
  (k, idx) ∈ matches detections hands →
  ∃ hand det p,
    hands !! k = Some hand ∧ detections !! idx = Some det
    ∧ updateHand detections (updateHands detections (take k hands)) hand =
      push (Reference.matchedUpdate hand det)
           (use idx (updateHands detections (take k hands)))
    ∧ keptPositions detections hands !! p = Some k
    ∧ processTracking now hands detections !! p =
      Some (Reference.matchedUpdate hand det).
Proof.
  intros (hand & Hk & Hbest)%elem_of_matches.
  destruct (bestIdx_lookup _ _ _ _ Hbest) as [det Hdet].
  destruct (kept_survives detections hands k hand (Matched idx))
    as (p & hand' & Hp & Hs & Hout); [done| |done|].
  { rewrite (fates_lookup _ _ _ _ Hk). f_equal. by apply fate_matched. }
  simpl in Hout. rewrite Hdet in Hout. simpl in Hout. simplify_eq.
  exists hand, det, p. split_and!; try done.
  - unfold updateHand. rewrite <-usedBefore_state, Hbest, Hdet. done.
  - by apply processTracking_lookup_survivor.
Qed.

(** ** The missing branch *)

Lemma coasted_reference hand : coasted hand = Reference.missingUpdate hand.
Proof.
  unfold coasted, Reference.missingUpdate, fade. f_equal.
  destruct (GRACE_PERIOD <? Hand.framesMissing hand + 1)%Z eqn:Hlt.
  - apply Z.ltb_lt in Hlt. by rewrite decide_True.
  - apply Z.ltb_ge in Hlt. by rewrite decide_False by lia.
Qed.

Lemma missingUpdate_iter_framesMissing n hand :
  Hand.framesMissing (Nat.iter n Reference.missingUpdate hand) =
  (Hand.framesMissing hand + Z.of_nat n)%Z.
Proof.
  induction n as [|n IH]; simpl; [lia|]. rewrite IH. lia.
Qed.

Lemma missingUpdate_iter_alpha n hand :
  Hand.alpha (Nat.iter (S n) Reference.missingUpdate hand) =
  fade (Hand.framesMissing hand + Z.of_nat (S n))
       (Hand.alpha (Nat.iter n Reference.missingUpdate hand)).
Proof.
  simpl. rewrite missingUpdate_iter_framesMissing. unfold fade.
  replace (Hand.framesMissing hand + Z.of_nat n + 1)%Z
    with (Hand.framesMissing hand + Z.pos (Pos.of_succ_nat n))%Z by lia.
  destruct (GRACE_PERIOD <? _)%Z eqn:Hlt.
  - apply Z.ltb_lt in Hlt. by rewrite decide_True.
  - apply Z.ltb_ge in Hlt. by rewrite decide_False by lia.
Qed.

(** The visibility of a hand that was fully visible with no miss on record,
    after [n] missing-branch updates in a row. *)
Lemma alpha_after_misses hand :
  Hand.framesMissing hand = 0%Z → Hand.alpha hand = 1.0%float →
  (∀ n, 1 ≤ n ≤ 5 →
     Hand.alpha (Nat.iter n Reference.missingUpdate hand) = 1.0%float)
  ∧ Hand.alpha (Nat.iter 6 Reference.missingUpdate hand) = 0.9%float
  ∧ Hand.alpha (Nat.iter 7 Reference.missingUpdate hand) = 0.8%float.
Proof.
  intros Hfm Ha.
  assert (∀ n, n ≤ 5 →
            Hand.alpha (Nat.iter n Reference.missingUpdate hand) = 1.0%float)
    as Hgrace.
  { induction n as [|n IH]; intros Hn; [done|].
    rewrite missingUpdate_iter_alpha, IH, Hfm by lia.
    unfold fade. by rewrite (proj2 (Z.ltb_ge _ _)) by (unfold GRACE_PERIOD; lia). }
  assert (Hand.alpha (Nat.iter 6 Reference.missingUpdate hand) = 0.9%float) as H6.
  { rewrite missingUpdate_iter_alpha, Hgrace, Hfm by lia. done. }
  split_and!; [intros; apply Hgrace; lia|done|].
  rewrite missingUpdate_iter_alpha, H6, Hfm. done.
Qed.

Lemma processTracking_alone_unseen now hand :
  (Hand.framesMissing hand < PERSISTENCE_FRAMES)%Z →
  processTracking now [hand] [] = [Reference.missingUpdate hand].
Proof.
  intros Hfm%Z.ltb_lt. unfold processTracking, forEach, updateHands. simpl.
  unfold updateHand, bestIdx, findBest, forEach. simpl. rewrite Hfm. simpl.
  by rewrite coasted_reference.
Qed.

Lemma quietFrames_S from n :
  quietFrames from (S n) =
  quietFrames from n ++ [mkFrame (reading (from + 16 * Z.of_nat n)) []].
Proof. unfold quietFrames. by rewrite seq_S, fmap_app. Qed.

(** A hand alone in the store through [n] frames without detections. *)
Lemma run_alone_unseen from n hand :
  (Hand.framesMissing hand + Z.of_nat n ≤ PERSISTENCE_FRAMES)%Z →
  run [hand] (quietFrames from n) = [Nat.iter n Reference.missingUpdate hand].
Proof.
  induction n as [|n IH]; intros Hn; [done|].
  rewrite quietFrames_S, run_snoc, IH by lia. unfold tick. simpl.
  apply processTracking_alone_unseen.
  rewrite missingUpdate_iter_framesMissing. lia.
Qed.

(** C4.  A hand left unmatched in a tick with [framesMissing] below
    [PERSISTENCE_FRAMES] turns into the reference missing-branch update: the
    velocity times 0.9, the position advanced by that velocity,
    [framesMissing] one more, [framesDetected] as it was, and [alpha] lowered
    by 0.1 and floored at 0 exactly when the new [framesMissing] is above
    [GRACE_PERIOD].  That is the object the loop body pushes, and it is in
    the next store at the place of the hand among the hands that stay.
    Consequently a hand that has just been matched and then goes unmatched
    keeps [alpha = 1.0] through misses 1 to 5, has 0.9 at the sixth and 0.8
    at the seventh; these are the updates the store goes through when the
    hand is alone and the frames bring no detection. *)
Theorem missing_update_is_reference :
  (∀ (now : nat → Z) (detections : list Det.t) (hands : list Hand.t)
     (k : nat) (hand : Hand.t),
     hands !! k = Some hand →
     bestIdx detections (usedBefore detections hands k) hand = None →
     (Hand.framesMissing hand < PERSISTENCE_FRAMES)%Z →
     updateHand detections (updateHands detections (take k hands)) hand =
       push (Reference.missingUpdate hand) (updateHands detections (take k hands))
     ∧ ∃ p, keptPositions detections hands !! p = Some k
            ∧ processTracking now hands detections !! p =
              Some (Reference.missingUpdate hand))
  ∧ (∀ hand,
       Hand.vx (Reference.missingUpdate hand) = (Hand.vx hand * 0.9)%float
       ∧ Hand.vy (Reference.missingUpdate hand) = (Hand.vy hand * 0.9)%float
       ∧ Hand.x (Reference.missingUpdate hand) =
         (Hand.x hand + Hand.vx hand * 0.9)%float
       ∧ Hand.y (Reference.missingUpdate hand) =
         (Hand.y hand + Hand.vy hand * 0.9)%float
       ∧ Hand.framesMissing (Reference.missingUpdate hand) =
         (Hand.framesMissing hand + 1)%Z
       ∧ Hand.framesDetected (Reference.missingUpdate hand) =
         Hand.framesDetected hand
       ∧ ((GRACE_PERIOD < Hand.framesMissing hand + 1)%Z →
          Hand.alpha (Reference.missingUpdate hand) =
          Math.max 0 (Hand.alpha hand - 0.1)%float)
       ∧ (¬ (GRACE_PERIOD < Hand.framesMissing hand + 1)%Z →
          Hand.alpha (Reference.missingUpdate hand) = Hand.alpha hand))
  ∧ (∀ hand det,
       (∀ n, 1 ≤ n ≤ 5 →
          Hand.alpha (Nat.iter n Reference.missingUpdate (smoothed hand det))
          = 1.0%float)
       ∧ Hand.alpha (Nat.iter 6 Reference.missingUpdate (smoothed hand det))
         = 0.9%float
       ∧ Hand.alpha (Nat.iter 7 Reference.missingUpdate (smoothed hand det))
         = 0.8%float
       ∧ (∀ from n, n ≤ 20 →
            run [smoothed hand det] (quietFrames from n)
            = [Nat.iter n Reference.missingUpdate (smoothed hand det)])).
Proof.
  split_and!.
  - intros now detections hands k hand Hk Hbest Hfm.
    apply Z.ltb_lt in Hfm. split.
    + unfold updateHand. rewrite <-usedBefore_state, Hbest, Hfm.
      by rewrite coasted_reference.
    + destruct (kept_survives detections hands k hand Missing)
        as (p & hand' & Hp & Hs & Hout); [done| |done|].
      { rewrite (fates_lookup _ _ _ _ Hk). unfold fate. by rewrite Hbest, Hfm. }
      simpl in Hout. rewrite coasted_reference in Hout. simplify_eq.
      exists p. split; [done|]. by apply processTracking_lookup_survivor.
  - intros hand. unfold Reference.missingUpdate. simpl. split_and!; try done.
    + intros Hlt. by rewrite decide_True.
    + intros Hge. by rewrite decide_False.
  - intros hand det.
    destruct (alpha_after_misses (smoothed hand det)) as (H5 & H6 & H7);
      [done..|].
    split_and!; [done..|].
    intros from n Hn. apply run_alone_unseen. simpl.
    unfold PERSISTENCE_FRAMES. lia.
Qed.

(** ** Invariants of the store *)

(** What a hand of the next store is: the smoothed or the coasted form of a
    hand of the store, or a fresh hand. *)
Lemma descendsFrom_cases detections hands k hand' :
  descendsFrom detections hands k hand' →
  ∃ hand, hands !! k = Some hand
    ∧ ((∃ idx det, (k, idx) ∈ matches detections hands
                   ∧ detections !! idx = Some det
                   ∧ hand' = smoothed hand det)
       ∨ (bestIdx detections (usedBefore detections hands k) hand = None
          ∧ (Hand.framesMissing hand < PERSISTENCE_FRAMES)%Z
          ∧ hand' = coasted hand)).
Proof.
  intros (hand & f & Hk & Hf & Hout). exists hand. split; [done|].
  rewrite (fates_lookup _ _ _ _ Hk) in Hf. injection Hf as <-.
  unfold fate in Hout.
  destruct (bestIdx detections (usedBefore detections hands k) hand)
    as [idx|] eqn:Hbest.
  - left. simpl in Hout. destruct (detections !! idx) as [det|] eqn:Hdet; [|done].
    exists idx, det. split_and!; [|done|by injection Hout].
    apply elem_of_matches. by exists hand.
  - right. destruct (Hand.framesMissing hand <? PERSISTENCE_FRAMES)%Z eqn:Hfm;
      [|done].
    apply Z.ltb_lt in Hfm. by injection Hout.
Qed.

Lemma processTracking_lookup now hands detections p hand' :
  processTracking now hands detections !! p = Some hand' →
  (∃ k, keptPositions detections hands !! p = Some k
        ∧ descendsFrom detections hands k hand')
  ∨ (createdAt detections hands p
     ∧ ∃ idx det,
         freeIndices detections hands
           !! (p - length (keptPositions detections hands)) = Some idx
         ∧ detections !! idx = Some det
         ∧ hand' = created (now (p - length (keptPositions detections hands)))
                           det idx).
Proof.
  rewrite processTracking_split. intros [Hs|[Hlen Hn]]%lookup_app_Some.
  - left.
    destruct (Forall2_lookup_r _ _ _ _ _ (survivors_kept detections hands) Hs)
      as (k & Hk & Hd).
    by exists k.
  - right. rewrite length_survivors in Hlen, Hn. split; [done|].
    destruct (Forall2_lookup_r _ _ _ _ _ (newcomers_free now detections hands) Hn)
      as (idx & Hidx & _).
    destruct (newcomers_lookup now detections hands _ idx Hidx)
      as (det & Hdet & Hnew).
    rewrite Hnew in Hn. injection Hn as <-. by exists idx, det.
Qed.

Lemma processTracking_Forall (P : Hand.t → Prop) now hands detections :
  (∀ hand det, P hand → P (smoothed hand det)) →
  (∀ hand, P hand → (Hand.framesMissing hand < PERSISTENCE_FRAMES)%Z →
     P (coasted hand)) →
  (∀ t det idx, P (created t det idx)) →
  Forall P hands → Forall P (processTracking now hands detections).
Proof.
  intros Hsmooth Hcoast Hnew Hall. apply Forall_lookup. intros p hand' Hp.
  apply processTracking_lookup in Hp
    as [(k & _ & Hd)|(_ & idx & det & _ & _ & ->)]; [|apply Hnew].
  apply descendsFrom_cases in Hd as (hand & Hk & Hcase).
  pose proof (Forall_lookup_1 _ _ _ _ Hall Hk) as Hhand.
  destruct Hcase as [(idx & det & _ & _ & ->)|(_ & Hfm & ->)]; auto.
Qed.

(** Induction over the stores that grow from the empty one. *)
Lemma run_Forall (P : Hand.t → Prop) frames :
  (∀ hand det, P hand → P (smoothed hand det)) →
  (∀ hand, P hand → (Hand.framesMissing hand < PERSISTENCE_FRAMES)%Z →
     P (coasted hand)) →
  (∀ t det idx, P (created t det idx)) →
  Forall P (run [] frames).
Proof.
  intros Hsmooth Hcoast Hnew.
  induction frames as [|f frames IH] using rev_ind; [constructor|].
  rewrite run_snoc. unfold tick. by apply processTracking_Forall.
Qed.

Lemma run_healthy frames : Forall healthy (run [] frames).
Proof.
  apply run_Forall; unfold healthy, PERSISTENCE_FRAMES; simpl; intros; lia.
Qed.

(** ** Visibility stays in the unit interval *)

Lemma fadeOnce_levels n :
  n < 12 → fadeOnce (Nat.iter n fadeOnce 1.0%float) ∈ alphaLevels.
Proof.
  intros Hn. unfold alphaLevels. apply list_elem_of_fmap.
  destruct (decide (n = 11)) as [->|].
  - exists 11. split; [by vm_compute|]. apply elem_of_seq. lia.
  - exists (S n). split; [done|]. apply elem_of_seq. lia.
Qed.

Lemma alphaLevels_fadeOnce alpha :
  alpha ∈ alphaLevels → fadeOnce alpha ∈ alphaLevels.
Proof.
  unfold alphaLevels at 1.
  intros (n & -> & [_ Hn]%elem_of_seq)%list_elem_of_fmap.
  by apply fadeOnce_levels.
Qed.

Lemma alphaLevels_one : 1.0%float ∈ alphaLevels.
Proof.
  unfold alphaLevels. apply list_elem_of_fmap. exists 0. split; [done|].
  apply elem_of_seq. lia.
Qed.

Lemma alphaLevels_unit : Forall inUnitInterval alphaLevels.
Proof.
  unfold alphaLevels. simpl.
  repeat (constructor; [split; vm_compute; reflexivity|]). constructor.
Qed.

Lemma run_alphaLevels frames :
  Forall (λ hand, Hand.alpha hand ∈ alphaLevels) (run [] frames).
Proof.
  apply run_Forall; simpl; intros; try apply alphaLevels_one.
  unfold fade. destruct (GRACE_PERIOD <? _)%Z; [|done].
  by apply alphaLevels_fadeOnce.
Qed.

(** C7.  In every store that grows from the empty one by ticks, whatever the
    clock readings and the detections, every hand has [0 <= alpha <= 1]. *)
Theorem alpha_in_unit_interval (frames : list Frame) :
  Forall (λ hand, inUnitInterval (Hand.alpha hand)) (run [] frames).
Proof.
  eapply Forall_impl; [apply run_alphaLevels|]. simpl. intros hand Hin.
  by apply (proj1 (Forall_forall _ _) alphaLevels_unit).
Qed.

(** ** [framesMissing] is zero for the matched and for the new *)

(** The statement that [framesMissing] is 0 only for a matched hand fails on
    the first hand ever created: the empty store and one detection give a
    store whose only hand has [framesMissing = 0], and no hand was matched. *)
Lemma framesMissing_zero_without_match :
  processTracking (reading 1000) [] [sampleDet] !! 0 = Some sampleHand
  ∧ Hand.framesMissing sampleHand = 0%Z
  ∧ ¬ matchedAt [sampleDet] [] 0.
Proof.
  split_and!; [done..|]. by intros (k & idx & Hk & _).
Qed.

(** C8, amended.  After a tick on a store that grew from the empty one, a
    hand of the next store has [framesMissing = 0] exactly when it was
    matched during the tick or created by it. *)
Theorem framesMissing_zero_iff_matched_or_created
    (frames : list Frame) (now : nat → Z) (detections : list Det.t)
    (p : nat) (hand' : Hand.t) :
  processTracking now (run [] frames) detections !! p = Some hand' →
  (Hand.framesMissing hand' = 0%Z ↔
   matchedAt detections (run [] frames) p
   ∨ createdAt detections (run [] frames) p).
Proof.
  intros Hp.
  apply processTracking_lookup in Hp
    as [(k & Hk & Hd)|(Hc & idx & det & _ & _ & ->)]; [|by split; [right|]].
  apply descendsFrom_cases in Hd as (hand & Hh & Hcase).
  destruct Hcase as [(idx & det & Hm & _ & ->)|(Hbest & Hfm & ->)].
  - split; [|done]. intros _. left. by exists k, idx.
  - pose proof (Forall_lookup_1 _ _ _ _ (run_healthy frames) Hh) as [Hpos _].
    split; [simpl; lia|].
    intros [(k' & idx & Hk' & Hm)|Hc].
    + rewrite Hk in Hk'. injection Hk' as <-.
      apply elem_of_matches in Hm as (hand0 & Hh0 & Hbest0). congruence.
    + apply lookup_lt_Some in Hk. unfold createdAt in Hc. lia.
Qed.

Lemma framesMissing_zero_iff_matched_or_created_witness :
  Hand.framesMissing (smoothed sampleHand sampleDet) = 0%Z ↔
  matchedAt [sampleDet; farDet] (run [] [mkFrame (reading 1000) [sampleDet]]) 0
  ∨ createdAt [sampleDet; farDet]
      (run [] [mkFrame (reading 1000) [sampleDet]]) 0.
Proof.
  apply (framesMissing_zero_iff_matched_or_created
           [mkFrame (reading 1000) [sampleDet]] (reading 1016)
           [sampleDet; farDet] 0
           (smoothed sampleHand sampleDet)).
  reflexivity.
Defined.

(** ** Identifiers *)

Lemma StronglySorted_sublist {A} (R : relation A) (l1 l2 : list A) :
  l1 `sublist_of` l2 → StronglySorted R l2 → StronglySorted R l1.
Proof.
  induction 1 as [|x l1 l2 Hsub IH|x l1 l2 Hsub IH]; intros Hs; [done|..].
  - apply StronglySorted_cons in Hs as [Hall Hs].
    apply StronglySorted_cons. split; [|by apply IH].
    apply Forall_forall. intros y Hy.
    apply (proj1 (Forall_forall _ _) Hall). by eapply elem_of_sublist.
  - apply StronglySorted_cons in Hs as [_ Hs]. by apply IH.
Qed.

Lemma sublist_Forall {A} (P : A → Prop) (l1 l2 : list A) :
  l1 `sublist_of` l2 → Forall P l2 → Forall P l1.
Proof.
  intros Hsub Hall. apply Forall_forall. intros y Hy.
  apply (proj1 (Forall_forall _ _) Hall). by eapply elem_of_sublist.
Qed.

Lemma StronglySorted_lt_NoDup (l : list Z) :
  StronglySorted Z.lt l → NoDup l.
Proof.
  induction 1 as [|x l Hs IH Hall]; constructor; [|done].
  intros Hin. apply (proj1 (Forall_forall _ _) Hall) in Hin. lia.
Qed.

(** An identifier of a new hand is a reading of the tick plus the index of
    a detection. *)
Lemma newcomersFrom_ids now used i n detections :
  Forall (λ x, ∃ k idx, n ≤ k < n + length detections
                        ∧ i ≤ idx < i + length detections
                        ∧ x = (now k + Z.of_nat idx)%Z)
         (ids (newcomersFrom now used i n detections)).
Proof.
  revert i n. induction detections as [|det rest IH]; intros i n; simpl;
    [constructor|].
  destruct (decide (i ∈ used)); simpl.
  - eapply Forall_impl; [apply (IH (S i) n)|]. simpl.
    intros x (k & idx & ? & ? & ->). exists k, idx. split_and!; [lia..|done].
  - constructor.
    + exists n, i. split_and!; [lia..|done].
    + eapply Forall_impl; [apply (IH (S i) (S n))|]. simpl.
      intros x (k & idx & ? & ? & ->). exists k, idx. split_and!; [lia..|done].
Qed.

Lemma newcomersFrom_sorted now used i n detections :
  (∀ a b, a ≤ b → b < n + length detections → (now a ≤ now b)%Z) →
  StronglySorted Z.lt (ids (newcomersFrom now used i n detections)).
Proof.
  revert i n. induction detections as [|det rest IH]; intros i n Hmono; simpl;
    [constructor|].
  destruct (decide (i ∈ used)); simpl.
  - apply IH. intros a b ? ?. apply Hmono; simpl; lia.
  - constructor.
    + apply IH. intros a b ? ?. apply Hmono; simpl; lia.
    + eapply Forall_impl; [apply (newcomersFrom_ids now used (S i) (S n) rest)|].
      simpl. intros x (k & idx & ? & ? & ->).
      assert (now n ≤ now k)%Z by (apply Hmono; simpl; lia). lia.
Qed.

Lemma latest_steady lo now detections :
  steady lo now (length detections) →
  (lo ≤ latest lo (mkFrame now detections))%Z.
Proof.
  intros [Hlo _]. unfold latest. simpl.
  destruct (length detections) as [|m]; [done|].
  specialize (Hlo m). lia.
Qed.

(** One tick under a clock that is past every identifier of the store. *)
Lemma processTracking_ids_sorted lo now hands detections :
  steady lo now (length detections) →
  Forall (λ x, (x < lo)%Z) (ids hands) →
  StronglySorted Z.lt (ids hands) →
  StronglySorted Z.lt (ids (processTracking now hands detections))
  ∧ Forall (λ x, (x < latest lo (mkFrame now detections))%Z)
           (ids (processTracking now hands detections)).
Proof.
  intros Hsteady Hbound Hsorted. rewrite processTracking_split.
  pose proof (latest_steady lo now detections Hsteady) as Hlatest.
  destruct Hsteady as [Hlo Hmono].
  unfold ids. rewrite fmap_app. fold (ids (survivors detections ∅ hands)).
  set (new := newcomersFrom now _ 0 0 detections). fold (ids new).
  pose proof (survivors_ids_sublist detections ∅ hands) as Hsub.
  pose proof (newcomersFrom_ids now
    (usedDetections (updateHands detections hands)) 0 0 detections) as Hnb.
  pose proof (newcomersFrom_sorted now
    (usedDetections (updateHands detections hands)) 0 0 detections Hmono) as Hns.
  fold new in Hns, Hnb.
  pose proof (sublist_Forall _ _ _ Hsub Hbound) as Hsb.
  assert (Forall (λ x, (lo ≤ x < latest lo (mkFrame now detections))%Z)
                 (ids new)) as Hnew.
  { eapply Forall_impl; [apply Hnb|]. simpl. intros x (k & idx & Hk & Hidx & ->).
    unfold latest. simpl. simpl in Hk.
    destruct (length detections) as [|m]; [lia|].
    assert (now k ≤ now m)%Z by (apply Hmono; lia).
    assert (lo ≤ now k)%Z by (apply Hlo; lia). lia. }
  split.
  - apply StronglySorted_app_2; [|by eapply StronglySorted_sublist|done].
    intros x1 x2 H1 H2.
    apply (proj1 (Forall_forall _ _) Hsb) in H1.
    apply (proj1 (Forall_forall _ _) Hnew) in H2. lia.
  - apply Forall_app. split.
    + eapply Forall_impl; [apply Hsb|]. simpl. intros; lia.
    + eapply Forall_impl; [apply Hnew|]. simpl. intros; lia.
Qed.

Lemma run_ids_sorted lo hands frames :
  clockAdvances lo frames →
  Forall (λ x, (x < lo)%Z) (ids hands) →
  StronglySorted Z.lt (ids hands) →
  StronglySorted Z.lt (ids (run hands frames)).
Proof.
  revert lo hands. induction frames as [|f rest IH]; intros lo hands; simpl.
  - done.
  - intros [Hlo Hrest] Hbound Hsorted. destruct f as [now detections].
    destruct (processTracking_ids_sorted lo now hands detections)
      as [Hs Hb]; [done..|].
    by apply (IH (latest lo (mkFrame now detections))).
Qed.

Lemma survivor_keeps_id now hands detections p k hand' :
  keptPositions detections hands !! p = Some k →
  processTracking now hands detections !! p = Some hand' →
  ∃ hand, hands !! k = Some hand ∧ Hand.id hand' = Hand.id hand.
Proof.
  intros Hk Hp.
  apply processTracking_lookup in Hp as [(k' & Hk' & Hd)|[Hc _]].
  - rewrite Hk in Hk'. injection Hk' as <-.
    destruct Hd as (hand & f & Hh & _ & Hout). exists hand. split; [done|].
    by eapply outcome_id.
  - apply lookup_lt_Some in Hk. unfold createdAt in Hc. lia.
Qed.

Lemma newcomer_gets_id now hands detections p hand' :
  createdAt detections hands p →
  processTracking now hands detections !! p = Some hand' →
  ∃ idx,
    freeIndices detections hands
      !! (p - length (keptPositions detections hands)) = Some idx
    ∧ idx < length detections
    ∧ Hand.id hand'
      = (now (p - length (keptPositions detections hands))%nat
         + Z.of_nat idx)%Z.
Proof.
  intros Hc Hp.
  apply processTracking_lookup in Hp
    as [(k & Hk & _)|(_ & idx & det & Hidx & Hdet & ->)].
  - apply lookup_lt_Some in Hk. unfold createdAt in Hc. lia.
  - exists idx. split_and!; [done|by eapply lookup_lt_Some|done].
Qed.

(** With one clock reading for two frames, the identifier of the hand
    created in the first frame is given again in the second, to a new hand
    whose detection comes first in the array. *)
Lemma ids_collide_when_clock_stands :
  ids (run [] [mkFrame (reading 1000) [sampleDet];
               mkFrame (reading 1000) [farDet; sampleDet]])
  = [1000%Z; 1000%Z].
Proof. by vm_compute. Qed.

(** A clock that never stands still is not enough.  The first tick creates
    two hands while the clock turns from 1000 ms to 1001 ms; the second hand
    is made from the reading 1001 and the index 1.  The next tick reads
    1002 ms and creates a hand from the index 0: every reading is later than
    the one before, and two hands of the store hold the identifier 1002. *)
Lemma ids_collide_though_clock_advances :
  (ticking 1000 0 < ticking 1000 1 < reading 1002 0)%Z
  ∧ ids (run [] (busyFrames 1002)) = [1000%Z; 1002%Z; 1002%Z]
  ∧ ¬ NoDup (ids (run [] (busyFrames 1002))).
Proof.
  assert (ids (run [] (busyFrames 1002)) = [1000%Z; 1002%Z; 1002%Z]) as Hids
    by by vm_compute.
  split_and!; [by vm_compute|by vm_compute|done|]. rewrite Hids. intros Hnd.
  apply NoDup_cons in Hnd as [_ Hnd].
  apply NoDup_cons in Hnd as [Hnotin _]. apply Hnotin. by left.
Qed.

(** C9, amended.  Let the clock not go back during a tick, and let it
    advance, from a tick in which something is detected to the ticks after
    it, by at least the number of its detections.  Then the identifiers of
    the hands of every store that grows from the empty one are pairwise
    distinct.  Whatever the clock, a hand that stays in the store keeps its
    identifier, and a new hand gets the reading of the clock taken for it
    (the [j]-th reading of the tick for the [j]-th new hand) plus the index
    of its detection. *)
Theorem ids_distinct_while_clock_advances :
  (∀ (lo : Z) (frames : list Frame),
     clockAdvances lo frames → NoDup (ids (run [] frames)))
  ∧ (∀ now hands detections p k hand',
       keptPositions detections hands !! p = Some k →
       processTracking now hands detections !! p = Some hand' →
       ∃ hand, hands !! k = Some hand ∧ Hand.id hand' = Hand.id hand)
  ∧ (∀ now hands detections p hand',
       createdAt detections hands p →
       processTracking now hands detections !! p = Some hand' →
       ∃ idx,
         freeIndices detections hands
           !! (p - length (keptPositions detections hands)) = Some idx
         ∧ idx < length detections
         ∧ Hand.id hand'
           = (now (p - length (keptPositions detections hands))%nat
              + Z.of_nat idx)%Z).
Proof.
  split_and!.
  - intros lo frames Hclock. apply StronglySorted_lt_NoDup.
    apply (run_ids_sorted lo); [done| |]; constructor.
  - apply survivor_keeps_id.
  - apply newcomer_gets_id.
Qed.

Lemma ids_distinct_while_clock_advances_witness :
  clockAdvances 0 (busyFrames 1016)
  ∧ NoDup (ids (run [] (busyFrames 1016))).
Proof.
  assert (clockAdvances 0 (busyFrames 1016)) as Hclock.
  { unfold busyFrames, clockAdvances, steady, latest, ticking, reading. simpl.
    split_and!; [intros; lia..|done]. }
  split; [exact Hclock|].
  exact (proj1 ids_distinct_while_clock_advances 0%Z (busyFrames 1016) Hclock).
Defined.

(** ** The notes follow the store *)

Lemma chronicle_run n hands notes frames :
  fst (chronicle n hands notes frames) = run hands frames.
Proof.
  revert n hands notes. induction frames as [|f rest IH]; intros; simpl; [done|].
  apply IH.
Qed.

Lemma chronicle_snoc n hands notes frames f :
  chronicle n hands notes (frames ++ [f]) =
  let '(hands', notes') := chronicle n hands notes frames in
  (tick hands' f, notesNext (n + length frames) (seen f) hands' notes').
Proof.
  revert n hands notes. induction frames as [|g rest IH]; intros; simpl.
  - by rewrite Nat.add_0_r.
  - rewrite IH. destruct (chronicle _ _ _ rest).
    by replace (S n + length rest) with (n + S (length rest)) by lia.
Qed.

Lemma Forall2_omap_r {A B C} (Q : A → B → Prop) (R : B → C → Prop)
    (g : A → option C) (ks : list A) (l : list B) :
  Forall2 Q ks l →
  (∀ k y, Q k y → ∃ a, g k = Some a ∧ R y a) →
  Forall2 R l (omap g ks).
Proof.
  intros HQ Hg. induction HQ as [|k y ks l Hky _ IH]; simpl; [constructor|].
  destruct (Hg k y Hky) as (a & -> & HR). by constructor.
Qed.

Lemma Forall2_omap_self {A C} (R : A → C → Prop) (g : A → option C)
    (ks : list A) :
  (∀ k, k ∈ ks → ∃ b, g k = Some b ∧ R k b) →
  Forall2 R ks (omap g ks).
Proof.
  induction ks as [|k ks IH]; intros Hg; simpl; [constructor|].
  destruct (Hg k) as (b & -> & HR); [by left|].
  constructor; [done|]. apply IH. intros k' Hk'. apply Hg. by right.
Qed.

Lemma Forall2_replicate_by {A B C} (Q : A → B → Prop) (R : B → C → Prop)
    (c : C) (l1 : list A) (l2 : list B) :
  Forall2 Q l1 l2 →
  (∀ x y, Q x y → R y c) →
  Forall2 R l2 (replicate (length l1) c).
Proof.
  intros HQ HR. induction HQ as [|x y l1 l2 Hxy _ IH]; simpl; constructor; eauto.
Qed.

Lemma StronglySorted_lookup {A} (R : relation A) (l : list A) i j x y :
  StronglySorted R l → i < j → l !! i = Some x → l !! j = Some y → R x y.
Proof.
  intros Hs. revert i j. induction Hs as [|z l Hs IH Hall]; intros i j Hij Hi Hj.
  - done.
  - destruct j as [|j]; [lia|]. simpl in Hj. destruct i as [|i]; simpl in Hi.
    + injection Hi as ->. apply (proj1 (Forall_forall _ _) Hall).
      by eapply list_elem_of_lookup_2.
    + apply (IH i j); [lia|done..].
Qed.

Lemma noteOf_born notes fs k b :
  noteOf notes fs k = Some b →
  ∃ a, notes !! k = Some a ∧ born b = born a.
Proof.
  unfold noteOf. destruct (fs !! k) as [[idx| |]|]; [| |done..];
    destruct (notes !! k) as [a|]; [|done| |done]; intros [= <-]; by exists a.
Qed.

Lemma omap_noteOf_sorted notes fs ks :
  StronglySorted lt ks →
  StronglySorted le (born <$> notes) →
  StronglySorted le (born <$> omap (noteOf notes fs) ks).
Proof.
  intros Hks Hnotes. induction Hks as [|k ks Hks IH Hall]; simpl; [constructor|].
  destruct (noteOf notes fs k) as [b|] eqn:Hb; [|done].
  simpl. constructor; [done|].
  apply Forall_forall. intros x (b' & -> & Hin)%list_elem_of_fmap.
  apply list_elem_of_omap in Hin as (k' & Hk' & Hb').
  apply (proj1 (Forall_forall _ _) Hall) in Hk'.
  apply noteOf_born in Hb as (a & Ha & ->).
  apply noteOf_born in Hb' as (a' & Ha' & ->).
  apply (StronglySorted_lookup le (born <$> notes) k k'); [done..| |].
  - by rewrite list_lookup_fmap, Ha.
  - by rewrite list_lookup_fmap, Ha'.
Qed.

(** One tick keeps the notes in step with the store. *)
Lemma recorded_tick n hands notes f :
  recorded n hands notes →
  recorded (S n) (tick hands f) (notesNext n (seen f) hands notes).
Proof.
  intros [Hnotes Hsorted]. unfold tick, notesNext.
  rewrite processTracking_split.
  set (fs := fates (seen f) ∅ hands).
  assert (Forall2 (λ hand a, Hand.framesMissing hand = Z.of_nat (misses a)
                             ∧ misses a ≤ 20 ∧ born a < n)
            (survivors (seen f) ∅ hands)
            (omap (noteOf notes fs) (keptPositions (seen f) hands))) as Hold.
  { eapply Forall2_omap_r; [apply survivors_kept|].
    intros k hand' Hd.
    pose proof Hd as (hand0 & f0 & Hk0 & Hf0 & _).
    apply descendsFrom_cases in Hd as (hand & Hk & Hcase).
    destruct (Forall2_lookup_l _ _ _ _ _ Hnotes Hk) as (a & Ha & Hfm & Hm & Hb).
    unfold noteOf. fold fs in Hf0. rewrite Hf0, Ha.
    unfold fs in Hf0. rewrite (fates_lookup _ _ _ _ Hk) in Hf0.
    injection Hf0 as <-.
    destruct Hcase as [(idx & det & Hm' & _ & ->)|(Hbest & Hlt & ->)].
    - apply elem_of_matches in Hm' as (? & ? & Hbest). simplify_eq.
      apply fate_matched in Hbest. rewrite Hbest.
      eexists. split; [done|]. simpl. split_and!; [done|lia|done].
    - unfold fate. rewrite Hbest, (proj2 (Z.ltb_lt _ _) Hlt).
      eexists. split; [done|]. simpl. unfold PERSISTENCE_FRAMES in Hlt.
      split_and!; [lia|lia|done]. }
  split.
  - apply Forall2_app.
    + eapply Forall2_impl; [apply Hold|]. simpl. intros ?? (? & ? & ?).
      split_and!; [done..|lia].
    + eapply Forall2_replicate_by; [apply newcomers_free|].
      simpl. intros idx hand' (j & det & _ & ->). simpl.
      split_and!; [done|lia..].
  - rewrite fmap_app, fmap_replicate. simpl.
    apply StronglySorted_app_2.
    + intros x1 x2 (b & -> & Hin)%list_elem_of_fmap Hx2.
      apply elem_of_replicate in Hx2 as [-> _].
      apply list_elem_of_lookup in Hin as [p Hp].
      destruct (Forall2_lookup_r _ _ _ _ _ Hold Hp) as (? & _ & _ & _ & ?). lia.
    + apply omap_noteOf_sorted; [apply keptFrom_sorted|done].
    + generalize (length (freeIndices (seen f) hands)) as m.
      induction m as [|m IH]; simpl; constructor; [done|].
      apply Forall_forall. intros x [-> _]%elem_of_replicate. done.
Qed.

Lemma recorded_chronicle frames :
  recorded (length frames) (run [] frames) (history frames).
Proof.
  unfold history. induction frames as [|f frames IH] using rev_ind.
  - split; constructor.
  - rewrite run_snoc, chronicle_snoc, length_app. simpl.
    pose proof (chronicle_run 0 [] [] frames) as Hrun.
    destruct (chronicle 0 [] [] frames) as [hands notes]. simpl in *. subst hands.
    rewrite Nat.add_1_r. by apply recorded_tick.
Qed.

(** ** Order of the store *)

Lemma usedBefore_mono detections hands k k' :
  k ≤ k' → usedBefore detections hands k ⊆ usedBefore detections hands k'.
Proof.
  intros Hle. rewrite !usedBefore_claimed.
  set (fs := fates detections ∅ hands).
  rewrite <-(take_drop k (take k' fs)), take_take.
  replace (k `min` k') with k by lia.
  unfold claimedBy. rewrite foldl_app. apply claimedBy_subseteq.
Qed.

Lemma length_processTracking now hands detections :
  length (processTracking now hands detections) =
  length (keptPositions detections hands) + length (freeIndices detections hands).
Proof.
  rewrite processTracking_split, length_app, length_survivors. f_equal.
  symmetry. eapply Forall2_length, newcomers_free.
Qed.

Lemma notesNext_lookup_kept n detections hands notes p k a :
  length notes = length hands →
  keptPositions detections hands !! p = Some k →
  notes !! k = Some a →
  born <$> notesNext n detections hands notes !! p = Some (born a).
Proof.
  intros Hlen Hp Ha. unfold notesNext.
  assert (Forall2 (λ (k : nat) (b : Note), ∀ a, notes !! k = Some a → born b = born a)
            (keptPositions detections hands)
            (omap (noteOf notes (fates detections ∅ hands))
                  (keptPositions detections hands))) as Hall.
  { apply Forall2_omap_self. intros k0 Hin.
    apply elem_of_keptFrom in Hin as (_ & f0 & Hf0 & Hkept).
    rewrite Nat.sub_0_r in Hf0. unfold noteOf. rewrite Hf0.
    destruct (notes !! k0) as [a0|] eqn:Ha0.
    - destruct f0; [| |done]; eexists; (split; [done|]); by intros ? [= <-].
    - apply lookup_ge_None in Ha0. apply lookup_lt_Some in Hf0.
      rewrite length_fates in Hf0. lia. }
  destruct (Forall2_lookup_l _ _ _ _ _ Hall Hp) as (b & Hb & Hborn).
  rewrite lookup_app_l by by eapply lookup_lt_Some.
  rewrite Hb. simpl. f_equal. by apply Hborn.
Qed.

Lemma notesNext_lookup_new n detections hands notes p b :
  length notes = length hands →
  length (keptPositions detections hands) ≤ p →
  notesNext n detections hands notes !! p = Some b → born b = n.
Proof.
  intros Hlen Hp. unfold notesNext. intros [Hold|[_ Hnew]]%lookup_app_Some.
  - apply lookup_lt_Some in Hold.
    assert (length (omap (noteOf notes (fates detections ∅ hands))
                         (keptPositions detections hands))
            ≤ length (keptPositions detections hands)); [|lia].
    generalize (keptPositions detections hands) as ks.
    induction ks as [|k ks IH]; [done|]. unfold omap in *. simpl.
    destruct (noteOf _ _ _); simpl; lia.
  - by apply lookup_replicate in Hnew as [-> _].
Qed.

(** C10.  The next store is the hands that stay, in the order they had in
    the store, each holding the identifier it had, followed by one new hand
    for every detection that no hand claimed, in the order of the detection
    array (the [j]-th of them made with the [j]-th reading of the clock).
    Hence, with the tick that created each hand noted beside the
    store (a hand that stays keeps its note, a new hand is noted with the
    current tick), creation ticks never decrease along a store that grew
    from the empty one: the oldest hand is first.  The first loop takes the
    hands in that order: the first hand chooses with no detection claimed,
    and every hand chooses against what the hands before it claimed. *)
Theorem store_order_oldest_first :
  (∀ (now : nat → Z) (hands : list Hand.t) (detections : list Det.t),
     let next := processTracking now hands detections in
     let ks := keptPositions detections hands in
     let free := freeIndices detections hands in
     StronglySorted lt ks ∧ StronglySorted lt free
     ∧ length next = length ks + length free
     ∧ Forall2 (λ k hand', ∃ hand, hands !! k = Some hand
                  ∧ Hand.id hand' = Hand.id hand
                  ∧ (hand' = coasted hand ∨ ∃ det, hand' = smoothed hand det))
               ks (take (length ks) next)
     ∧ (∀ j idx, free !! j = Some idx →
          ∃ det, detections !! idx = Some det
                 ∧ drop (length ks) next !! j
                   = Some (created (now j) det idx)))
  ∧ (∀ (n : nat) (detections : list Det.t) (hands : list Hand.t)
       (notes : list Note),
       length notes = length hands →
       (∀ p k a, keptPositions detections hands !! p = Some k →
                 notes !! k = Some a →
                 born <$> notesNext n detections hands notes !! p = Some (born a))
       ∧ (∀ p b, length (keptPositions detections hands) ≤ p →
                 notesNext n detections hands notes !! p = Some b → born b = n))
  ∧ (∀ frames : list Frame,
       length (history frames) = length (run [] frames)
       ∧ StronglySorted le (born <$> history frames))
  ∧ (∀ (detections : list Det.t) (hands : list Hand.t),
       usedBefore detections hands 0 = ∅
       ∧ (∀ k k', k ≤ k' →
            usedBefore detections hands k ⊆ usedBefore detections hands k')
       ∧ (∀ k hand, hands !! k = Some hand →
            fates detections ∅ hands !! k
            = Some (fate detections (usedBefore detections hands k) hand))).
Proof.
  split_and!.
  - intros now hands detections next ks free.
    assert (next = survivors detections ∅ hands
                   ++ newcomersFrom now
                        (usedDetections (updateHands detections hands)) 0 0
                        detections)
      as Hnext by apply processTracking_split.
    assert (length (survivors detections ∅ hands) = length ks) as Hlen
      by apply length_survivors.
    split_and!.
    + apply keptFrom_sorted.
    + apply freeIndices_sorted.
    + apply length_processTracking.
    + rewrite Hnext, <-Hlen, take_app_length.
      eapply Forall2_impl; [apply survivors_kept|]. simpl.
      intros k hand' Hd. pose proof Hd as (hand0 & f0 & Hk0 & _ & Hout).
      apply descendsFrom_cases in Hd as (hand & Hk & Hcase). simplify_eq.
      exists hand. split_and!; [done|by eapply outcome_id|].
      destruct Hcase as [(idx & det & _ & _ & ->)|(_ & _ & ->)]; eauto.
    + rewrite Hnext, <-Hlen, drop_app_length. apply newcomers_lookup.
  - intros n detections hands notes Hlen. split.
    + intros p k a. by apply notesNext_lookup_kept.
    + intros p b. by apply notesNext_lookup_new.
  - intros frames. destruct (recorded_chronicle frames) as [Hall Hsorted].
    split; [|done]. symmetry. by eapply Forall2_length.
  - intros detections hands. split_and!.
    + apply usedBefore_0.
    + apply usedBefore_mono.
    + apply fates_lookup.
Qed.

(** ** Eviction *)

Lemma notesNext_lookup n detections hands notes p k :
  length notes = length hands →
  keptPositions detections hands !! p = Some k →
  notesNext n detections hands notes !! p =
  noteOf notes (fates detections ∅ hands) k
  ∧ is_Some (noteOf notes (fates detections ∅ hands) k).
Proof.
  intros Hlen Hp. unfold notesNext.
  assert (Forall2 (λ k b, noteOf notes (fates detections ∅ hands) k = Some b)
            (keptPositions detections hands)
            (omap (noteOf notes (fates detections ∅ hands))
                  (keptPositions detections hands))) as Hall.
  { apply Forall2_omap_self. intros k0 Hin.
    apply elem_of_keptFrom in Hin as (_ & f0 & Hf0 & Hkept).
    rewrite Nat.sub_0_r in Hf0. unfold noteOf. rewrite Hf0.
    destruct (notes !! k0) as [a0|] eqn:Ha0.
    - destruct f0; [| |done]; by eexists.
    - apply lookup_ge_None in Ha0. apply lookup_lt_Some in Hf0.
      rewrite length_fates in Hf0. lia. }
  destruct (Forall2_lookup_l _ _ _ _ _ Hall Hp) as (b & Hb & ->).
  rewrite lookup_app_l by by eapply lookup_lt_Some.
  split; [done|by eexists].
Qed.

(** An evicted hand leaves no trace: the tick goes on as if the hand had
    not been in the store. *)
Lemma evicted_as_if_absent now detections hands k hand :
  hands !! k = Some hand →
  fates detections ∅ hands !! k = Some Evicted →
  processTracking now hands detections =
  processTracking now (delete k hands) detections.
Proof.
  intros Hk Hf. rewrite (fates_lookup _ _ _ _ Hk) in Hf. injection Hf as Hf.
  unfold processTracking. f_equal. f_equal.
  rewrite <-(take_drop_middle hands k hand Hk) at 1.
  rewrite delete_take_drop. unfold updateHands. rewrite !foldl_app. simpl.
  f_equal. rewrite updateHand_fate. fold (updateHands detections (take k hands)).
  rewrite <-usedBefore_state, Hf. simpl. rewrite app_nil_r.
  rewrite usedBefore_state. by destruct (updateHands detections (take k hands)).
Qed.

Lemma evicted_iff detections hands k hand :
  hands !! k = Some hand →
  k ∉ keptPositions detections hands ↔
  bestIdx detections (usedBefore detections hands k) hand = None
  ∧ (PERSISTENCE_FRAMES ≤ Hand.framesMissing hand)%Z.
Proof.
  intros Hk. unfold keptPositions. rewrite elem_of_keptFrom, Nat.sub_0_r.
  rewrite (fates_lookup _ _ _ _ Hk). unfold fate.
  destruct (bestIdx detections (usedBefore detections hands k) hand) as [idx|].
  - split; [|by intros [? _]]. intros Hn. exfalso. apply Hn.
    split; [lia|]. by eexists.
  - destruct (Hand.framesMissing hand <? PERSISTENCE_FRAMES)%Z eqn:Hfm.
    + apply Z.ltb_lt in Hfm. split; [|intros [_ ?]; lia].
      intros Hn. exfalso. apply Hn. split; [lia|]. by eexists.
    + apply Z.ltb_ge in Hfm. split; [done|].
      intros _ (_ & f & [= <-] & Hkept). done.
Qed.

Lemma clockAdvances_app lo frames1 frames2 :
  clockAdvances lo (frames1 ++ frames2) ↔
  clockAdvances lo frames1 ∧ clockAdvances (clockAfter lo frames1) frames2.
Proof.
  revert lo. induction frames1 as [|f rest IH]; intros lo; simpl.
  - unfold clockAfter. simpl. tauto.
  - rewrite IH. unfold clockAfter. simpl. tauto.
Qed.

Lemma run_ids_bounded lo hands frames :
  clockAdvances lo frames →
  Forall (λ x, (x < lo)%Z) (ids hands) →
  StronglySorted Z.lt (ids hands) →
  StronglySorted Z.lt (ids (run hands frames))
  ∧ Forall (λ x, (x < clockAfter lo frames)%Z) (ids (run hands frames)).
Proof.
  revert lo hands. induction frames as [|f rest IH]; intros lo hands; simpl.
  - done.
  - intros [Hlo Hrest] Hbound Hsorted. destruct f as [now detections].
    destruct (processTracking_ids_sorted lo now hands detections)
      as [Hs Hb]; [done..|].
    by apply (IH (latest lo (mkFrame now detections))).
Qed.

(** Under an advancing clock every reading is at least what the clock had
    to show at the start. *)
Lemma clockAdvances_later lo frames :
  clockAdvances lo frames →
  Forall (λ f, ∀ j, j < length (seen f) → (lo ≤ clock f j)%Z) frames.
Proof.
  revert lo. induction frames as [|f rest IH]; intros lo; simpl; [constructor|].
  intros [Hsteady Hrest]. constructor; [apply Hsteady|].
  destruct f as [now detections].
  pose proof (latest_steady lo now detections Hsteady) as Hlatest.
  eapply Forall_impl; [by apply IH|]. simpl. intros g Hg j Hj.
  specialize (Hg j Hj). lia.
Qed.

(** An identifier that is not in the store, and is below every reading of a
    tick, is not in the next store. *)
Lemma processTracking_id_absent now hands detections i :
  i ∉ ids hands →
  (∀ j, j < length detections → (i < now j)%Z) →
  i ∉ ids (processTracking now hands detections).
Proof.
  intros Hout Hlt. rewrite processTracking_split. unfold ids.
  rewrite fmap_app, elem_of_app. intros [Hin|Hin].
  - apply Hout. eapply elem_of_sublist; [done|]. apply survivors_ids_sublist.
  - pose proof (newcomersFrom_ids now
      (usedDetections (updateHands detections hands)) 0 0 detections) as Hall.
    apply (proj1 (Forall_forall _ _) Hall) in Hin
      as (k & idx & Hk & _ & Heq).
    specialize (Hlt k). simpl in Hk. lia.
Qed.

Lemma run_id_absent hands frames i :
  i ∉ ids hands →
  Forall (λ f, ∀ j, j < length (seen f) → (i < clock f j)%Z) frames →
  i ∉ ids (run hands frames).
Proof.
  revert hands. induction frames as [|f rest IH]; intros hands; simpl.
  - done.
  - intros Hout [Hf Hrest]%Forall_cons. apply IH; [|done].
    by apply processTracking_id_absent.
Qed.

Lemma evicted_id_absent now hands detections k hand :
  NoDup (ids hands) →
  hands !! k = Some hand →
  k ∉ keptPositions detections hands →
  (∀ j, j < length detections → (Hand.id hand < now j)%Z) →
  Hand.id hand ∉ ids (processTracking now hands detections).
Proof.
  intros Hnd Hk Hgone Hlt. rewrite processTracking_split. unfold ids.
  rewrite fmap_app, elem_of_app. intros [Hin|Hin].
  - apply list_elem_of_fmap in Hin as (hand' & Hid & Hin).
    apply list_elem_of_lookup in Hin as [p Hp].
    destruct (Forall2_lookup_r _ _ _ _ _ (survivors_kept detections hands) Hp)
      as (k' & Hk' & hand0 & f0 & Hh0 & _ & Hout).
    apply outcome_id in Hout.
    assert (k' = k) as ->.
    { apply (NoDup_lookup _ _ _ (Hand.id hand) Hnd); unfold ids;
        rewrite list_lookup_fmap; [rewrite Hh0|rewrite Hk]; simpl; congruence. }
    apply Hgone. by eapply list_elem_of_lookup_2.
  - pose proof (newcomersFrom_ids now
      (usedDetections (updateHands detections hands)) 0 0 detections) as Hall.
    apply (proj1 (Forall_forall _ _) Hall) in Hin
      as (j & idx & Hj & _ & Heq).
    specialize (Hlt j). simpl in Hj. lia.
Qed.

(** The identifier of a hand that a tick drops is in no later store, when
    the identifiers of the store were distinct and every reading of the
    clock from that tick on is later than the identifier. *)
Lemma evicted_never_back frames1 f frames2 k hand :
  NoDup (ids (run [] frames1)) →
  run [] frames1 !! k = Some hand →
  k ∉ keptPositions (seen f) (run [] frames1) →
  Forall (λ g, ∀ j, j < length (seen g) → (Hand.id hand < clock g j)%Z)
         (f :: frames2) →
  Hand.id hand ∉ ids (run [] (frames1 ++ f :: frames2)).
Proof.
  intros Hnd Hk Hgone [Hf Hlater]%Forall_cons. rewrite run_app. simpl.
  apply run_id_absent; [|done]. by apply evicted_id_absent with k.
Qed.

(** When the wall clock is set back to the reading that made the identifier
    of an evicted hand, the identifier is given again: the hand created at
    1000 ms is evicted by its 21st miss at 1336 ms, and a detection seen
    with the clock back at 1000 ms makes a hand with its identifier. *)
Lemma evicted_id_returns_when_clock_set_back :
  run [] fadingFrames !! 0 = Some (Nat.iter 20 coasted sampleHand)
  ∧ Hand.id (Nat.iter 20 coasted sampleHand) = 1000%Z
  ∧ (0 ∉ keptPositions [] (run [] fadingFrames))
  ∧ run [] (fadingFrames ++ [mkFrame (reading 1336) []]) = []
  ∧ Hand.id (Nat.iter 20 coasted sampleHand)
    ∈ ids (run [] (fadingFrames ++ mkFrame (reading 1336) []
                                :: [mkFrame (reading 1000) [sampleDet]])).
Proof.
  split_and!; [by vm_compute..| | by vm_compute |].
  - assert (keptPositions [] (run [] fadingFrames) = []) as -> by by vm_compute.
    apply not_elem_of_nil.
  - assert (ids (run [] (fadingFrames
                         ++ mkFrame (reading 1336) []
                            :: [mkFrame (reading 1000) [sampleDet]]))
            = [1000%Z]) as -> by by vm_compute.
    assert (Hand.id (Nat.iter 20 coasted sampleHand) = 1000%Z) as ->
      by by vm_compute.
    by left.
Qed.

(** C2, amended.  In a store that grew from the empty one, [framesMissing]
    of a hand is the number of ticks in a row it has gone unmatched, and is
    at most 20.  A hand has no place in the next store exactly when it goes
    unmatched in a tick that finds it with 20 misses in a row: it is dropped
    by its 21st miss, not by its 20th; and the tick then goes on as if the
    hand had not been in the store.  The run of misses is 0 after a match
    and for a new hand, and one more after every other tick the hand stays.
    The identifier of a dropped hand is in no later store, whatever is
    detected, when the identifiers of the store were distinct at the drop
    and every reading that the clock gives from the dropping tick on is
    later than the identifier; both hold when the clock does not go back
    during a tick and advances between ticks by at least the number of
    detections of the earlier tick. *)
Theorem evicted_by_21st_miss_for_good :
  (∀ (frames : list Frame) (now : nat → Z) (detections : list Det.t)
     (k : nat) (hand : Hand.t) (a : Note),
     run [] frames !! k = Some hand →
     history frames !! k = Some a →
     Hand.framesMissing hand = Z.of_nat (misses a) ∧ misses a ≤ 20
     ∧ (k ∉ keptPositions detections (run [] frames) ↔
        bestIdx detections (usedBefore detections (run [] frames) k) hand = None
        ∧ misses a = 20)
     ∧ (k ∉ keptPositions detections (run [] frames) →
        processTracking now (run [] frames) detections =
        processTracking now (delete k (run [] frames)) detections))
  ∧ (∀ (n : nat) (detections : list Det.t) (hands : list Hand.t)
       (notes : list Note),
       length notes = length hands →
       (∀ p k a, keptPositions detections hands !! p = Some k →
          notes !! k = Some a →
          misses <$> notesNext n detections hands notes !! p =
          Some (match fates detections ∅ hands !! k with
                | Some (Matched _) => 0
                | _ => S (misses a)
                end))
       ∧ (∀ p b, length (keptPositions detections hands) ≤ p →
            notesNext n detections hands notes !! p = Some b → misses b = 0))
  ∧ (∀ (frames1 : list Frame) (f : Frame) (frames2 : list Frame)
       (k : nat) (hand : Hand.t),
       NoDup (ids (run [] frames1)) →
       run [] frames1 !! k = Some hand →
       k ∉ keptPositions (seen f) (run [] frames1) →
       Forall (λ g, ∀ j, j < length (seen g) → (Hand.id hand < clock g j)%Z)
              (f :: frames2) →
       Hand.id hand ∉ ids (run [] (frames1 ++ f :: frames2)))
  ∧ (∀ (lo : Z) (frames1 : list Frame) (f : Frame) (frames2 : list Frame)
       (k : nat) (hand : Hand.t),
       clockAdvances lo (frames1 ++ f :: frames2) →
       run [] frames1 !! k = Some hand →
       k ∉ keptPositions (seen f) (run [] frames1) →
       Hand.id hand ∉ ids (run [] (frames1 ++ f :: frames2))).
Proof.
  split_and!.
  - intros frames now detections k hand a Hk Ha.
    destruct (recorded_chronicle frames) as [Hall _].
    destruct (Forall2_lookup_l _ _ _ _ _ Hall Hk) as (a' & Ha' & Hfm & Hm & _).
    simplify_eq. split_and!; [done..| |].
    + rewrite (evicted_iff _ _ _ _ Hk). unfold PERSISTENCE_FRAMES.
      split; intros [? ?]; (split; [done|lia]).
    + intros Hgone. apply evicted_as_if_absent with hand; [done|].
      apply (evicted_iff _ _ _ _ Hk) in Hgone as [Hbest Hfm'].
      rewrite (fates_lookup _ _ _ _ Hk). unfold fate.
      by rewrite Hbest, (proj2 (Z.ltb_ge _ _) Hfm').
  - intros n detections hands notes Hlen. split.
    + intros p k a Hp Ha.
      destruct (notesNext_lookup n detections hands notes p k Hlen Hp)
        as [-> [b Hb]].
      rewrite Hb. unfold noteOf in Hb. rewrite Ha in Hb. simpl.
      destruct (fates detections ∅ hands !! k) as [[idx| |]|]; by simplify_eq.
    + intros p b Hp. unfold notesNext.
      intros [Hold|[_ Hnew]]%lookup_app_Some.
      * apply lookup_lt_Some in Hold.
        assert (length (omap (noteOf notes (fates detections ∅ hands))
                             (keptPositions detections hands))
                ≤ length (keptPositions detections hands)); [|lia].
        generalize (keptPositions detections hands) as ks.
        induction ks as [|k ks IH]; [done|]. unfold omap in *. simpl.
        destruct (noteOf _ _ _); simpl; lia.
      * by apply lookup_replicate in Hnew as [-> _].
  - apply evicted_never_back.
  - intros lo frames1 f frames2 k hand Hclock Hk Hgone.
    apply clockAdvances_app in Hclock as [Hc1 Hc2].
    destruct (run_ids_bounded lo [] frames1 Hc1) as [Hsorted Hbound];
      [constructor..|].
    assert (Hand.id hand < clockAfter lo frames1)%Z as Hlt.
    { apply (proj1 (Forall_forall _ _) Hbound). unfold ids.
      apply list_elem_of_fmap. exists hand. split; [done|].
      by eapply list_elem_of_lookup_2. }
    apply evicted_never_back with k; [|done..|].
    + by apply StronglySorted_lt_NoDup.
    + eapply Forall_impl; [by apply clockAdvances_later|]. simpl.
      intros g Hg j Hj. specialize (Hg j Hj). lia.
Qed.

Lemma evicted_by_21st_miss_for_good_witness :
  (NoDup (ids (run [] fadingFrames))
   ∧ run [] fadingFrames !! 0 = Some (Nat.iter 20 coasted sampleHand)
   ∧ (0 ∉ keptPositions (seen (mkFrame (reading 1336) []))
                        (run [] fadingFrames))
   ∧ Forall (λ g, ∀ j, j < length (seen g) →
                       (Hand.id (Nat.iter 20 coasted sampleHand) < clock g j)%Z)
            [mkFrame (reading 1336) []; mkFrame (ticking 2000) [sampleDet; farDet]])
  ∧ Hand.id (Nat.iter 20 coasted sampleHand)
    ∉ ids (run [] (fadingFrames ++ mkFrame (reading 1336) []
                   :: [mkFrame (ticking 2000) [sampleDet; farDet]])).
Proof.
  assert (run [] fadingFrames = [Nat.iter 20 coasted sampleHand]) as Hrun
    by by vm_compute.
  assert (NoDup (ids (run [] fadingFrames))) as Hnd.
  { rewrite Hrun. apply NoDup_singleton. }
  assert (run [] fadingFrames !! 0 = Some (Nat.iter 20 coasted sampleHand))
    as Hk by by rewrite Hrun.
  assert (0 ∉ keptPositions (seen (mkFrame (reading 1336) []))
                            (run [] fadingFrames)) as Hgone.
  { change (seen (mkFrame (reading 1336) [])) with (@nil Det.t).
    assert (keptPositions [] (run [] fadingFrames) = []) as -> by by vm_compute.
    apply not_elem_of_nil. }
  assert (Forall (λ g, ∀ j, j < length (seen g) →
                    (Hand.id (Nat.iter 20 coasted sampleHand) < clock g j)%Z)
            [mkFrame (reading 1336) [];
             mkFrame (ticking 2000) [sampleDet; farDet]]) as Hlater.
  { assert (Hand.id (Nat.iter 20 coasted sampleHand) = 1000%Z) as ->
      by by vm_compute.
    repeat constructor; unfold ticking, reading; simpl; intros; lia. }
  split; [by split_and!|].
  exact (proj1 (proj2 (proj2 evicted_by_21st_miss_for_good)) fadingFrames
           (mkFrame (reading 1336) [])
           [mkFrame (ticking 2000) [sampleDet; farDet]] 0
           (Nat.iter 20 coasted sampleHand) Hnd Hk Hgone Hlater).
Defined.

(** ** The clock is the only thing the caller does not supply *)

Lemma created_shift t1 t2 det idx :
  created t2 det idx = shiftId (t2 - t1) (created t1 det idx).
Proof. unfold created, shiftId. simpl. f_equal. lia. Qed.

(** The second loop looks at no reading beyond those it takes. *)
Lemma newcomersFrom_ext now1 now2 used i n detections :
  (∀ k, n ≤ k < n + length (newcomersFrom now1 used i n detections) →
        now1 k = now2 k) →
  newcomersFrom now1 used i n detections
  = newcomersFrom now2 used i n detections.
Proof.
  revert i n. induction detections as [|det rest IH]; intros i n; simpl;
    [done|].
  destruct (decide (i ∈ used)); simpl.
  - apply IH.
  - intros Hsame. rewrite (Hsame n) by lia. f_equal.
    apply IH. intros k Hk. apply Hsame. lia.
Qed.

(** The same store and the same detections give two different next stores
    when the clock reads 1000 ms and when it reads 1016 ms.  And the callback
    is not free of effects on what is around it: besides reading the clock
    and replacing the store it makes the tracking service note the time of
    the video. *)
Lemma tick_depends_on_clock :
  ticksTo [] [sampleDet] (processTracking (reading 1000) [] [sampleDet])
  ∧ ticksTo [] [sampleDet] (processTracking (reading 1016) [] [sampleDet])
  ∧ processTracking (reading 1000) [] [sampleDet]
    ≠ processTracking (reading 1016) [] [sampleDet]
  ∧ Service.lastVideoTime
      (processTrackingFrame true true (Service.mk true (-1)%float)
         (Video.mk 0.5%float 4) (Result.mk [] []) (reading 1000) []).1
    = 0.5%float.
Proof.
  split_and!; [by eexists..| |reflexivity].
  vm_compute. intros Heq. discriminate Heq.
Qed.

(** C1, amended.  The next store is a function of the store, the detections
    and the readings of the clock that the transform takes itself from
    [Date.now()], one for every hand it creates: as many as there are
    detections that no hand claimed, and none beyond.  Two ticks from the
    same store with the same detections agree on every hand that stays;
    their [j]-th new hands are made from the same detection and differ in
    nothing but the identifier, by the difference of the [j]-th readings;
    and the two ticks give the same store when the readings they take are
    the same, so in particular when no detection is left for a new hand. *)
Theorem tick_deterministic_up_to_clock
    (now1 now2 : nat → Z) (hands : list Hand.t) (detections : list Det.t) :
  let next1 := processTracking now1 hands detections in
  let next2 := processTracking now2 hands detections in
  let n := length (keptPositions detections hands) in
  let free := freeIndices detections hands in
  clockReads now1 hands detections = length free
  ∧ clockReads now2 hands detections = length free
  ∧ length next1 = n + length free
  ∧ length next2 = n + length free
  ∧ take n next1 = take n next2
  ∧ (∀ j idx, free !! j = Some idx →
       ∃ det, detections !! idx = Some det
              ∧ next1 !! (n + j) = Some (created (now1 j) det idx)
              ∧ next2 !! (n + j) = Some (created (now2 j) det idx)
              ∧ created (now2 j) det idx
                = shiftId (now2 j - now1 j) (created (now1 j) det idx))
  ∧ ((∀ j, j < length free → now1 j = now2 j) → next1 = next2).
Proof.
  intros next1 next2 n free. unfold next1, next2, n, free.
  rewrite !clockReads_free, !processTracking_split, !length_app,
    !length_newcomers, !length_survivors.
  rewrite <-length_survivors, !take_app_length.
  split_and!; [done..| |].
  - intros j idx Hidx.
    destruct (newcomers_lookup now1 detections hands j idx Hidx)
      as (det & Hdet & Hnew1).
    destruct (newcomers_lookup now2 detections hands j idx Hidx)
      as (det' & Hdet' & Hnew2).
    assert (det' = det) as -> by congruence.
    exists det. rewrite !lookup_app_r, !Nat.add_sub' by lia.
    split_and!; [done..|]. apply created_shift.
  - intros Hsame. f_equal. apply newcomersFrom_ext.
    intros k Hk. apply Hsame. rewrite length_newcomers in Hk. lia.
Qed.

(** A hand stays and two are created, one tick reading 1000 ms and then
    1001 ms, the other 2000 ms throughout. *)
Lemma tick_deterministic_up_to_clock_witness :
  let next1 := processTracking (ticking 1000) [sampleHand]
                 [sampleDet; farDet; Det.mk 100 700 Left] in
  let next2 := processTracking (reading 2000) [sampleHand]
                 [sampleDet; farDet; Det.mk 100 700 Left] in
  next1 = [smoothed sampleHand sampleDet; created 1000 farDet 1;
           created 1001 (Det.mk 100 700 Left) 2]
  ∧ next2 = [smoothed sampleHand sampleDet; created 2000 farDet 1;
             created 2000 (Det.mk 100 700 Left) 2]
  ∧ clockReads (ticking 1000) [sampleHand]
      [sampleDet; farDet; Det.mk 100 700 Left] = 2
  ∧ take 1 next1 = take 1 next2
  ∧ created 2000 (Det.mk 100 700 Left) 2
    = shiftId (2000 - 1001) (created 1001 (Det.mk 100 700 Left) 2).
Proof.
  pose proof (tick_deterministic_up_to_clock (ticking 1000) (reading 2000)
                [sampleHand] [sampleDet; farDet; Det.mk 100 700 Left])
    as (Hreads & _ & _ & _ & Htake & Hnew & _).
  assert (freeIndices [sampleDet; farDet; Det.mk 100 700 Left] [sampleHand]
          = [1; 2]) as Hfree by by vm_compute.
  assert (length (keptPositions [sampleDet; farDet; Det.mk 100 700 Left]
                    [sampleHand]) = 1) as Hkept by by vm_compute.
  rewrite Hfree in Hreads, Hnew. rewrite Hkept in Htake, Hnew.
  destruct (Hnew 1 2 eq_refl) as (det & Hdet & _ & _ & Hshift).
  injection Hdet as <-.
  split_and!; [by vm_compute|by vm_compute|exact Hreads|exact Htake|
               exact Hshift].
Defined.

(** ** Concrete instances *)

Lemma matched_update_is_reference_witness :
  ∃ hand det p,
    [sampleHand] !! 0 = Some hand ∧ [sampleDet; farDet] !! 0 = Some det
    ∧ updateHand [sampleDet; farDet]
        (updateHands [sampleDet; farDet] (take 0 [sampleHand])) hand =
      push (Reference.matchedUpdate hand det)
           (use 0 (updateHands [sampleDet; farDet] (take 0 [sampleHand])))
    ∧ keptPositions [sampleDet; farDet] [sampleHand] !! p = Some 0
    ∧ processTracking (reading 2000) [sampleHand] [sampleDet; farDet] !! p =
      Some (Reference.matchedUpdate hand det).
Proof.
  apply (matched_update_is_reference (reading 2000) [sampleDet; farDet]
           [sampleHand] 0 0).
  vm_compute. by left.
Defined.

Lemma missing_update_is_reference_witness :
  updateHand [farDet] (updateHands [farDet] (take 0 [sampleHand])) sampleHand =
    push (Reference.missingUpdate sampleHand)
         (updateHands [farDet] (take 0 [sampleHand]))
  ∧ ∃ p, keptPositions [farDet] [sampleHand] !! p = Some 0
         ∧ processTracking (reading 2000) [sampleHand] [farDet] !! p =
           Some (Reference.missingUpdate sampleHand).
Proof.
  apply (proj1 missing_update_is_reference (reading 2000) [farDet]
           [sampleHand] 0 sampleHand).
  - reflexivity.
  - by vm_compute.
  - by vm_compute.
Defined.

(** ** The scenarios of the specification, evaluated *)

(** A hand at (100, 100) seen at (100, 100) in three frames. *)
Example scenario_steady :
  run [] (replicate 3 (mkFrame (reading 1000) [sampleDet]))
  = [Hand.mk 1000 100 100 0 0 Left 1 0 3].
Proof. by vm_compute. Qed.

(** A detection with no hand in range makes a new hand. *)
Example scenario_new_hand :
  processTracking (reading 2000) [sampleHand] [farDet]
  = [coasted sampleHand; Hand.mk 2000 900 600 0 0 Right 1 0 1].
Proof. by vm_compute. Qed.

(** Two hands within range of one detection: the first in the store takes
    it, the second follows the missing branch. *)
Example scenario_contention :
  processTracking (reading 2000)
    [created 1000 (Det.mk 100 100 Left) 0; created 1000 (Det.mk 120 100 Right) 1]
    [Det.mk 110 100 Left]
  = [smoothed (created 1000 (Det.mk 100 100 Left) 0) (Det.mk 110 100 Left);
     coasted (created 1000 (Det.mk 120 100 Right) 1)]
  ∧ matches [Det.mk 110 100 Left]
      [created 1000 (Det.mk 100 100 Left) 0;
       created 1000 (Det.mk 120 100 Right) 1]
    = [(0, 0)].
Proof. by vm_compute. Qed.

(** Twenty misses keep the hand, the twenty-first drops it. *)
Example scenario_eviction :
  run [] fadingFrames = [Nat.iter 20 coasted sampleHand]
  ∧ Hand.framesMissing (Nat.iter 20 coasted sampleHand) = 20%Z
  ∧ run [] (fadingFrames ++ [mkFrame (reading 1336) []]) = [].
Proof. by vm_compute. Qed.

(** The clock is read for each new hand: while it turns from 1000 ms to
    1001 ms, two detections give the identifiers 1000 and 1002. *)
Example scenario_two_readings :
  processTracking (ticking 1000) [] [sampleDet; farDet]
  = [created 1000 sampleDet 0; created 1001 farDet 1]
  ∧ ids (processTracking (ticking 1000) [] [sampleDet; farDet])
    = [1000%Z; 1002%Z].
Proof. by vm_compute. Qed.

(** The same side at a greater distance can win over the other side. *)
Example scenario_side_bonus :
  bestIdx [Det.mk 130 100 Right; Det.mk 140 100 Left] ∅ sampleHand = Some 1.
Proof. by vm_compute. Qed.


(** * The rest of the program: properties *)

(** ** The perception boundary *)

(** While the video shows the time the service has noted, [detect] returns
    [null] and leaves the service as it is, whatever the state of the
    video. *)
Lemma detect_noted (svc : Service.t) (video : Video.t) (inference : Result.t) :
  is_nan (Video.currentTime video) = false →
  Service.lastVideoTime svc = Video.currentTime video →
  detect svc video inference = (None, svc).
Proof.
  intros Hnum%negb_false_iff Hnoted. unfold detect. rewrite Hnoted.
  unfold is_nan in Hnum.
  destruct (Service.handLandmarker svc); simpl; [|done]. by rewrite Hnum.
Qed.

Lemma detectAll_noted (svc : Service.t) (t : float)
    (calls : list (Video.t * Result.t)) :
  is_nan t = false →
  Service.lastVideoTime svc = t →
  Forall (λ call, Video.currentTime call.1 = t) calls →
  detectAll svc calls = (replicate (length calls) None, svc).
Proof.
  intros Hnum Hnoted Hcalls.
  induction Hcalls as [|call rest Hcall _ IH]; simpl; [done|].
  rewrite detect_noted, IH; [done|congruence..].
Qed.

Lemma filter_nulls (n : nat) :
  filter is_Some (replicate n (@None Result.t)) = [].
Proof.
  induction n as [|n IH]; [done|].
  change (replicate (S n) (@None Result.t))
    with (None :: replicate n (@None Result.t)).
  rewrite filter_cons_False; [done|]. by intros [? ?].
Qed.

(** X1.  [detect] hands a video frame to the model at most once.  Among
    calls that follow one another while the video shows the same
    [currentTime] (a number), whatever its [readyState] is at each call and
    whatever the service had noted before, at most one returns a result;
    once one has, every later one returns [null]. *)
Theorem detect_same_frame_once
    (svc : Service.t) (t : float) (calls : list (Video.t * Result.t)) :
  is_nan t = false →
  Forall (λ call, Video.currentTime call.1 = t) calls →
  length (filter is_Some (detectAll svc calls).1) ≤ 1
  ∧ ∀ i res, (detectAll svc calls).1 !! i = Some (Some res) →
      ∀ j, i < j → j < length calls → (detectAll svc calls).1 !! j = Some None.
Proof.
  intros Hnum Hcalls. revert svc.
  induction Hcalls as [|call rest Hcall Hrest IH]; intros svc; simpl.
  { split; [lia|done]. }
  destruct (detect svc call.1 call.2) as [res svc'] eqn:Hdetect.
  assert (res = None ∧ svc' = svc
          ∨ is_Some res ∧ Service.lastVideoTime svc' = t) as [[-> ->]|[Hres Ht]].
  { unfold detect in Hdetect.
    destruct (negb (Service.handLandmarker svc)); [left; by simplify_eq|].
    destruct (negb (Video.currentTime call.1 =? Service.lastVideoTime svc)%float
              && (2 <=? Video.readyState call.1)%Z);
      simplify_eq; [right|left]; eauto. }
  - destruct (IH svc) as [Hcount Hlater].
    destruct (detectAll svc rest) as [results svc''] eqn:Hall. simpl in *.
    rewrite filter_cons_False by by intros [? ?]. split; [done|].
    intros [|i] res; [done|]. simpl. intros Hi [|j] Hij Hj; [lia|]. simpl.
    apply (Hlater i res Hi); lia.
  - rewrite (detectAll_noted svc' t rest Hnum Ht Hrest). simpl.
    rewrite filter_cons_True by done. simpl.
    rewrite filter_nulls. split; [simpl; lia|].
    intros [|i] res' Hi [|j] Hij Hj; try lia; simpl.
    + apply lookup_replicate. split; [done|lia].
    + apply lookup_replicate. split; [done|lia].
Qed.

(** The video is not ready at the first call and ready from the second on:
    the second call returns a result, the third does not. *)
Lemma detect_same_frame_once_witness :
  (detectAll (Service.mk true (-1)%float)
     [(Video.mk 0.5%float 1, Result.mk [] []);
      (Video.mk 0.5%float 4, Result.mk [] []);
      (Video.mk 0.5%float 4, Result.mk [] [])]).1
  = [None; Some (Result.mk [] []); None]
  ∧ length (filter is_Some
              (detectAll (Service.mk true (-1)%float)
                 [(Video.mk 0.5%float 1, Result.mk [] []);
                  (Video.mk 0.5%float 4, Result.mk [] []);
                  (Video.mk 0.5%float 4, Result.mk [] [])]).1) ≤ 1.
Proof.
  split; [reflexivity|].
  apply (detect_same_frame_once (Service.mk true (-1)%float) 0.5%float
           [(Video.mk 0.5%float 1, Result.mk [] []);
            (Video.mk 0.5%float 4, Result.mk [] []);
            (Video.mk 0.5%float 4, Result.mk [] [])]).
  - reflexivity.
  - repeat constructor.
Defined.

(** What the loop of lines 347-353 has built after [i] landmark sets. *)
Lemma toDetections_invariant (r : Result.t) :
  match toDetections (Some r) with
  | Some detections =>
      length detections = length (Result.landmarks r)
      ∧ ∀ i landmarkSet, Result.landmarks r !! i = Some landmarkSet →
          ∃ det, toDetection r landmarkSet i = Some det
                 ∧ detections !! i = Some det
  | None =>
      ∃ i landmarkSet, Result.landmarks r !! i = Some landmarkSet
                       ∧ toDetection r landmarkSet i = None
  end.
Proof.
  unfold toDetections.
  set (body := λ (acc : option (list Det.t)) (landmarkSet : list Landmark.t)
                 (i : nat),
                 match acc with
                 | None => None
                 | Some detections =>
                     match toDetection r landmarkSet i with
                     | None => None
                     | Some det => Some (detections ++ [det])
                     end
                 end).
  pose proof (forEach_invariant
    (λ n (acc : option (list Det.t)),
       match acc with
       | Some detections =>
           length detections = n
           ∧ ∀ i landmarkSet, i < n →
               Result.landmarks r !! i = Some landmarkSet →
               ∃ det, toDetection r landmarkSet i = Some det
                      ∧ detections !! i = Some det
       | None =>
           ∃ i landmarkSet, Result.landmarks r !! i = Some landmarkSet
                            ∧ toDetection r landmarkSet i = None
       end) body (Result.landmarks r) (Some [])) as Hinv.
  simpl in Hinv.
  assert (length (@nil Det.t) = 0
          ∧ ∀ i landmarkSet, i < 0 →
              Result.landmarks r !! i = Some landmarkSet →
              ∃ det, toDetection r landmarkSet i = Some det
                     ∧ @nil Det.t !! i = Some det) as Hstart.
  { split; [done|]. intros; lia. }
  specialize (Hinv Hstart). clear Hstart.
  cut (match forEach body (Result.landmarks r) (Some []) with
       | Some detections =>
           length detections = length (Result.landmarks r)
           ∧ ∀ i landmarkSet, i < length (Result.landmarks r) →
               Result.landmarks r !! i = Some landmarkSet →
               ∃ det, toDetection r landmarkSet i = Some det
                      ∧ detections !! i = Some det
       | None =>
           ∃ i landmarkSet, Result.landmarks r !! i = Some landmarkSet
                            ∧ toDetection r landmarkSet i = None
       end).
  { destruct (forEach body (Result.landmarks r) (Some [])); [|done].
    intros [Hlen Hall]. split; [done|]. intros i set Hset.
    apply Hall; [|done]. by eapply lookup_lt_Some. }
  apply Hinv. intros i set acc Hset Hacc. unfold body.
  destruct acc as [detections'|]; [|done].
  destruct Hacc as [Hlen Hall].
  destruct (toDetection r set i) as [det|] eqn:Hdet; [|by exists i, set].
  split; [rewrite length_app; simpl; lia|].
  intros j set' Hj Hset'. destruct (decide (j = i)) as [->|].
  - rewrite Hset in Hset'. injection Hset' as <-. exists det. split; [done|].
    rewrite lookup_app_r by lia. by rewrite Hlen, Nat.sub_diag.
  - destruct (Hall j set') as (det' & ? & ?); [lia|done|].
    exists det'. split; [done|]. by apply lookup_app_l_Some.
Qed.

(** X2.  The array [detections] has one detection per landmark set, in
    order: its tenth landmark mirrored into canvas coordinates,
    [x = (1 - landmark.x) * 1280] and [y = landmark.y * 720], with the side
    [Right] exactly when the first handedness category of that hand is named
    "Left" and [Left] otherwise, also when the hand has no handedness entry.
    The callback throws, and no array is built, exactly when some landmark
    set has fewer than ten landmarks or some hand has an empty list of
    categories.  When the model gave no result the array is empty. *)
Theorem detections_mirror_the_landmarks (r : Result.t) :
  toDetections None = Some []
  ∧ (toDetections (Some r) = None ↔
     ∃ i landmarkSet, Result.landmarks r !! i = Some landmarkSet
       ∧ (length landmarkSet ≤ 9 ∨ Result.handedness r !! i = Some []))
  ∧ (∀ detections, toDetections (Some r) = Some detections →
       length detections = length (Result.landmarks r)
       ∧ ∀ i landmarkSet, Result.landmarks r !! i = Some landmarkSet →
           ∃ landmark, landmarkSet !! 9 = Some landmark
             ∧ detections !! i =
               Some (Det.mk ((1 - Landmark.x landmark) * CANVAS_WIDTH)%float
                            (Landmark.y landmark * CANVAS_HEIGHT)%float
                            (if decide (head <$> Result.handedness r !! i
                                        = Some (Some "Left"%string))
                             then Right else Left))).
Proof.
  assert (∀ i set, toDetection r set i = None ↔
            length set ≤ 9 ∨ Result.handedness r !! i = Some []) as Hthrow.
  { intros i set. unfold toDetection.
    destruct (set !! 9) as [lm|] eqn:Hlm.
    - apply lookup_lt_Some in Hlm as Hlt.
      destruct (Result.handedness r !! i) as [[|c cs]|]; split; try done;
        try (intros [?|?]; [lia|done]). by right.
    - apply lookup_ge_None in Hlm. split; [|done]. by left. }
  pose proof (toDetections_invariant r) as Hinv.
  split_and!; [done| |].
  - destruct (toDetections (Some r)) as [detections|].
    + split; [done|]. intros (i & set & Hset & Hbad).
      destruct Hinv as [_ Hall]. destruct (Hall i set Hset) as (det & Hdet & _).
      apply Hthrow in Hbad. congruence.
    + split; [|done]. intros _. destruct Hinv as (i & set & Hset & Hnone).
      exists i, set. split; [done|]. by apply Hthrow.
  - intros detections Heq. rewrite Heq in Hinv. destruct Hinv as [Hlen Hall].
    split; [done|]. intros i set Hset.
    destruct (Hall i set Hset) as (det & Hdet & Hi). rewrite Hi.
    unfold toDetection in Hdet.
    destruct (set !! 9) as [lm|]; [|done]. exists lm. split; [done|].
    destruct (Result.handedness r !! i) as [[|c cs]|]; simpl in *; [done|..].
    + injection Hdet as <-. do 2 f_equal.
      destruct (decide (c = "Left"%string)) as [->|Hne].
      * by rewrite decide_True.
      * rewrite decide_False; [done|]. by intros [= ->].
    + by injection Hdet as <-.
Qed.

(** A tick without detections, hand by hand. *)
Lemma updateHands_no_detection st hands :
  foldl (updateHand []) st hands =
  {| nextHands :=
       nextHands st
       ++ (coasted <$> filter (λ hand, (Hand.framesMissing hand
                                        < PERSISTENCE_FRAMES)%Z) hands);
     usedDetections := usedDetections st |}.
Proof.
  revert st. induction hands as [|hand rest IH]; intros st; simpl.
  - rewrite app_nil_r. by destruct st.
  - rewrite IH. unfold updateHand, bestIdx, findBest, forEach. simpl.
    rewrite filter_cons.
    destruct (Hand.framesMissing hand <? PERSISTENCE_FRAMES)%Z eqn:Hfm.
    + apply Z.ltb_lt in Hfm. rewrite decide_True by done. simpl.
      by rewrite <-app_assoc.
    + apply Z.ltb_ge in Hfm. by rewrite decide_False by lia.
Qed.

Lemma processTracking_no_detection now hands :
  processTracking now hands [] =
  coasted <$> filter (λ hand, (Hand.framesMissing hand
                               < PERSISTENCE_FRAMES)%Z) hands.
Proof.
  unfold processTracking, forEach, updateHands. simpl.
  by rewrite updateHands_no_detection.
Qed.

(** X3.  A frame of the loop for which [detect] returns [null] (the video
    still shows the frame already processed, or is not ready, or the model
    is not loaded) counts as a miss for every hand: the hands with
    [framesMissing] below 20 coast, the others are dropped, and no hand is
    created.  The loop runs at the rate of the display, so the hands age
    between two frames of the camera. *)
Theorem frame_without_result_is_a_miss
    (svc : Service.t) (video : Video.t) (inference : Result.t)
    (now : nat → Z)
    (hands : list Hand.t) :
  (detect svc video inference).1 = None →
  processTrackingFrame true true svc video inference now hands
  = ((detect svc video inference).2,
     Some (coasted <$> filter (λ hand, (Hand.framesMissing hand
                                        < PERSISTENCE_FRAMES)%Z) hands)).
Proof.
  intros Hnull. unfold processTrackingFrame. simpl.
  destruct (detect svc video inference) as [res svc'].
  simpl in Hnull. subst res. simpl. by rewrite processTracking_no_detection.
Qed.

Lemma frame_without_result_is_a_miss_witness :
  processTrackingFrame true true (Service.mk true 0.5%float)
    (Video.mk 0.5%float 4) (Result.mk [] []) (reading 2000) [sampleHand]
  = ((detect (Service.mk true 0.5%float) (Video.mk 0.5%float 4)
             (Result.mk [] [])).2,
     Some (coasted <$> filter (λ hand, (Hand.framesMissing hand
                                        < PERSISTENCE_FRAMES)%Z) [sampleHand])).
Proof.
  apply (frame_without_result_is_a_miss (Service.mk true 0.5%float)
           (Video.mk 0.5%float 4) (Result.mk [] []) (reading 2000) [sampleHand]).
  reflexivity.
Defined.

(** ** More about the tracking core *)

Lemma claimedBy_elem fs used idx :
  idx ∈ claimedBy fs used ↔ idx ∈ used ∨ Matched idx ∈ fs.
Proof.
  revert used. induction fs as [|f fs IH]; intros used.
  - unfold claimedBy. simpl. rewrite elem_of_nil. tauto.
  - unfold claimedBy in *. simpl. rewrite IH, elem_of_cons.
    destruct f as [idx'| |]; simpl.
    + rewrite elem_of_union, elem_of_singleton. split.
      * intros [[->|?]|?]; auto.
      * intros [?|[[= ->]|?]]; auto.
    + split; [intros [?|?]; auto|]. intros [?|[?|?]]; auto. done.
    + split; [intros [?|?]; auto|]. intros [?|[?|?]]; auto. done.
Qed.

Lemma claimed_iff_matched detections hands idx :
  idx ∈ usedDetections (updateHands detections hands) ↔
  ∃ k, (k, idx) ∈ matches detections hands.
Proof.
  rewrite updateHands_claimed, claimedBy_elem, elem_of_empty.
  unfold matches. split.
  - intros [[]|[k Hk]%list_elem_of_lookup]. exists k.
    apply elem_of_pairsFrom. split; [lia|]. by rewrite Nat.sub_0_r.
  - intros [k [_ Hk]%elem_of_pairsFrom]. right. rewrite Nat.sub_0_r in Hk.
    by eapply list_elem_of_lookup_2.
Qed.

Lemma matched_in_range detections hands k idx :
  (k, idx) ∈ matches detections hands → idx < length detections.
Proof.
  intros (hand & _ & Hbest)%elem_of_matches.
  apply bestIdx_lookup in Hbest as [det Hdet]. by eapply lookup_lt_Some.
Qed.

Lemma length_pairs_kept k fs :
  length (pairsFrom k fs) ≤ length (keptFrom k fs).
Proof.
  revert k. induction fs as [|f fs IH]; intros k; simpl; [done|].
  specialize (IH (S k)). destruct f; simpl; lia.
Qed.

Lemma length_keptFrom k fs : length (keptFrom k fs) ≤ length fs.
Proof.
  revert k. induction fs as [|f fs IH]; intros k; simpl; [done|].
  specialize (IH (S k)). rewrite length_app. destruct (kept f); simpl; lia.
Qed.

Lemma length_matches_free detections hands :
  length (matches detections hands) + length (freeIndices detections hands)
  = length detections.
Proof.
  set (used := usedDetections (updateHands detections hands)).
  set (n := length detections).
  assert (length (filter (λ idx, idx ∈ used) (seq 0 n))
          = length (matches detections hands)) as <-.
  { rewrite <-(length_fmap snd (matches detections hands)).
    apply Permutation_length, NoDup_Permutation.
    - apply NoDup_filter, NoDup_seq.
    - apply pairsFrom_NoDup.
    - intros idx. rewrite list_elem_of_filter, elem_of_seq. unfold used.
      rewrite claimed_iff_matched, list_elem_of_fmap. split.
      + intros [[k Hk] _]. by exists (k, idx).
      + intros ([k idx'] & -> & Hk). simpl. split; [by exists k|].
        apply matched_in_range in Hk. unfold n. lia. }
  unfold freeIndices. fold used. fold n.
  rewrite <-length_app.
  rewrite (Permutation_length (filter_app_complement (λ idx, idx ∈ used) (seq 0 n))).
  apply length_seq.
Qed.

(** X4.  A tick accounts for every detection exactly once: a detection either
    is the match of a hand or makes a new hand,
    never both and never neither.  So the matches and the new hands together
    are as many as the detections, and the next store has at least as many
    hands as there are detections and at most as many as the hands and the
    detections together. *)
Theorem every_detection_accounted_for
    (now : nat → Z) (hands : list Hand.t) (detections : list Det.t) :
  (∀ idx, idx < length detections →
     (idx ∈ freeIndices detections hands
      ↔ ¬ ∃ k, (k, idx) ∈ matches detections hands))
  ∧ length (matches detections hands) + length (freeIndices detections hands)
    = length detections
  ∧ length detections ≤ length (processTracking now hands detections)
  ∧ length (processTracking now hands detections)
    ≤ length hands + length detections.
Proof.
  pose proof (length_matches_free detections hands) as Hsum.
  split_and!; [|done|..].
  - intros idx Hidx. unfold freeIndices.
    rewrite list_elem_of_filter, elem_of_seq, claimed_iff_matched.
    split; [by intros [? _]|]. intros ?. split; [done|lia].
  - rewrite length_processTracking.
    pose proof (length_pairs_kept 0 (fates detections ∅ hands)).
    unfold matches, keptPositions in *. lia.
  - rewrite length_processTracking.
    pose proof (length_keptFrom 0 (fates detections ∅ hands)) as Hk.
    rewrite length_fates in Hk. unfold keptPositions. lia.
Qed.

(** One tick carries a relation between the hands and their notes on, when
    the three updates do. *)
Lemma notes_follow (R R' : Hand.t → Note → Prop) n hands notes f :
  Forall2 R hands notes →
  (∀ hand a det, R hand a →
     R' (smoothed hand det) {| born := born a; misses := 0 |}) →
  (∀ hand a, R hand a →
     R' (coasted hand) {| born := born a; misses := S (misses a) |}) →
  (∀ t det idx, R' (created t det idx) {| born := n; misses := 0 |}) →
  Forall2 R' (tick hands f) (notesNext n (seen f) hands notes).
Proof.
  intros Hnotes Hsmooth Hcoast Hnew. unfold tick, notesNext.
  rewrite processTracking_split. apply Forall2_app.
  - eapply Forall2_omap_r; [apply survivors_kept|].
    intros k hand' Hd.
    pose proof Hd as (hand0 & f0 & Hk0 & Hf0 & _).
    apply descendsFrom_cases in Hd as (hand & Hk & Hcase).
    destruct (Forall2_lookup_l _ _ _ _ _ Hnotes Hk) as (a & Ha & HR).
    unfold noteOf. rewrite Hf0, Ha.
    rewrite (fates_lookup _ _ _ _ Hk) in Hf0. injection Hf0 as <-.
    destruct Hcase as [(idx & det & Hm & _ & ->)|(Hbest & Hlt & ->)].
    + apply elem_of_matches in Hm as (? & ? & Hbest). simplify_eq.
      apply fate_matched in Hbest. rewrite Hbest. eexists. split; [done|].
      by apply Hsmooth.
    + unfold fate. rewrite Hbest, (proj2 (Z.ltb_lt _ _) Hlt).
      eexists. split; [done|]. by apply Hcoast.
  - eapply Forall2_replicate_by; [apply newcomers_free|].
    simpl. intros idx hand' (j & det & _ & ->). apply Hnew.
Qed.

Lemma history_snoc frames f :
  history (frames ++ [f]) =
  notesNext (length frames) (seen f) (run [] frames) (history frames).
Proof.
  unfold history. rewrite chronicle_snoc.
  pose proof (chronicle_run 0 [] [] frames) as Hrun.
  destruct (chronicle 0 [] [] frames) as [hands notes]. simpl in *.
  by subst hands.
Qed.

Lemma framesDetected_age frames :
  Forall2 (λ hand a, (1 ≤ Hand.framesDetected hand
                      ≤ Z.of_nat (length frames) - Z.of_nat (born a))%Z)
          (run [] frames) (history frames).
Proof.
  induction frames as [|f frames IH] using rev_ind; [constructor|].
  rewrite run_snoc, history_snoc, length_app. simpl.
  eapply notes_follow; [apply IH|..]; simpl; intros; lia.
Qed.

(** The hand at which the loop over the hands stops: the first hand of the
    store that is stable and within reach. *)
Lemma reached_finds hands obj :
  reached hands obj = true →
  ∃ k hand, hands !! k = Some hand
            ∧ (STABILITY_THRESHOLD ≤ Hand.framesDetected hand)%Z
            ∧ withinReach hand obj = true
            ∧ ∀ j hand', j < k → hands !! j = Some hand' →
                (Hand.framesDetected hand' < STABILITY_THRESHOLD)%Z
                ∨ withinReach hand' obj = false.
Proof.
  induction hands as [|hand0 rest IH]; simpl; [done|].
  destruct (Hand.framesDetected hand0 <? STABILITY_THRESHOLD)%Z eqn:Hfd.
  - apply Z.ltb_lt in Hfd.
    intros (k & hand & Hk & Hst & Hw & Hfirst)%IH.
    exists (S k), hand. split_and!; [done..|].
    intros [|j] hand' Hj Hh; simpl in Hh; [left; by simplify_eq|].
    apply (Hfirst j); [lia|done].
  - apply Z.ltb_ge in Hfd. fold (withinReach hand0 obj).
    destruct (withinReach hand0 obj) eqn:Hw0.
    + intros _. exists 0, hand0. split_and!; [done..|]. intros; lia.
    + intros (k & hand & Hk & Hst & Hw & Hfirst)%IH.
      exists (S k), hand. split_and!; [done..|].
      intros [|j] hand' Hj Hh; simpl in Hh; [right; by simplify_eq|].
      apply (Hfirst j); [lia|done].
Qed.

(** X5.  In a store that grew from the empty one, the stability counter
    [framesDetected] of a hand is at least 1 and at most the number of ticks
    the hand has been through, the one that created it included.  A hand is
    therefore below [STABILITY_THRESHOLD] during its first two ticks.  When
    the loop over the hands catches an object, the hand it stops at (the
    first hand of the store that is stable and within reach of the object)
    is at least three ticks old. *)
Theorem stability_takes_three_ticks (frames : list Frame) :
  (∀ k hand a,
     run [] frames !! k = Some hand → history frames !! k = Some a →
     (1 ≤ Hand.framesDetected hand
      ≤ Z.of_nat (length frames) - Z.of_nat (born a))%Z
     ∧ ((STABILITY_THRESHOLD ≤ Hand.framesDetected hand)%Z →
        born a + 3 ≤ length frames))
  ∧ (∀ obj, reached (run [] frames) obj = true →
       ∃ k hand a, run [] frames !! k = Some hand
                   ∧ history frames !! k = Some a
                   ∧ (STABILITY_THRESHOLD ≤ Hand.framesDetected hand)%Z
                   ∧ withinReach hand obj = true
                   ∧ (∀ j hand', j < k → run [] frames !! j = Some hand' →
                        (Hand.framesDetected hand' < STABILITY_THRESHOLD)%Z
                        ∨ withinReach hand' obj = false)
                   ∧ born a + 3 ≤ length frames).
Proof.
  assert (∀ k hand a,
     run [] frames !! k = Some hand → history frames !! k = Some a →
     (1 ≤ Hand.framesDetected hand
      ≤ Z.of_nat (length frames) - Z.of_nat (born a))%Z
     ∧ ((STABILITY_THRESHOLD ≤ Hand.framesDetected hand)%Z →
        born a + 3 ≤ length frames)) as Hage.
  { intros k hand a Hk Ha.
    destruct (Forall2_lookup_l _ _ _ _ _ (framesDetected_age frames) Hk)
      as (a' & Ha' & Hfd).
    simplify_eq. split; [done|]. unfold STABILITY_THRESHOLD. lia. }
  split; [done|].
  intros obj (k & hand & Hk & Hstable & Hwithin & Hfirst)%reached_finds.
  destruct (Forall2_lookup_l _ _ _ _ _ (framesDetected_age frames) Hk)
    as (a & Ha & _).
  exists k, hand, a. split_and!; [done..|].
  by apply (Hage k hand a).
Qed.

(** ** The game: the shape of each step *)


Ltac state_compute :=
  cbv [played emit draw playBirdSound playBombSound triggerShake startMusic
       stopMusic control
       App.set_frameCount App.set_objects App.set_particles
       App.set_floatingTexts App.set_clouds App.set_score App.set_lives
       App.set_isGameOver App.set_isPlaying App.set_isPaused
       App.set_highScore App.set_initialLives App.set_gameState
       App.set_isMusicPlaying App.set_savedHighScore App.set_draws
       App.set_effects
       App.frameCount App.objects App.particles App.floatingTexts
       App.clouds App.score App.lives App.isGameOver App.isPlaying
       App.isPaused App.highScore App.initialLives App.gameState
       App.isMusicPlaying App.savedHighScore App.draws App.effects] in *.

(** Two states are equal when their fields are. *)
Ltac same_state :=
  state_compute; unfold times; simpl;
  rewrite ?app_nil_r, <-?app_assoc; simpl;
  f_equal; first [reflexivity | lia].

Section GameSteps.
Context (random : nat → float) (cos sin : float → float).

Lemma times_app e es1 es2 : times e (es1 ++ es2) = (times e es1 + times e es2)%Z.
Proof. unfold times. rewrite filter_app, length_app. lia. Qed.

Lemma times_nonneg e es : (0 ≤ times e es)%Z.
Proof. unfold times. lia. Qed.

Lemma played_nothing g : played g [] [] [] 0 = g.
Proof. destruct g. same_state. Qed.

Lemma played_played g ps1 ts1 es1 n1 ps2 ts2 es2 n2 :
  played (played g ps1 ts1 es1 n1) ps2 ts2 es2 n2 =
  played g (ps1 ++ ps2) (ts1 ++ ts2) (es1 ++ es2) (n1 + n2).
Proof.
  unfold played. simpl. rewrite !times_app, !app_assoc. f_equal; lia.
Qed.

Lemma wellPlayed_nothing : wellPlayed [] [] [].
Proof. split_and!; [constructor..|done]. Qed.

Lemma wellPlayed_app ps1 ts1 es1 ps2 ts2 es2 :
  wellPlayed ps1 ts1 es1 → wellPlayed ps2 ts2 es2 →
  wellPlayed (ps1 ++ ps2) (ts1 ++ ts2) (es1 ++ es2).
Proof.
  intros (? & ? & ?) (? & ? & ?). split_and!; [by apply Forall_app..|].
  rewrite !times_app. lia.
Qed.

Lemma addParticle_shape x y color g :
  ∃ p, Particle.life p = 1.0%float
       ∧ addParticle random cos sin x y color g = played g [p] [] [] 4.
Proof.
  destruct g. eexists. split; [|unfold addParticle; same_state]. done.
Qed.

Lemma createExplosion_shape x y color g :
  ∃ ps, Forall (λ p, Particle.life p = 1.0%float) ps ∧ length ps = 15
        ∧ createExplosion random cos sin x y color g = played g ps [] [] 60.
Proof.
  unfold createExplosion.
  assert (∀ n, ∃ ps, Forall (λ p, Particle.life p = 1.0%float) ps
                     ∧ length ps = n
                     ∧ Nat.iter n (addParticle random cos sin x y color) g
                       = played g ps [] [] (4 * n)) as Hn.
  { induction n as [|n (ps & Hlife & Hlen & Heq)].
    - exists []. split_and!; [constructor|done|]. simpl. by rewrite played_nothing.
    - simpl. rewrite Heq.
      destruct (addParticle_shape x y color (played g ps [] [] (4 * n)))
        as (p & Hp & ->).
      exists (ps ++ [p]). split_and!.
      + apply Forall_app. split; [done|by constructor].
      + rewrite length_app. simpl. lia.
      + rewrite played_played. simpl. f_equal. lia. }
  apply (Hn 15).
Qed.

Lemma createFloatingText_shape x y text color g :
  ∃ t, FloatingText.life t = 1.0%float
       ∧ createFloatingText random x y text color g = played g [] [t] [] 1.
Proof.
  destruct g. eexists. split; [|unfold createFloatingText; same_state]. done.
Qed.

(** The movement of an object, and whether it is caught after it. *)
Lemma stepObject_shape hands moved g obj :
  ∃ obj' ps ts es n,
    stepObject random cos sin hands (moved, g) obj
    = (moved ++ [obj'], played g ps ts es n)
    ∧ wellPlayed ps ts es
    ∧ Obj.radius obj' = Obj.radius obj
    ∧ (reached hands (advance obj) = false → obj' = advance obj ∧ es = []
                                             ∧ ps = [] ∧ ts = []).
Proof.
  unfold stepObject.
  destruct (Obj.caught (advance obj)) eqn:Hcaught.
  { exists (advance obj), [], [], [], 0. rewrite played_nothing.
    split_and!; [done|apply wellPlayed_nothing|done..]. }
  destruct (reached hands (advance obj)) eqn:Hreach.
  - destruct (Obj.type (setCaught (advance obj))) eqn:Htype.
    + set (g1 := playBirdSound (App.set_score (App.score g + 10) g)).
      destruct (createExplosion_shape (Obj.x (setCaught (advance obj)))
                  (Obj.y (setCaught (advance obj))) "#FFEB3B" g1)
        as (ps & Hps & _ & ->).
      destruct (createFloatingText_shape (Obj.x (setCaught (advance obj)))
                  (Obj.y (setCaught (advance obj))) "+10" "#FFD700"
                  (played g1 ps [] [] 60)) as (t & Ht & ->).
      exists (setCaught (advance obj)), ps, [t], [BirdSound], 61.
      split_and!; [|split_and!; [done|by constructor|done]|done|done].
      f_equal. rewrite played_played.
      unfold g1, playBirdSound. destruct g. same_state.
    + set (g1 := playBombSound (App.set_lives (App.lives g - 1) g)).
      destruct (createExplosion_shape (Obj.x (setCaught (advance obj)))
                  (Obj.y (setCaught (advance obj))) "#FF5252" g1)
        as (ps & Hps & _ & ->).
      exists (setCaught (advance obj)), ps, [], [BombSound; Shake], 60.
      split_and!; [|split_and!; [done|constructor|done]|done|done].
      f_equal.
      unfold triggerShake, g1, playBombSound. destruct g. same_state.
  - exists (advance obj), [], [], [], 0. rewrite played_nothing.
    split_and!; [done|apply wellPlayed_nothing|done..].
Qed.

(** Lines 205-227, all the objects. *)
Lemma stepObjects_shape hands objs moved g :
  ∃ objs' ps ts es n,
    foldl (stepObject random cos sin hands) (moved, g) objs
    = (moved ++ objs', played g ps ts es n)
    ∧ wellPlayed ps ts es
    ∧ Forall2 (λ obj obj', Obj.radius obj' = Obj.radius obj) objs objs'
    ∧ ((∀ obj, reached hands obj = false) →
       objs' = advance <$> objs ∧ es = [] ∧ ps = [] ∧ ts = []).
Proof.
  revert moved g. induction objs as [|obj rest IH]; intros moved g; cbn [foldl].
  - exists [], [], [], [], 0. rewrite app_nil_r, played_nothing.
    split_and!; [done|apply wellPlayed_nothing|constructor|done].
  - destruct (stepObject_shape hands moved g obj)
      as (obj' & ps1 & ts1 & es1 & n1 & -> & Hw1 & Hr1 & Hq1).
    destruct (IH (moved ++ [obj']) (played g ps1 ts1 es1 n1))
      as (objs' & ps2 & ts2 & es2 & n2 & -> & Hw2 & Hr2 & Hq2).
    exists (obj' :: objs'), (ps1 ++ ps2), (ts1 ++ ts2), (es1 ++ es2), (n1 + n2).
    rewrite played_played, <-app_assoc. simpl.
    split_and!; [done|by apply wellPlayed_app|by constructor|].
    intros Hnone. destruct (Hq1 (Hnone _)) as (-> & -> & -> & ->).
    destruct (Hq2 Hnone) as (-> & -> & -> & ->). done.
Qed.

Lemma set_draws_twice d1 d2 g :
  App.set_draws d2 (App.set_draws d1 g) = App.set_draws d2 g.
Proof. by destruct g. Qed.

Lemma set_draws_same g : App.set_draws (App.draws g) g = g.
Proof. by destruct g. Qed.

Lemma spawnObject_shape speedFactor g :
  ∃ obj d,
    spawnObject random speedFactor g
    = App.set_objects (App.objects g ++ [obj]) (App.set_draws d g)
    ∧ Obj.caught obj = false ∧ Obj.radius obj = OBJECT_RADIUS.
Proof.
  destruct g. unfold spawnObject. state_compute.
  repeat match goal with
         | |- context [if ?c then _ else _] => destruct c; simpl
         end; by eexists _, _.
Qed.

Lemma moveCloud_shape moved g cloud :
  ∃ cloud' d, moveCloud random (moved, g) cloud
              = (moved ++ [cloud'], App.set_draws d g).
Proof.
  unfold moveCloud, draw.
  destruct (CANVAS_WIDTH + 100 <? Cloud.x cloud + Cloud.speed cloud)%float.
  - by eexists _, _.
  - eexists _, (App.draws g). by rewrite set_draws_same.
Qed.

Lemma moveClouds_shape g :
  ∃ clouds d, moveClouds random g = App.set_clouds clouds (App.set_draws d g)
              ∧ length clouds = length (App.clouds g).
Proof.
  unfold moveClouds.
  assert (∀ cs moved g0, ∃ cs' d,
            foldl (moveCloud random) (moved, g0) cs
            = (moved ++ cs', App.set_draws d g0)
            ∧ length cs' = length cs) as Hfold.
  { induction cs as [|c cs IH]; intros moved g0; cbn [foldl].
    - exists [], (App.draws g0). by rewrite app_nil_r, set_draws_same.
    - destruct (moveCloud_shape moved g0 c) as (c' & d1 & ->).
      destruct (IH (moved ++ [c']) (App.set_draws d1 g0)) as (cs' & d2 & -> & Hlen).
      exists (c' :: cs'), d2. rewrite set_draws_twice, <-app_assoc. simpl.
      split; [done|]. by rewrite Hlen. }
  destruct (Hfold (App.clouds g) [] g) as (cs' & d & -> & Hlen).
  by exists cs', d.
Qed.

Lemma initClouds_shape g :
  ∃ clouds d, initClouds random g = App.set_clouds clouds (App.set_draws d g)
              ∧ length clouds = 8.
Proof.
  unfold initClouds.
  assert (∀ n, ∃ cs d, Nat.iter n (addCloud random) ([], g)
                       = (cs, App.set_draws d g) ∧ length cs = n) as Hn.
  { induction n as [|n (cs & d & Heq & Hlen)].
    - exists [], (App.draws g). by rewrite set_draws_same.
    - simpl. rewrite Heq. unfold addCloud, draw. simpl.
      eexists _, _. rewrite !set_draws_twice. split; [done|].
      rewrite length_app. simpl. lia. }
  destruct (Hn 8) as (cs & d & -> & Hlen). by exists cs, d.
Qed.
End GameSteps.

(** ** The game: one frame *)

Section GameFrames.
Context (random : nat → float) (cos sin : float → float).

(** The state a frame of play reaches before it looks at the lives, and
    what the frame does then. *)
Lemma updateGameLogic_active hands speedFactor spawnFreq g :
  App.isPlaying g = true → App.isGameOver g = false → App.isPaused g = false →
  ∃ gb ps ts es,
    updateGameLogic random cos sin hands speedFactor spawnFreq g
    = (if (App.lives gb <=? 0)%Z then endGame gb
       else App.set_gameState
              (GameState.mk (App.score gb)
                 (GameState.isPlaying (App.gameState gb))
                 (GameState.gameOver (App.gameState gb)) (App.lives gb)
                 (GameState.highScore (App.gameState gb))
                 (GameState.isPaused (App.gameState gb))) gb)
    ∧ control gb = control g
    ∧ App.frameCount gb = (App.frameCount g + 1)%Z
    ∧ App.score gb = (App.score g + 10 * times BirdSound es)%Z
    ∧ App.lives gb = (App.lives g - times BombSound es)%Z
    ∧ App.effects gb = App.effects g ++ es
    ∧ wellPlayed ps ts es
    ∧ App.particles gb
      = filter (λ p, (0 <? Particle.life p)%float = true)
               (moveParticle <$> (App.particles g ++ ps))
    ∧ App.floatingTexts gb
      = filter (λ t, (0 <? FloatingText.life t)%float = true)
               (moveText <$> (App.floatingTexts g ++ ts))
    ∧ length (App.clouds gb) = length (App.clouds g)
    ∧ Forall (λ obj, inPlay obj = true) (App.objects gb)
    ∧ (Forall (λ obj, Obj.radius obj = OBJECT_RADIUS) (App.objects g) →
       Forall (λ obj, Obj.radius obj = OBJECT_RADIUS) (App.objects gb))
    ∧ length (App.objects gb) ≤ length (App.objects g) + 1
    ∧ ((∀ obj, reached hands obj = false) → es = [] ∧ ps = [] ∧ ts = []).
Proof.
  intros Hplay Hover Hpause. unfold updateGameLogic.
  rewrite Hplay, Hover, Hpause. cbn [negb orb].
  set (g1 := App.set_frameCount (App.frameCount g + 1) g).
  set (g2 := if remainderIsZero (App.frameCount g1)
                  (spawnRate spawnFreq g1)
             then spawnObject random speedFactor g1 else g1).
  assert (∃ news d, g2 = App.set_objects (App.objects g ++ news)
                           (App.set_draws d g1)
                    ∧ Forall (λ obj, Obj.radius obj = OBJECT_RADIUS) news
                    ∧ length news ≤ 1) as (news & d2 & Hg2 & Hnews & Hone).
  { unfold g2. destruct (remainderIsZero _ _).
    - destruct (spawnObject_shape random speedFactor g1) as (obj & d & -> & _ & Hrad).
      exists [obj], d. split_and!; [done|by constructor|done].
    - exists [], (App.draws g1). rewrite app_nil_r. split_and!; [|constructor|simpl; lia].
      by destruct g. }
  clearbody g2. subst g2.
  destruct (moveClouds_shape random (App.set_objects (App.objects g ++ news)
                                (App.set_draws d2 g1)))
    as (cs & d3 & -> & Hcs).
  set (g3 := App.set_clouds cs (App.set_draws d3 _)).
  destruct (stepObjects_shape random cos sin hands (App.objects g3) [] g3)
    as (objs' & ps & ts & es & n & -> & Hwell & Hrad & Hnone).
  cbn beta iota zeta. rewrite app_nil_l.
  eexists _, ps, ts, es. split; [reflexivity|].
  unfold g3, g1. destruct g. state_compute. simpl in *.
  split_and!; try done.
  - apply Forall_forall. by intros obj [? _]%list_elem_of_filter.
  - intros Hold. apply Forall_forall. intros obj [_ Hin]%list_elem_of_filter.
    apply list_elem_of_lookup in Hin as [i Hi].
    destruct (Forall2_lookup_r _ _ _ _ _ Hrad Hi) as (obj0 & Hobj0 & ->).
    apply list_elem_of_lookup_2 in Hobj0.
    apply elem_of_app in Hobj0 as [Hin|Hin].
    + by apply (proj1 (Forall_forall _ _) Hold).
    + by apply (proj1 (Forall_forall _ _) Hnews).
  - etrans; [apply length_filter|]. apply Forall2_length in Hrad.
    rewrite <-Hrad, length_app. lia.
  - intros Hq. by destruct (Hnone Hq) as (_ & ? & ? & ?).
Qed.

(** A frame while the game is not played, is over or is paused does
    nothing. *)
Lemma updateGameLogic_idle hands speedFactor spawnFreq g :
  App.isPlaying g = false ∨ App.isGameOver g = true ∨ App.isPaused g = true →
  updateGameLogic random cos sin hands speedFactor spawnFreq g = g.
Proof.
  unfold updateGameLogic. intros [Hq | [Hq | Hq]]; rewrite Hq; [done|..].
  - by destruct (App.isPlaying g).
  - by destruct (App.isPlaying g), (App.isGameOver g).
Qed.
End GameFrames.

(** ** The game: the buttons and the end of a game, field by field *)

Section GameButtons.
Context (random : nat → float) (cos sin : float → float).

Lemma endGame_fields g :
  App.isGameOver (endGame g) = true
  ∧ App.isPlaying (endGame g) = false
  ∧ App.isPaused (endGame g) = false
  ∧ App.isMusicPlaying (endGame g) = false
  ∧ App.score (endGame g) = App.score g
  ∧ App.lives (endGame g) = App.lives g
  ∧ App.highScore (endGame g) = Z.max (App.highScore g) (App.score g)
  ∧ App.savedHighScore (endGame g)
    = (if (App.highScore g <? App.score g)%Z then Some (App.score g)
       else App.savedHighScore g)
  ∧ App.gameState (endGame g)
    = GameState.mk (App.score g) false true
                   (GameState.lives (App.gameState g))
                   (Z.max (App.highScore g) (App.score g)) false
  ∧ App.initialLives (endGame g) = App.initialLives g
  ∧ App.objects (endGame g) = App.objects g
  ∧ App.particles (endGame g) = App.particles g
  ∧ App.floatingTexts (endGame g) = App.floatingTexts g
  ∧ App.clouds (endGame g) = App.clouds g
  ∧ App.effects (endGame g) = App.effects g
  ∧ App.frameCount (endGame g) = App.frameCount g.
Proof.
  destruct g. unfold endGame. state_compute.
  destruct (highScore <? score)%Z eqn:Hcmp; simpl; split_and!; try done.
  - apply Z.ltb_lt in Hcmp. lia.
  - apply Z.ltb_ge in Hcmp. lia.
Qed.

Lemma startGame_fields g :
  ∃ clouds,
    length clouds = 8
    ∧ App.isGameOver (startGame random g) = false
    ∧ App.isPlaying (startGame random g) = true
    ∧ App.isPaused (startGame random g) = false
    ∧ App.isMusicPlaying (startGame random g) = true
    ∧ App.score (startGame random g) = 0%Z
    ∧ App.lives (startGame random g) = App.initialLives g
    ∧ App.highScore (startGame random g) = App.highScore g
    ∧ App.savedHighScore (startGame random g) = App.savedHighScore g
    ∧ App.gameState (startGame random g)
      = GameState.mk 0 true false (App.initialLives g) (App.highScore g) false
    ∧ App.initialLives (startGame random g) = App.initialLives g
    ∧ App.objects (startGame random g) = []
    ∧ App.particles (startGame random g) = []
    ∧ App.floatingTexts (startGame random g) = []
    ∧ App.clouds (startGame random g) = clouds
    ∧ App.effects (startGame random g) = App.effects g
    ∧ App.frameCount (startGame random g) = App.frameCount g.
Proof.
  unfold startGame.
  match goal with
  | |- context [initClouds random ?g0] =>
      destruct (initClouds_shape random g0) as (cs & d & -> & Hlen)
  end.
  exists cs. destruct g. state_compute.
  destruct isMusicPlaying; simpl; by split_and!.
Qed.

Lemma mount_fields saved :
  ∃ clouds,
    length clouds = 8
    ∧ control (mount random (newApp saved))
      = (false, false, false, default 0%Z saved, 5%Z,
         GameState.mk 0 false false 5 0 false, false, saved)
    ∧ App.score (mount random (newApp saved)) = 0%Z
    ∧ App.lives (mount random (newApp saved)) = 5%Z
    ∧ App.objects (mount random (newApp saved)) = []
    ∧ App.particles (mount random (newApp saved)) = []
    ∧ App.floatingTexts (mount random (newApp saved)) = []
    ∧ App.clouds (mount random (newApp saved)) = clouds
    ∧ App.effects (mount random (newApp saved)) = [].
Proof.
  unfold mount.
  match goal with
  | |- context [initClouds random ?g0] =>
      destruct (initClouds_shape random g0) as (cs & d & -> & Hlen)
  end.
  exists cs. unfold newApp. state_compute.
  destruct saved; simpl; by split_and!.
Qed.

(** Induction over what can happen to the component. *)
Lemma play_invariant (P : App.t → Prop) saved actions :
  P (mount random (newApp saved)) →
  (∀ g a, P g → sliderInRange a → P (act random cos sin g a)) →
  Forall sliderInRange actions →
  P (play random cos sin saved actions).
Proof.
  intros Hstart Hstep. unfold play.
  induction actions as [|a actions IH] using rev_ind; intros Hall; [done|].
  apply Forall_app in Hall as [Hall Ha]. rewrite foldl_app. simpl.
  apply Hstep; [by apply IH|]. exact (Forall_inv Ha).
Qed.

Lemma play_invariant_any (P : App.t → Prop) saved actions :
  P (mount random (newApp saved)) →
  (∀ g a, P g → P (act random cos sin g a)) →
  P (play random cos sin saved actions).
Proof.
  intros Hstart Hstep. unfold play.
  induction actions as [|a actions IH] using rev_ind; [done|].
  rewrite foldl_app. simpl. by apply Hstep.
Qed.

(** A frame is idle or active. *)
Lemma idle_or_active g :
  (App.isPlaying g = false ∨ App.isGameOver g = true ∨ App.isPaused g = true)
  ∨ (App.isPlaying g = true ∧ App.isGameOver g = false
     ∧ App.isPaused g = false).
Proof.
  destruct (App.isPlaying g), (App.isGameOver g), (App.isPaused g); auto.
Qed.
End GameButtons.

(** ** The game: what a frame does to the score, the lives and the state *)

Section GameProperties.
Context (random : nat → float) (cos sin : float → float).

Lemma unstable_reach_nothing hands obj :
  Forall (λ hand, (Hand.framesDetected hand < STABILITY_THRESHOLD)%Z) hands →
  reached hands obj = false.
Proof.
  induction 1 as [|hand rest Hlt _ IH]; simpl; [done|].
  apply Z.ltb_lt in Hlt. by rewrite Hlt.
Qed.

(** A frame is idle, or it is a frame of play that ends the game or goes
    on. *)
Lemma frame_cases hands speedFactor spawnFreq g :
  updateGameLogic random cos sin hands speedFactor spawnFreq g = g
  ∨ ∃ gb ps ts es gs,
      (updateGameLogic random cos sin hands speedFactor spawnFreq g
       = endGame gb ∧ (App.lives gb ≤ 0)%Z
       ∨ updateGameLogic random cos sin hands speedFactor spawnFreq g
         = App.set_gameState gs gb ∧ (0 < App.lives gb)%Z
           ∧ gs = GameState.mk (App.score gb)
                    (GameState.isPlaying (App.gameState g))
                    (GameState.gameOver (App.gameState g)) (App.lives gb)
                    (GameState.highScore (App.gameState g))
                    (GameState.isPaused (App.gameState g)))
      ∧ App.isPlaying g = true ∧ App.isGameOver g = false
      ∧ App.isPaused g = false
      ∧ control gb = control g
      ∧ App.score gb = (App.score g + 10 * times BirdSound es)%Z
      ∧ App.lives gb = (App.lives g - times BombSound es)%Z
      ∧ App.effects gb = App.effects g ++ es
      ∧ wellPlayed ps ts es
      ∧ App.particles gb
        = filter (λ p, (0 <? Particle.life p)%float = true)
                 (moveParticle <$> (App.particles g ++ ps))
      ∧ App.floatingTexts gb
        = filter (λ t, (0 <? FloatingText.life t)%float = true)
                 (moveText <$> (App.floatingTexts g ++ ts))
      ∧ length (App.clouds gb) = length (App.clouds g)
      ∧ Forall (λ obj, inPlay obj = true) (App.objects gb)
      ∧ (Forall (λ obj, Obj.radius obj = OBJECT_RADIUS) (App.objects g) →
         Forall (λ obj, Obj.radius obj = OBJECT_RADIUS) (App.objects gb))
      ∧ ((∀ obj, reached hands obj = false) → es = [] ∧ ps = [] ∧ ts = []).
Proof.
  destruct (idle_or_active g) as [Hidle | (Hp & Ho & Hz)].
  { left. by apply updateGameLogic_idle. }
  right.
  destruct (updateGameLogic_active random cos sin hands speedFactor spawnFreq
              g Hp Ho Hz)
    as (gb & ps & ts & es & -> & Hc & _ & Hs & Hl & He & Hw & Hps & Hts & Hcl
        & Hin & Hrad & _ & Hnone).
  exists gb, ps, ts, es.
  assert (App.gameState gb = App.gameState g) as Hgs.
  { unfold control in Hc. congruence. }
  rewrite Hgs. eexists.
  split; [|by split_and!].
  destruct (App.lives gb <=? 0)%Z eqn:Hlives.
  - left. apply Z.leb_le in Hlives. done.
  - right. apply Z.leb_gt in Hlives. done.
Qed.

(** X6. Hands that have been seen for fewer than three frames catch
    nothing: a frame with only such hands leaves the score, the lives and
    the sounds and shakes asked for as they were. *)
Theorem unstable_hands_catch_nothing hands speedFactor spawnFreq g :
  Forall (λ hand, (Hand.framesDetected hand < STABILITY_THRESHOLD)%Z) hands →
  App.score (updateGameLogic random cos sin hands speedFactor spawnFreq g)
  = App.score g
  ∧ App.lives (updateGameLogic random cos sin hands speedFactor spawnFreq g)
    = App.lives g
  ∧ App.effects (updateGameLogic random cos sin hands speedFactor spawnFreq g)
    = App.effects g.
Proof.
  intros Hall.
  destruct (frame_cases hands speedFactor spawnFreq g)
    as [-> | (gb & ps & ts & es & gs & Hend & _ & _ & _ & _ & Hs & Hl & He & _
              & _ & _ & _ & _ & _ & Hnone)]; [done|].
  destruct Hnone as (-> & -> & ->).
  { intros obj. by apply unstable_reach_nothing. }
  rewrite app_nil_r in He. unfold times in Hs, Hl. simpl in Hs, Hl.
  destruct Hend as [[-> _] | (-> & _ & _)].
  - destruct (endGame_fields gb)
      as (_ & _ & _ & _ & -> & -> & _ & _ & _ & _ & _ & _ & _ & _ & -> & _).
    split_and!; [lia|lia|done].
  - simpl. split_and!; [lia|lia|done].
Qed.

(** X7. Whatever the hands do, a frame adds 10 to the score for every bird
    sound it asks for, takes one life for every bomb sound, and shakes the
    page once for every bomb sound; so the score never goes down in a frame
    and the lives never go up. *)
Theorem catches_are_tallied hands speedFactor spawnFreq g :
  tallied g (updateGameLogic random cos sin hands speedFactor spawnFreq g)
  ∧ (App.score g
     ≤ App.score (updateGameLogic random cos sin hands speedFactor spawnFreq g))%Z
  ∧ (App.lives (updateGameLogic random cos sin hands speedFactor spawnFreq g)
     ≤ App.lives g)%Z.
Proof.
  destruct (frame_cases hands speedFactor spawnFreq g)
    as [-> | (gb & ps & ts & es & gs & Hend & _ & _ & _ & _ & Hs & Hl & He
              & (_ & _ & Hshake) & _)].
  { split; [|lia]. exists []. unfold times. simpl.
    rewrite app_nil_r. split_and!; [done|lia|lia|done]. }
  pose proof (times_nonneg BirdSound es).
  pose proof (times_nonneg BombSound es).
  destruct Hend as [[-> _] | (-> & _ & _)].
  - destruct (endGame_fields gb)
      as (_ & _ & _ & _ & Hes & Hel & _ & _ & _ & _ & _ & _ & _ & _ & Hee & _).
    split; [|lia]. exists es. by rewrite Hee, Hes, Hel.
  - simpl. split; [|lia]. by exists es.
Qed.

Lemma control_fields g1 g2 :
  control g1 = control g2 →
  App.isGameOver g1 = App.isGameOver g2
  ∧ App.isPlaying g1 = App.isPlaying g2
  ∧ App.isPaused g1 = App.isPaused g2
  ∧ App.highScore g1 = App.highScore g2
  ∧ App.initialLives g1 = App.initialLives g2
  ∧ App.gameState g1 = App.gameState g2
  ∧ App.isMusicPlaying g1 = App.isMusicPlaying g2
  ∧ App.savedHighScore g1 = App.savedHighScore g2.
Proof. unfold control. intros [= -> -> -> -> -> -> -> ->]. done. Qed.

(** *** The flags *)

Lemma coherent_act g a : coherent g → coherent (act random cos sin g a).
Proof.
  intros Hg. destruct a as [| | |hands speedFactor spawnFreq| |v]; simpl.
  - destruct (startGame_fields random g)
      as (cs & _ & Ho & Hp & Hz & Hm & _).
    set (g' := startGame random g) in *. clearbody g'.
    unfold coherent. rewrite Ho, Hp, Hz, Hm. done.
  - unfold coherent, togglePause in *. destruct g. state_compute.
    destruct isPlaying, isGameOver, isPaused, isMusicPlaying; simpl in *;
      intuition congruence.
  - unfold coherent, exitGame in *. destruct g. state_compute. intuition congruence.
  - destruct (frame_cases hands speedFactor spawnFreq g)
      as [-> | (gb & ps & ts & es & gs & Hend & Hp & Ho & Hz & Hc & _)];
      [done|].
    apply control_fields in Hc as (Hco & Hcp & Hcz & _ & _ & _ & Hcm & _).
    destruct Hend as [[-> _] | (-> & _ & _)].
    + destruct (endGame_fields gb) as (Heo & Hep & Hez & Hem & _).
      unfold coherent. rewrite Heo, Hep, Hez, Hem. done.
    + unfold coherent in *. simpl. by rewrite Hco, Hcp, Hcz, Hcm.
  - unfold coherent in *. destruct g. state_compute. intuition congruence.
  - unfold coherent in *. destruct g. state_compute. intuition congruence.
Qed.

Lemma coherent_mount saved : coherent (mount random (newApp saved)).
Proof.
  destruct (mount_fields random saved) as (cs & _ & Hc & _).
  set (g := mount random (newApp saved)) in *. clearbody g.
  unfold coherent. unfold control in Hc. injection Hc as -> -> -> _ _ _ -> _.
  done.
Qed.

(** X8. Whatever happens to the component, its flags agree: a paused game
    is a game being played, a game being played is not over, and the music
    plays only while a game is played and not paused. *)
Theorem flags_stay_coherent saved actions :
  coherent (play random cos sin saved actions).
Proof.
  unfold play.
  induction actions as [|a actions IH] using rev_ind.
  - apply coherent_mount.
  - rewrite foldl_app. apply coherent_act, IH.
Qed.
End GameProperties.

Lemma unstable_hands_catch_nothing_witness :
  Forall (λ hand, (Hand.framesDetected hand < STABILITY_THRESHOLD)%Z) [newHand]
  ∧ App.score (updateGameLogic sampleRandom sampleCos sampleSin [newHand] 0.4 1
                 (play sampleRandom sampleCos sampleSin None [StartGame]))
    = 0%Z.
Proof.
  split.
  - repeat constructor.
  - exact (proj1 (unstable_hands_catch_nothing sampleRandom sampleCos sampleSin
                    [newHand] 0.4 1
                    (play sampleRandom sampleCos sampleSin None [StartGame])
                    ltac:(repeat constructor))).
Defined.

(** ** The game: what holds in every state the component can reach *)

Section GameInvariants.
Context (random : nat → float) (cos sin : float → float).

(** *** The page and the refs *)

Lemma mirrored_act g a : mirrored g → mirrored (act random cos sin g a).
Proof.
  intros Hg. destruct a as [| | |hands speedFactor spawnFreq| |v]; simpl.
  - destruct (startGame_fields random g)
      as (cs & _ & Ho & Hp & Hz & _ & Hs & Hl & _ & _ & Hgs & _).
    set (g' := startGame random g) in *. clearbody g'.
    unfold mirrored. rewrite Ho, Hp, Hz, Hs, Hl, Hgs. done.
  - unfold mirrored, togglePause in *. destruct g. state_compute.
    destruct isPlaying, isGameOver, isPaused, isMusicPlaying; simpl in *;
      intuition congruence.
  - unfold mirrored, exitGame in *. destruct g. state_compute.
    simpl. intuition congruence.
  - destruct (frame_cases random cos sin hands speedFactor spawnFreq g)
      as [-> | (gb & ps & ts & es & gs & Hend & Hp & Ho & Hz & Hc & _)];
      [done|].
    apply control_fields in Hc as (Hco & Hcp & Hcz & _ & _ & _ & _ & _).
    destruct Hend as [[-> _] | (-> & _ & ->)].
    + destruct (endGame_fields gb)
        as (Heo & Hep & Hez & _ & Hes & _ & _ & _ & Hegs & _).
      unfold mirrored. rewrite Heo, Hep, Hez, Hes, Hegs. done.
    + destruct Hg as (Hg1 & Hg2 & Hg3 & _). unfold mirrored. simpl.
      rewrite Hco, Hcp, Hcz, Hg1, Hg2, Hg3. done.
  - unfold mirrored in *. destruct g. state_compute. intuition congruence.
  - unfold mirrored in *. destruct g. state_compute. intuition congruence.
Qed.

Lemma mirrored_mount saved : mirrored (mount random (newApp saved)).
Proof.
  destruct (mount_fields random saved) as (cs & _ & Hc & Hs & Hl & _).
  set (g := mount random (newApp saved)) in *. clearbody g.
  apply (control_fields g (App.mk 0 [] [] [] [] 0 0 false false false
                             (default 0%Z saved) 5
                             (GameState.mk 0 false false 5 0 false) false
                             saved 0 []))
    in Hc as (Ho & Hp & Hz & _ & _ & Hgs & _).
  unfold mirrored. rewrite Ho, Hp, Hz, Hgs, Hs, Hl. done.
Qed.

(** X9. Whatever happens to the component, the state that the page shows
    agrees with the refs that the loop works on: the three flags and the
    score always, and the lives while a game is played. *)
Theorem page_mirrors_the_refs saved actions :
  mirrored (play random cos sin saved actions).
Proof.
  unfold play.
  induction actions as [|a actions IH] using rev_ind.
  - apply mirrored_mount.
  - rewrite foldl_app. apply mirrored_act, IH.
Qed.

(** *** The scene *)

Lemma particle_fades p :
  (∃ k, k ≤ 39 ∧ Particle.life p = particleLife k) →
  (0 <? Particle.life (moveParticle p))%float = true →
  ∃ k, 1 ≤ k ≤ 39 ∧ Particle.life (moveParticle p) = particleLife k.
Proof.
  intros (k & Hk & Hlife) Hpos. simpl in *. rewrite Hlife in *.
  destruct (decide (k = 39)) as [->|].
  - vm_compute in Hpos. discriminate.
  - exists (S k). split; [lia|done].
Qed.

Lemma text_fades t :
  (∃ k, k ≤ 66 ∧ FloatingText.life t = textLife k) →
  (0 <? FloatingText.life (moveText t))%float = true →
  ∃ k, 1 ≤ k ≤ 66 ∧ FloatingText.life (moveText t) = textLife k.
Proof.
  intros (k & Hk & Hlife) Hpos. simpl in *. rewrite Hlife in *.
  destruct (decide (k = 66)) as [->|].
  - vm_compute in Hpos. discriminate.
  - exists (S k). split; [lia|done].
Qed.

Lemma tidy_scene g1 g2 :
  App.objects g2 = App.objects g1 → App.clouds g2 = App.clouds g1 →
  App.particles g2 = App.particles g1 →
  App.floatingTexts g2 = App.floatingTexts g1 →
  tidy g1 → tidy g2.
Proof. unfold tidy. by intros -> -> -> ->. Qed.

Lemma tidy_act g a : tidy g → tidy (act random cos sin g a).
Proof.
  intros Hg. destruct a as [| | |hands speedFactor spawnFreq| |v]; simpl.
  - destruct (startGame_fields random g)
      as (cs & Hlen & _ & _ & _ & _ & _ & _ & _ & _ & _ & _ & Hobj & Hps & Hts
          & Hcs & _).
    set (g' := startGame random g) in *. clearbody g'.
    unfold tidy. rewrite Hobj, Hps, Hts, Hcs. by split_and!.
  - revert Hg. apply tidy_scene; unfold togglePause; destruct g; state_compute;
      by destruct isPlaying, isGameOver, isPaused, isMusicPlaying.
  - revert Hg. by apply tidy_scene; destruct g.
  - destruct (frame_cases random cos sin hands speedFactor spawnFreq g)
      as [-> | (gb & ps & ts & es & gs & Hend & _ & _ & _ & _ & _ & _ & _
                & (Hps1 & Hts1 & _) & Hps & Hts & Hcl & Hin & Hrad & _)];
      [done|].
    destruct Hg as (Hobj & Hclouds & Hparts & Htexts).
    assert (tidy gb) as Hgb.
    { unfold tidy. rewrite Hps, Hts, Hcl. split_and!; [|done|..].
      - apply Forall_and. split; [done|]. apply Hrad.
        by apply Forall_and in Hobj as [_ ?].
      - apply Forall_forall. intros p' [Hpos Hp']%list_elem_of_filter.
        apply list_elem_of_fmap in Hp' as (p & -> & Hp).
        apply particle_fades; [|done].
        apply elem_of_app in Hp as [Hp|Hp].
        + destruct (proj1 (Forall_forall _ _) Hparts p Hp) as (k & ? & ?).
          exists k. split; [lia|done].
        + exists 0. split; [lia|]. by apply (proj1 (Forall_forall _ _) Hps1).
      - apply Forall_forall. intros t' [Hpos Ht']%list_elem_of_filter.
        apply list_elem_of_fmap in Ht' as (t & -> & Ht).
        apply text_fades; [|done].
        apply elem_of_app in Ht as [Ht|Ht].
        + destruct (proj1 (Forall_forall _ _) Htexts t Ht) as (k & ? & ?).
          exists k. split; [lia|done].
        + exists 0. split; [lia|]. by apply (proj1 (Forall_forall _ _) Hts1). }
    destruct Hend as [[-> _] | (-> & _ & _)].
    + destruct (endGame_fields gb)
        as (_ & _ & _ & _ & _ & _ & _ & _ & _ & _ & Ho & Hp & Ht & Hc & _).
      revert Hgb. by apply tidy_scene.
    + revert Hgb. by apply tidy_scene.
  - revert Hg. by apply tidy_scene; destruct g.
  - revert Hg. by apply tidy_scene; destruct g.
Qed.

(** X10. Whatever happens to the component, the scene is in order: every
    object is uncaught, within 500 pixels of the canvas and of radius 40;
    there are eight clouds; every particle has been through 1 to 39 frames
    and every floating text through 1 to 66, which is as long as their
    [life] stays above zero. *)
Theorem scene_stays_tidy saved actions :
  tidy (play random cos sin saved actions)
  ∧ (0 <? particleLife 39)%float = true ∧ (0 <? particleLife 40)%float = false
  ∧ (0 <? textLife 66)%float = true ∧ (0 <? textLife 67)%float = false.
Proof.
  split; [|by vm_compute].
  apply play_invariant_any; [|apply tidy_act].
  destruct (mount_fields random saved)
    as (cs & Hlen & _ & _ & _ & Hobj & Hps & Hts & Hcs & _).
  set (g := mount random (newApp saved)) in *. clearbody g.
  unfold tidy. rewrite Hobj, Hps, Hts, Hcs. by split_and!.
Qed.

(** *** The score and the lives *)

Lemma fair_act g a :
  fair g → sliderInRange a → fair (act random cos sin g a).
Proof.
  intros Hg Ha. destruct a as [| | |hands speedFactor spawnFreq| |v]; simpl.
  - destruct (startGame_fields random g)
      as (cs & _ & Ho & Hp & _ & _ & Hs & Hl & _ & _ & _ & Hi & _).
    set (g' := startGame random g) in *. clearbody g'.
    destruct Hg as (_ & _ & _ & Hrange & _).
    unfold fair. rewrite Ho, Hp, Hs, Hl, Hi. split_and!; try done; lia.
  - unfold fair, togglePause in *. destruct g. state_compute.
    by destruct isPlaying, isGameOver, isPaused, isMusicPlaying.
  - unfold fair, exitGame in *. destruct g. state_compute.
    destruct Hg as (? & ? & ? & ? & _). split_and!; try done; lia.
  - destruct (frame_cases random cos sin hands speedFactor spawnFreq g)
      as [-> | (gb & ps & ts & es & gs & Hend & Hp & Ho & Hz & Hc & Hs & Hl
                & _)]; [done|].
    apply control_fields in Hc as (Hco & Hcp & _ & _ & Hci & _).
    pose proof (times_nonneg BirdSound es).
    pose proof (times_nonneg BombSound es).
    destruct Hg as (Hpos & Hmod & Hmax & Hrange & _).
    assert (App.score gb mod 10 = 0)%Z as Hmod'.
    { rewrite Hs, Z.mul_comm, Z_mod_plus_full. done. }
    destruct Hend as [[-> Hout] | (-> & Hleft & _)].
    + destruct (endGame_fields gb)
        as (Heo & Hep & _ & _ & Hes & Hel & _ & _ & _ & Hei & _).
      unfold fair. rewrite Heo, Hep, Hes, Hel, Hei, Hci.
      split_and!; try done; lia.
    + unfold fair. simpl. rewrite Hco, Hcp, Hci, Ho.
      split_and!; try done; lia.
  - unfold fair in *. destruct g. by state_compute.
  - unfold fair in *. destruct g. state_compute. simpl in Ha.
    destruct Hg as (? & ? & ? & ? & ? & ?). split_and!; try done; lia.
Qed.

(** X11. While the slider of the starting lives gives 1 to 10, as its range
    says, in every state the component can reach the score is a multiple of
    10 and not negative, there are at most 10 lives, a game being played
    has a life left, and a game that is over has none. *)
Theorem score_and_lives_stay_fair saved actions :
  Forall sliderInRange actions →
  fair (play random cos sin saved actions).
Proof.
  apply play_invariant; [|apply fair_act].
  destruct (mount_fields random saved) as (cs & _ & Hc & Hs & Hl & _).
  set (g := mount random (newApp saved)) in *. clearbody g.
  apply (control_fields g (App.mk 0 [] [] [] [] 0 0 false false false
                             (default 0%Z saved) 5
                             (GameState.mk 0 false false 5 0 false) false
                             saved 0 []))
    in Hc as (Ho & Hp & _ & _ & Hi & _).
  unfold fair. rewrite Ho, Hp, Hi, Hs, Hl. simpl. split_and!; try done; lia.
Qed.

(** *** The high score *)

Lemma remembered_act g a : remembered g → remembered (act random cos sin g a).
Proof.
  intros Hg. destruct a as [| | |hands speedFactor spawnFreq| |v]; simpl.
  - destruct (startGame_fields random g)
      as (cs & _ & Ho & _ & _ & _ & _ & _ & Hh & Hsv & _).
    set (g' := startGame random g) in *. clearbody g'.
    destruct Hg as (Hsaved & _).
    unfold remembered. rewrite Ho, Hh, Hsv. done.
  - unfold remembered, togglePause in *. destruct g. state_compute.
    by destruct isPlaying, isGameOver, isPaused, isMusicPlaying.
  - unfold remembered, exitGame in *. destruct g. state_compute.
    destruct Hg as (? & _). done.
  - destruct (frame_cases random cos sin hands speedFactor spawnFreq g)
      as [-> | (gb & ps & ts & es & gs & Hend & Hp & Ho & Hz & Hc & _)];
      [done|].
    apply control_fields in Hc as (Hco & _ & _ & Hch & _ & _ & _ & Hcs).
    destruct Hg as (Hsaved & _).
    destruct Hend as [[-> _] | (-> & _ & _)].
    + destruct (endGame_fields gb)
        as (_ & _ & _ & _ & Hes & _ & Heh & Hesv & _).
      unfold remembered. rewrite Hes, Heh, Hesv, Hch, Hcs.
      split; [|lia].
      destruct (App.highScore g <? App.score gb)%Z eqn:Hcmp; simpl.
      * apply Z.ltb_lt in Hcmp. lia.
      * apply Z.ltb_ge in Hcmp. lia.
    + unfold remembered. simpl. rewrite Hco, Hch, Hcs, Ho. done.
  - unfold remembered in *. destruct g. by state_compute.
  - unfold remembered in *. destruct g. by state_compute.
Qed.

Lemma highScore_act g a :
  (App.highScore g ≤ App.highScore (act random cos sin g a))%Z.
Proof.
  destruct a as [| | |hands speedFactor spawnFreq| |v]; cbn [act].
  - destruct (startGame_fields random g)
      as (cs & _ & _ & _ & _ & _ & _ & _ & Hh & _).
    set (g' := startGame random g) in *. clearbody g'. by rewrite Hh.
  - unfold togglePause. destruct g. state_compute.
    destruct isPlaying, isGameOver, isPaused, isMusicPlaying; simpl; lia.
  - destruct g. unfold exitGame. state_compute. lia.
  - destruct (frame_cases random cos sin hands speedFactor spawnFreq g)
      as [-> | (gb & ps & ts & es & gs & Hend & Hp & Ho & Hz & Hc & _)];
      [done|].
    apply control_fields in Hc as (_ & _ & _ & Hch & _).
    destruct Hend as [[-> _] | (-> & _ & _)].
    + destruct (endGame_fields gb) as (_ & _ & _ & _ & _ & _ & Heh & _).
      rewrite Heh. lia.
    + simpl. lia.
  - destruct g. state_compute. lia.
  - destruct g. state_compute. lia.
Qed.

(** X12. Whatever happens to the component, the high score in memory is
    the one in [localStorage] (0 when nothing is stored), it is at least
    the score of a game that is over, and nothing that happens later makes
    it lower. *)
Theorem high_score_is_remembered saved actions more :
  remembered (play random cos sin saved actions)
  ∧ (App.highScore (play random cos sin saved actions)
     ≤ App.highScore (play random cos sin saved (actions ++ more)))%Z.
Proof.
  split.
  - apply play_invariant_any; [|apply remembered_act].
    destruct (mount_fields random saved) as (cs & _ & Hc & Hs & _).
    set (g := mount random (newApp saved)) in *. clearbody g.
    apply (control_fields g (App.mk 0 [] [] [] [] 0 0 false false false
                               (default 0%Z saved) 5
                               (GameState.mk 0 false false 5 0 false) false
                               saved 0 []))
      in Hc as (Ho & _ & _ & Hh & _ & _ & _ & Hsv).
    unfold remembered. rewrite Ho, Hh, Hsv. done.
  - unfold play. rewrite foldl_app.
    generalize (foldl (act random cos sin) (mount random (newApp saved))
                  actions).
    induction more as [|a more IH] using rev_ind; intros g; [done|].
    rewrite foldl_app. simpl. etrans; [apply IH|]. apply highScore_act.
Qed.

(** *** The pause button *)

(** X13. In every state the component can reach, pressing the pause button
    twice changes nothing but the music: it brings a paused game back as it
    was, and after it the music of a running game plays. *)
Theorem pause_twice_is_back saved actions :
  togglePause (togglePause (play random cos sin saved actions))
  = (if App.isPlaying (play random cos sin saved actions)
        && negb (App.isPaused (play random cos sin saved actions))
     then startMusic (play random cos sin saved actions)
     else play random cos sin saved actions).
Proof.
  assert (coherent (play random cos sin saved actions)
          ∧ mirrored (play random cos sin saved actions)) as [Hc Hm].
  { apply (play_invariant_any random cos sin (λ g, coherent g ∧ mirrored g)).
    - split; [apply coherent_mount|apply mirrored_mount].
    - intros g a [? ?]. split; [by apply coherent_act|by apply mirrored_act]. }
  set (g := play random cos sin saved actions) in *. clearbody g.
  unfold coherent, mirrored, togglePause in *. destruct g.
  destruct gameState. state_compute. simpl in *.
  destruct Hm as (-> & -> & -> & -> & Hl).
  destruct isPlaying, isGameOver, isPaused, isMusicPlaying; simpl in *;
    try done; intuition congruence.
Qed.
End GameInvariants.

Lemma score_and_lives_stay_fair_witness :
  Forall sliderInRange
    [SetInitialLives 3; StartGame; GameFrame [newHand] 0.4 1; TogglePause]
  ∧ fair (play sampleRandom sampleCos sampleSin None
            [SetInitialLives 3; StartGame; GameFrame [newHand] 0.4 1;
             TogglePause]).
Proof.
  assert (Forall sliderInRange
            [SetInitialLives 3; StartGame; GameFrame [newHand] 0.4 1;
             TogglePause]) as Hrange.
  { repeat constructor; simpl; lia. }
  split; [exact Hrange|].
  exact (score_and_lives_stay_fair sampleRandom sampleCos sampleSin None _
           Hrange).
Defined.

(** ** The game: catching *)

Section GameCatch.
Context (random : nat → float) (cos sin : float → float).

(** The loop over the hands finds a hand exactly when there is one that is
    stable and within reach. *)
Lemma reached_iff hands obj :
  reached hands obj = true
  ↔ ∃ hand, hand ∈ hands
            ∧ (STABILITY_THRESHOLD ≤ Hand.framesDetected hand)%Z
            ∧ withinReach hand obj = true.
Proof.
  induction hands as [|hand0 rest IH]; simpl.
  { split; [done|]. by intros (hand & ?%elem_of_nil & _). }
  destruct (Hand.framesDetected hand0 <? STABILITY_THRESHOLD)%Z eqn:Hfd.
  - apply Z.ltb_lt in Hfd. rewrite IH. split.
    + intros (hand & Hin & ?). exists hand. split; [by right|done].
    + intros (hand & Hin & Hst & Hw). apply elem_of_cons in Hin as [->|Hin].
      * lia.
      * by exists hand.
  - apply Z.ltb_ge in Hfd. fold (withinReach hand0 obj).
    destruct (withinReach hand0 obj) eqn:Hw0.
    + split; [|done]. intros _. exists hand0. split; [by left|done].
    + rewrite IH. split.
      * intros (hand & Hin & ?). exists hand. split; [by right|done].
      * intros (hand & Hin & Hst & Hw). apply elem_of_cons in Hin as [->|Hin].
        -- congruence.
        -- by exists hand.
Qed.

(** X14. An object that is not caught yet and, after its move, within reach
    of some hand seen for at least three frames is caught, and counted
    once however many hands reach it: a bird adds 10 to the score and asks
    for the bird sound, a bomb takes one life and asks for the bomb sound
    and a shake; either gives 15 particles. *)
Theorem reach_catches_once hands moved g obj hand :
  Obj.caught obj = false →
  hand ∈ hands →
  (STABILITY_THRESHOLD ≤ Hand.framesDetected hand)%Z →
  withinReach hand (advance obj) = true →
  ∃ g',
    stepObject random cos sin hands (moved, g) obj
    = (moved ++ [setCaught (advance obj)], g')
    ∧ App.score g'
      = (App.score g + match Obj.type obj with BIRD => 10 | BOMB => 0 end)%Z
    ∧ App.lives g'
      = (App.lives g - match Obj.type obj with BIRD => 0 | BOMB => 1 end)%Z
    ∧ App.effects g'
      = App.effects g ++ match Obj.type obj with
                         | BIRD => [BirdSound]
                         | BOMB => [BombSound; Shake]
                         end
    ∧ length (App.particles g') = length (App.particles g) + 15.
Proof.
  intros Hcaught Hin Hstable Hwithin.
  assert (reached hands (advance obj) = true) as Hreach.
  { apply reached_iff. by exists hand. }
  unfold stepObject.
  change (Obj.caught (advance obj)) with (Obj.caught obj). rewrite Hcaught, Hreach.
  change (Obj.type (setCaught (advance obj))) with (Obj.type obj).
  destruct (Obj.type obj).
  - set (g1 := playBirdSound (App.set_score (App.score g + 10) g)).
    destruct (createExplosion_shape random cos sin
                (Obj.x (setCaught (advance obj)))
                (Obj.y (setCaught (advance obj))) "#FFEB3B" g1)
      as (ps & _ & Hlen & ->).
    destruct (createFloatingText_shape random
                (Obj.x (setCaught (advance obj)))
                (Obj.y (setCaught (advance obj))) "+10" "#FFD700"
                (played g1 ps [] [] 60)) as (t & _ & ->).
    eexists. split; [reflexivity|].
    unfold g1. destruct g. state_compute. unfold times. simpl.
    rewrite !length_app, Hlen. simpl.
    split_and!; [lia|lia|by rewrite ?app_nil_r, <-?app_assoc|lia].
  - set (g1 := playBombSound (App.set_lives (App.lives g - 1) g)).
    destruct (createExplosion_shape random cos sin
                (Obj.x (setCaught (advance obj)))
                (Obj.y (setCaught (advance obj))) "#FF5252" g1)
      as (ps & _ & Hlen & ->).
    eexists. split; [reflexivity|].
    unfold g1. destruct g. state_compute. unfold times. simpl.
    rewrite !length_app, Hlen. simpl.
    split_and!; [lia|lia|by rewrite ?app_nil_r, <-?app_assoc|lia].
Qed.
End GameCatch.

Lemma reach_catches_once_witness :
  Obj.caught sampleBird = false
  ∧ steadyHand ∈ [newHand; steadyHand; steadyHand]
  ∧ (STABILITY_THRESHOLD ≤ Hand.framesDetected steadyHand)%Z
  ∧ withinReach steadyHand (advance sampleBird) = true
  ∧ ∃ g',
      stepObject sampleRandom sampleCos sampleSin
        [newHand; steadyHand; steadyHand]
        ([], play sampleRandom sampleCos sampleSin None [StartGame]) sampleBird
      = ([] ++ [setCaught (advance sampleBird)], g')
      ∧ App.score g' = 10%Z.
Proof.
  assert (steadyHand ∈ [newHand; steadyHand; steadyHand]) as Hin.
  { right. left. }
  assert (STABILITY_THRESHOLD ≤ Hand.framesDetected steadyHand)%Z as Hstable.
  { unfold STABILITY_THRESHOLD. simpl. lia. }
  assert (withinReach steadyHand (advance sampleBird) = true) as Hwithin.
  { by vm_compute. }
  split_and!; [done|exact Hin|exact Hstable|exact Hwithin|].
  destruct (reach_catches_once sampleRandom sampleCos sampleSin
              [newHand; steadyHand; steadyHand] []
              (play sampleRandom sampleCos sampleSin None [StartGame])
              sampleBird steadyHand eq_refl Hin Hstable Hwithin)
    as (g' & Hstep & Hscore & _).
  exists g'. split; [exact Hstep|exact Hscore].
Defined.
